(** * A shallow embedding of the graph engine of libertas-infinita.js

    The editor class [NodeIDE] keeps its node table ([this.nodes], a [Map]
    from node id to node data), its connection list ([this.connections]),
    the view transform, the id counter and the undo/redo history in one
    object.  Here that object is the record [editor]; methods that mutate it
    are written in a small state-and-exception monad [M] over [editor], so
    that an exception thrown half-way leaves the partially updated editor
    behind, as it does in JavaScript.  JavaScript values are the inductive
    [value]; numbers are rationals (binary floating point rounding is not
    modelled; every number used below is a small integer). *)

From Stdlib Require Import String Ascii List Bool ZArith QArith Lia.
From Stdlib Require Import Relations ListDec.
Import ListNotations.
Set Warnings "-register-all".
Close Scope Q_scope.
Open Scope string_scope.
Open Scope list_scope.

(** ** JavaScript values *)

Inductive value : Type :=
| VUndef
| VNull
| VBool (b : bool)
| VNum (q : Q)
| VStr (s : string)
| VArr (l : list value)
| VObj (fields : list (string * value)).

(** Truthiness ([if (v)], [v || d]). *)
Definition truthy (v : value) : bool :=
  match v with
  | VUndef | VNull => false
  | VBool b => b
  | VNum q => negb (Qeq_bool q 0)
  | VStr s => negb (String.eqb s "")
  | VArr _ | VObj _ => true
  end.

Definition js_or (v d : value) : value := if truthy v then v else d.

(** Own property lookup; a missing property reads as [undefined]. *)
Fixpoint assoc {A} (k : string) (l : list (string * A)) : option A :=
  match l with
  | [] => None
  | (k', a) :: l' => if String.eqb k k' then Some a else assoc k l'
  end.

(** [o[k] = v] on a plain object or a [Map]: an existing key keeps its
    position, a new key is appended (insertion order). *)
Fixpoint assoc_set {A} (k : string) (a : A) (l : list (string * A))
  : list (string * A) :=
  match l with
  | [] => [(k, a)]
  | (k', a') :: l' =>
      if String.eqb k k' then (k', a) :: l' else (k', a') :: assoc_set k a l'
  end.

Definition field (fs : list (string * value)) (k : string) : value :=
  match assoc k fs with Some v => v | None => VUndef end.

(** The outcome of a piece of JavaScript that does not touch the editor:
    a value, a thrown exception, a computation that never returns (an
    infinite loop of user code), or [Stuck] for an input outside what this
    embedding covers. *)
Inductive outcome (A : Type) : Type :=
| Ok (a : A)
| Throw (e : value)
| NoReturn
| Stuck.
Arguments Ok {A} a.
Arguments Throw {A} e.
Arguments NoReturn {A}.
Arguments Stuck {A}.

Definition obind {A B} (m : outcome A) (k : A -> outcome B) : outcome B :=
  match m with
  | Ok a => k a
  | Throw e => Throw e
  | NoReturn => NoReturn
  | Stuck => Stuck
  end.

Notation "x <-- m ;;; k" := (obind m (fun x => k))
  (at level 61, m at next level, right associativity).

Definition error_object (name msg : string) : value :=
  VObj [("name", VStr name); ("message", VStr msg)].

Definition type_error (msg : string) : value := error_object "TypeError" msg.

(** [v[k]] for a property name [k]: reading a property of [null] or
    [undefined] throws a TypeError; primitives other than those, and arrays,
    have none of the (non-builtin) names read in this file. *)
Definition get_prop (v : value) (k : string) : outcome value :=
  match v with
  | VUndef | VNull => Throw (type_error ("Cannot read properties of null or undefined (reading '" ++ k ++ "')"))
  | VObj fs => Ok (field fs k)
  | _ => Ok VUndef
  end.

(** ** The editor state *)

(** A form control of a node ([data-param] / [data-output] element): its
    [value], or [checked] for a checkbox. *)
Inductive control : Type :=
| FText (s : string)
| FCheck (b : bool).

(** The parts of a node a processor writes: its form controls (keyed by
    [data-param] / [data-output] name), its [outputs] object and the text
    of its [.node-status] element. *)
Record nodeDom : Type := mkNodeDom {
  controls : list (string * control);
  outputs : list (string * value);
  status : string
}.

(** [nodeData] of [createNode]; [left] and [top] are the element's
    [offsetLeft] / [offsetTop], [width] and [height] its [style] sizes. *)
Record nodeData : Type := mkNodeData {
  type_ : string;
  left : Z;
  top : Z;
  width : string;
  height : string;
  properties : value;
  codeBlockProperties : value;
  parentId : value;
  children : value;
  dom : nodeDom
}.

Record conn : Type := mkConn {
  from_node : string;
  from_socket : string;
  to_node : string;
  to_socket : string
}.

Record history : Type := mkHistory {
  undoStack : list value;
  redoStack : list value;
  isRestoring : bool
}.

Definition maxHistory : nat := 50.

Record editor : Type := mkEditor {
  nodes : list (string * nodeData);
  connections : list conn;
  canvasOffset : value;
  scale : value;
  nodeCounter : Z;
  hist : history;
  alerts : list string
}.

Definition with_nodes (ed : editor) (ns : list (string * nodeData)) : editor :=
  mkEditor ns (connections ed) (canvasOffset ed) (scale ed) (nodeCounter ed) (hist ed) (alerts ed).
Definition with_connections (ed : editor) (cs : list conn) : editor :=
  mkEditor (nodes ed) cs (canvasOffset ed) (scale ed) (nodeCounter ed) (hist ed) (alerts ed).
Definition with_view (ed : editor) (off sc : value) (ctr : Z) : editor :=
  mkEditor (nodes ed) (connections ed) off sc ctr (hist ed) (alerts ed).
Definition with_counter (ed : editor) (ctr : Z) : editor :=
  mkEditor (nodes ed) (connections ed) (canvasOffset ed) (scale ed) ctr (hist ed) (alerts ed).
Definition with_hist (ed : editor) (h : history) : editor :=
  mkEditor (nodes ed) (connections ed) (canvasOffset ed) (scale ed) (nodeCounter ed) h (alerts ed).
Definition with_alert (ed : editor) (msg : string) : editor :=
  mkEditor (nodes ed) (connections ed) (canvasOffset ed) (scale ed) (nodeCounter ed) (hist ed) (alerts ed ++ [msg]).

Definition with_dom (nd : nodeData) (d : nodeDom) : nodeData :=
  mkNodeData (type_ nd) (left nd) (top nd) (width nd) (height nd) (properties nd)
    (codeBlockProperties nd) (parentId nd) (children nd) d.

(** A processor mutates the [nodeData] it is given (its outputs, status and
    form controls) after reading the connection list and other nodes'
    outputs. *)
Definition set_dom (nodeId : string) (d : nodeDom) (ed : editor) : editor :=
  match assoc nodeId (nodes ed) with
  | Some nd => with_nodes ed (assoc_set nodeId (with_dom nd d) (nodes ed))
  | None => ed
  end.

(** ** A state-and-exception monad over the editor *)

Inductive res (A : Type) : Type :=
| ROk (a : A) (s : editor)
| RThrow (e : value) (s : editor)
| RNoReturn
| RStuck.
Arguments ROk {A} a s.
Arguments RThrow {A} e s.
Arguments RNoReturn {A}.
Arguments RStuck {A}.

Definition M (A : Type) : Type := editor -> res A.

Definition ret {A} (a : A) : M A := fun s => ROk a s.

Definition mbind {A B} (m : M A) (k : A -> M B) : M B :=
  fun s => match m s with
           | ROk a s' => k a s'
           | RThrow e s' => RThrow e s'
           | RNoReturn => RNoReturn
           | RStuck => RStuck
           end.

Notation "x <- m ;; k" := (mbind m (fun x => k))
  (at level 61, m at next level, right associativity).
Notation "m ;;; k" := (mbind m (fun _ => k))
  (at level 61, right associativity).

Definition get : M editor := fun s => ROk s s.
Definition put (s : editor) : M unit := fun _ => ROk tt s.
Definition modify (f : editor -> editor) : M unit := fun s => ROk tt (f s).

(** Lift the outcome of code that leaves the editor alone. *)
Definition lift {A} (o : outcome A) : M A :=
  fun s => match o with
           | Ok a => ROk a s
           | Throw e => RThrow e s
           | NoReturn => RNoReturn
           | Stuck => RStuck
           end.

(** ** Propagation: [processNodeData] *)

Definition processor : Type := editor -> string -> nodeData -> outcome nodeDom.

(** The engine's call stack is finite: a recursion deeper than [fuel]
    calls raises a RangeError, as a JavaScript engine does on stack
    overflow. *)
Definition stack_overflow : value :=
  error_object "RangeError" "Maximum call stack size exceeded".

(** [this.connections.forEach(c => { if (c.from.node === nodeId)
    this.processNodeData(c.to.node); })]; the result collects, in call
    order, the ids of the nodes that [processNodeData] found in the node
    table. *)
Fixpoint forEach_conn (rec : string -> M (list string)) (nodeId : string)
    (cs : list conn) (acc : list string) : M (list string) :=
  match cs with
  | [] => ret acc
  | c :: cs' =>
      if String.eqb (from_node c) nodeId then
        tr <- rec (to_node c) ;; forEach_conn rec nodeId cs' (acc ++ tr)
      else forEach_conn rec nodeId cs' acc
  end.

Section Engine.

Variable nodeProcessors : string -> option processor.

Definition run_processor (nodeId : string) (nd : nodeData) : M unit :=
  match nodeProcessors (type_ nd) with
  | Some p =>
      ed <- get ;;
      d <- lift (p ed nodeId nd) ;;
      modify (set_dom nodeId d)
  | None => ret tt
  end.

Fixpoint processNodeData (fuel : nat) (nodeId : string) : M (list string) :=
  match fuel with
  | O => fun s => RThrow stack_overflow s
  | S f =>
      ed <- get ;;
      match assoc nodeId (nodes ed) with
      | None => ret []
      | Some nd =>
          run_processor nodeId nd ;;;
          ed1 <- get ;;
          forEach_conn (processNodeData f) nodeId (connections ed1) [nodeId]
      end
  end.

End Engine.

(** ** Graph shape seen by the engine *)

Definition is_node (ed : editor) (x : string) : bool :=
  existsb (String.eqb x) (map fst (nodes ed)).

(** One step of [processNodeData]'s recursion: [x] is in the node table
    and a connection leaves it towards [y]. *)
Definition edge (ed : editor) (x y : string) : Prop :=
  is_node ed x = true /\
  exists c, In c (connections ed) /\ from_node c = x /\ to_node c = y.

Definition reachable (ed : editor) : string -> string -> Prop :=
  clos_refl_trans string (edge ed).

(** No directed cycle: no node reaches itself in one or more steps. *)
Definition acyclic (ed : editor) : Prop :=
  forall x, ~ clos_trans string (edge ed) x x.

Definition skeleton (ed : editor) : list string * list conn :=
  (map fst (nodes ed), connections ed).

(** A walk along connections, as a list of the connections taken. *)
Fixpoint walk (ed : editor) (x : string) (cs : list conn) : Prop :=
  match cs with
  | [] => True
  | c :: cs' =>
      is_node ed x = true /\ In c (connections ed) /\ from_node c = x /\
      walk ed (to_node c) cs'
  end.

Fixpoint walk_end (x : string) (cs : list conn) : string :=
  match cs with
  | [] => x
  | c :: cs' => walk_end (to_node c) cs'
  end.

(** Every processor of the registry returns normally (the processor
    contract of the spec: processors never raise). *)
Definition processors_return (nodeProcessors : string -> option processor) : Prop :=
  forall t p, nodeProcessors t = Some p ->
  forall ed nodeId nd, exists d, p ed nodeId nd = Ok d.

(** A computation that leaves the node ids and the connection list alone,
    whether it returns or throws. *)
Definition keeps_skeleton {A} (m : M A) : Prop :=
  forall s, match m s with
            | ROk _ s' => skeleton s' = skeleton s
            | RThrow _ s' => skeleton s' = skeleton s
            | _ => True
            end.

(** A computation that leaves the observation [obs] of the editor alone,
    whether it returns or throws. *)
Definition keeps {X A} (obs : editor -> X) (m : M A) : Prop :=
  forall s, match m s with
            | ROk _ s' => obs s' = obs s
            | RThrow _ s' => obs s' = obs s
            | _ => True
            end.

(** ** Strings and numbers

    A JavaScript string is modelled as a string of its UTF-16 code units,
    each one here in the range 0-255 (Latin-1, one [ascii] each); all text
    in the inputs below is ASCII. *)

Definition digit_char (d : Z) : ascii := ascii_of_nat (48 + Z.to_nat d).

Fixpoint pos_digits (fuel : nat) (z : Z) (acc : string) : string :=
  match fuel with
  | O => acc
  | S f =>
      let acc' := String (digit_char (z mod 10)) acc in
      if (z <? 10)%Z then acc' else pos_digits f (z / 10) acc'
  end.

(** [String(n)] for an integer [n] (a number has at most as many decimal
    digits as bits). *)
Definition Z_to_string (z : Z) : string :=
  let a := Z.abs z in
  let ds := pos_digits (S (Z.to_nat (Z.log2 a))) a "" in
  if (z <? 0)%Z then String "-" ds else ds.

Definition nat_to_string (n : nat) : string := Z_to_string (Z.of_nat n).

(** [String(v)] / template-literal interpolation.  Numbers print as integers
    when they are integral; the shortest-round-trip printing of other
    doubles is not modelled ([None]). *)
Fixpoint js_to_string (v : value) : option string :=
  match v with
  | VUndef => Some "undefined"
  | VNull => Some "null"
  | VBool b => Some (if b then "true" else "false")
  | VNum q =>
      let r := Qred q in
      if Pos.eqb (Qden r) 1 then Some (Z_to_string (Qnum r)) else None
  | VStr s => Some s
  | VArr l =>
      (* Array.prototype.join(","): null and undefined print as "" *)
      (fix go (l : list value) : option string :=
         match l with
         | [] => Some ""
         | x :: r =>
             let sx := match x with
                       | VUndef | VNull => Some ""
                       | _ => js_to_string x
                       end in
             match sx, r with
             | Some a, [] => Some a
             | Some a, _ => match go r with
                            | Some b => Some (String.append a (String.append "," b))
                            | None => None
                            end
             | None, _ => None
             end
         end) l
  | VObj _ => Some "[object Object]"
  end.

(** A character of a string is one UTF-16 code unit, here one in the
    range 0-255 (Latin-1).  The white space that [String.prototype.trim],
    [parseInt] and [parseFloat] skip is, in that range, the code units
    9-13, 32 and 160 (the no-break space). *)
Definition is_ws (c : ascii) : bool :=
  match nat_of_ascii c with
  | 9 | 10 | 11 | 12 | 13 | 32 | 160 => true
  | _ => false
  end.

Fixpoint trim_start (s : string) : string :=
  match s with
  | EmptyString => EmptyString
  | String c r => if is_ws c then trim_start r else s
  end.

Definition rev_string (s : string) : string :=
  string_of_list_ascii (rev (list_ascii_of_string s)).

(** [String.prototype.trim] *)
Definition js_trim (s : string) : string :=
  rev_string (trim_start (rev_string (trim_start s))).

Definition digit_val (c : ascii) : option Z :=
  let n := nat_of_ascii c in
  if Nat.leb 48 n && Nat.leb n 57 then Some (Z.of_nat (n - 48)) else None.

Definition hex_val (c : ascii) : option Z :=
  let n := nat_of_ascii c in
  if Nat.leb 48 n && Nat.leb n 57 then Some (Z.of_nat (n - 48))
  else if Nat.leb 97 n && Nat.leb n 102 then Some (Z.of_nat (n - 87))
  else if Nat.leb 65 n && Nat.leb n 70 then Some (Z.of_nat (n - 55))
  else None.

(** The longest prefix of digits in the given radix: its value and the
    number of digits read. *)
Fixpoint read_digits (dv : ascii -> option Z) (radix : Z) (s : string)
    (acc : Z) (n : nat) : Z * nat * string :=
  match s with
  | String c r =>
      match dv c with
      | Some d => read_digits dv radix r (acc * radix + d) (S n)
      | None => (acc, n, s)
      end
  | EmptyString => (acc, n, s)
  end.

Definition read_sign (s : string) : Z * string :=
  match s with
  | String "-" r => (-1, r)%Z
  | String "+" r => (1, r)%Z
  | _ => (1, s)%Z
  end.

(** [parseInt(s)] with no radix; [None] is NaN. *)
Definition js_parseInt (s : string) : option Z :=
  let '(sg, r) := read_sign (trim_start s) in
  let '(v, n, _) :=
    match r with
    | String "0" (String x r') =>
        if (Ascii.eqb x "x" || Ascii.eqb x "X")%bool
        then read_digits hex_val 16 r' 0 0
        else read_digits digit_val 10 r 0 0
    | _ => read_digits digit_val 10 r 0 0
    end in
  if (n =? 0)%nat then None else Some (sg * v)%Z.

Definition parseInt_value (v : value) : option Z :=
  match js_to_string v with Some s => js_parseInt s | None => None end.

(** [parseFloat(s)]: [Ok None] is NaN; an [Infinity] literal has no
    rational value and is outside the embedding. *)
Definition js_parseFloat (s : string) : outcome (option Q) :=
  let '(sg, r) := read_sign (trim_start s) in
  if String.prefix "Infinity" r then Stuck else
  let '(ip, ni, r1) := read_digits digit_val 10 r 0 0 in
  let '(fp, nf, r2) :=
    match r1 with
    | String "." r1' => read_digits digit_val 10 r1' 0 0
    | _ => (0%Z, 0%nat, r1)
    end in
  if ((ni =? 0) && (nf =? 0))%nat then Ok None else
  let mant := (inject_Z (sg * ip) + inject_Z sg * (inject_Z fp / inject_Z (10 ^ Z.of_nat nf)))%Q in
  let ex :=
    match r2 with
    | String c r3 =>
        if (Ascii.eqb c "e" || Ascii.eqb c "E")%bool then
          let '(esg, r4) := read_sign r3 in
          let '(ev, ne, _) := read_digits digit_val 10 r4 0 0 in
          if (ne =? 0)%nat then 0%Z else (esg * ev)%Z
        else 0%Z
    | EmptyString => 0%Z
    end in
  Ok (Some (mant * Qpower 10 ex)%Q).

Definition parseFloat_value (v : value) : outcome (option Q) :=
  match js_to_string v with Some s => js_parseFloat s | None => Stuck end.

(** ** Property order and JSON

    A JavaScript object lists its integer-like keys ("array indices") first,
    in ascending numeric order, then its other keys in insertion order. *)

Definition is_digit (c : ascii) : bool :=
  match digit_val c with Some _ => true | None => false end.

Definition array_index (k : string) : option Z :=
  match k with
  | String "0" EmptyString => Some 0%Z
  | String c _ =>
      if negb (Ascii.eqb c "0") && forallb is_digit (list_ascii_of_string k) then
        let '(v, _, _) := read_digits digit_val 10 k 0 0 in
        if (v <? 4294967295)%Z then Some v else None
      else None
  | EmptyString => None
  end.

Fixpoint insert_by_index {A} (k : string) (i : Z) (a : A)
    (l : list (string * A)) : list (string * A) :=
  match l with
  | [] => [(k, a)]
  | (k', a') :: r =>
      match array_index k' with
      | Some i' => if (i <? i')%Z then (k, a) :: l else (k', a') :: insert_by_index k i a r
      | None => (k, a) :: l
      end
  end.

Fixpoint ordered_fields {A} (fs : list (string * A)) : list (string * A) :=
  match fs with
  | [] => []
  | (k, a) :: r =>
      let r' := ordered_fields r in
      match array_index k with
      | Some i => insert_by_index k i a r'
      | None =>
          (* keep the non-index key in front of the later non-index keys *)
          let idx := filter (fun p => match array_index (fst p) with Some _ => true | None => false end) r' in
          let rest := filter (fun p => match array_index (fst p) with Some _ => false | None => true end) r' in
          idx ++ (k, a) :: rest
      end
  end.

(** [JSON.parse(JSON.stringify(v))] on the values the editor stores:
    [undefined] properties are dropped, [undefined] array elements become
    [null]. *)
Fixpoint json_norm (v : value) : value :=
  match v with
  | VArr l => VArr (map (fun x => match x with VUndef => VNull | _ => json_norm x end) l)
  | VObj fs =>
      VObj (ordered_fields
              ((fix go (fs : list (string * value)) : list (string * value) :=
                  match fs with
                  | [] => []
                  | (k, VUndef) :: r => go r
                  | (k, x) :: r => (k, json_norm x) :: go r
                  end) fs))
  | _ => v
  end.

(** Equality of the [JSON.stringify] texts of two normalised values. *)
Fixpoint value_eqb (a b : value) : bool :=
  match a, b with
  | VUndef, VUndef | VNull, VNull => true
  | VBool x, VBool y => Bool.eqb x y
  | VNum x, VNum y => Qeq_bool x y
  | VStr x, VStr y => String.eqb x y
  | VArr l1, VArr l2 =>
      (fix go (l1 l2 : list value) : bool :=
         match l1, l2 with
         | [], [] => true
         | x :: r1, y :: r2 => value_eqb x y && go r1 r2
         | _, _ => false
         end) l1 l2
  | VObj f1, VObj f2 =>
      (fix go (f1 f2 : list (string * value)) : bool :=
         match f1, f2 with
         | [], [] => true
         | (k1, x) :: r1, (k2, y) :: r2 => String.eqb k1 k2 && value_eqb x y && go r1 r2
         | _, _ => false
         end) f1 f2
  | _, _ => false
  end.

(** ** [serialize] *)

Definition control_value (c : control) : value :=
  match c with
  | FText s => VStr s
  | FCheck b => VBool b
  end.

Definition conn_to_value (c : conn) : value :=
  VObj [("from", VObj [("node", VStr (from_node c)); ("socket", VStr (from_socket c))]);
        ("to", VObj [("node", VStr (to_node c)); ("socket", VStr (to_socket c))])].

Definition serialize_node (p : string * nodeData) : value :=
  let '(nodeId, nd) := p in
  VObj [("id", VStr nodeId);
        ("type", VStr (type_ nd));
        ("x", VNum (inject_Z (left nd)));
        ("y", VNum (inject_Z (top nd)));
        ("width", VStr (width nd));
        ("height", VStr (height nd));
        ("content", VObj (fold_left (fun acc kc => assoc_set (fst kc) (control_value (snd kc)) acc)
                                    (controls (dom nd)) []));
        ("properties", properties nd);
        ("codeBlockProperties", codeBlockProperties nd);
        ("parentId", parentId nd);
        ("children", children nd)].

(** [serialize()]: the object handed to [JSON.stringify], as it reads back
    through [JSON.parse]. *)
Definition serialize (ed : editor) : value :=
  json_norm (VObj [("nodes", VArr (map serialize_node (nodes ed)));
                   ("connections", VArr (map conn_to_value (connections ed)));
                   ("canvasOffset", canvasOffset ed);
                   ("scale", scale ed);
                   ("nodeCounter", VNum (inject_Z (nodeCounter ed)))]).

(** ** History: [recordState], [undo], [redo] *)

Definition last_opt {A} (l : list A) : option A :=
  match rev l with [] => None | a :: _ => Some a end.

(** The body of [recordState] once [this.serialize()] has produced [state]. *)
Definition record_snapshot (state : value) (h : history) : history :=
  let u := undoStack h in
  match last_opt u with
  | Some top => if value_eqb top state then h else
      let u1 := u ++ [state] in
      mkHistory (if Nat.ltb maxHistory (length u1) then tl u1 else u1) [] (isRestoring h)
  | None =>
      let u1 := u ++ [state] in
      mkHistory (if Nat.ltb maxHistory (length u1) then tl u1 else u1) [] (isRestoring h)
  end.

Definition recordState : M unit :=
  fun ed =>
    if isRestoring (hist ed) then ROk tt ed
    else ROk tt (with_hist ed (record_snapshot (serialize ed) (hist ed))).

(** The history after [recordState] has been called on each graph of
    [graphs] in turn, the history being carried from one call to the next. *)
Definition record_all (graphs : list editor) (h : history) : history :=
  fold_left (fun h g => match recordState (with_hist g h) with
                        | ROk _ ed' => hist ed'
                        | _ => h
                        end) graphs h.

(** Each state differs from the one recorded just before it. *)
Fixpoint fresh_chain (top : option value) (states : list value) : bool :=
  match states with
  | [] => true
  | s :: r =>
      match top with Some t => negb (value_eqb t s) | None => true end && fresh_chain (Some s) r
  end.

(** The last [n] entries of a list. *)
Definition lastn {A} (n : nat) (l : list A) : list A := skipn (length l - n) l.

(** ** [createNode] *)

(** Text the HTML parser reads back unchanged from a template
    interpolation: without character references, tags or carriage
    returns; a textarea also drops a leading newline, and an attribute
    value ends at a double quote and the value of a text [<input>] drops
    line feeds.  Other text is outside the embedding. *)
Definition html_plain (s : string) : bool :=
  forallb (fun c => negb (Ascii.eqb c "&" || Ascii.eqb c "<" || Ascii.eqb c (ascii_of_nat 13)))
          (list_ascii_of_string s).

Definition textarea_text (v : value) : outcome string :=
  match js_to_string v with
  | Some s =>
      let leading_nl := match s with String c _ => Ascii.eqb c (ascii_of_nat 10) | _ => false end in
      if html_plain s && negb leading_nl then Ok s else Stuck
  | None => Stuck
  end.

Definition attr_text (v : value) : outcome string :=
  match js_to_string v with
  | Some s =>
      if html_plain s &&
         negb (existsb (fun c => Ascii.eqb c (ascii_of_nat 34) || Ascii.eqb c (ascii_of_nat 10))
                       (list_ascii_of_string s))
      then Ok s else Stuck
  | None => Stuck
  end.

(** A [<select>] whose [<option>]s carry [selected] when [v === value]: the
    selected option's value, or the first option's. *)
Definition select_value (opts : list string) (v : value) : string :=
  match v with
  | VStr s => if existsb (String.eqb s) opts then s else hd "" opts
  | _ => hd "" opts
  end.

Definition layout_types : list string :=
  ["container"; "column"; "grid"; "flex"; "tabs"; "accordion"; "card"; "sidebar"; "header_footer"].

(** Names an object inherits from [Object.prototype]. *)
Definition proto_names : list string :=
  ["constructor"; "hasOwnProperty"; "isPrototypeOf"; "propertyIsEnumerable";
   "toLocaleString"; "toString"; "valueOf"; "__proto__"; "__defineGetter__";
   "__defineSetter__"; "__lookupGetter__"; "__lookupSetter__"].

(** Node types whose creators are not embedded here. *)
Definition unembedded_creators : list string :=
  ["find_replace"; "transform"; "spell_check"; "translation"; "summarization";
   "sentiment_analysis"; "auto_format"; "template"; "macro"; "ocr"; "tts"; "email";
   "pdf"; "html_render"; "qr_code"; "social_share"; "screenshot"; "print"].

(** The [data-param] / [data-output] controls produced by the
    [nodeCreators] entry for [type] (the [create...NodeContent] templates),
    in document order, and the initial [.node-status] text. *)
Definition node_template (type : string) (options : list (string * value))
    : outcome (list (string * control) * string) :=
  let opt k := field options k in
  if String.eqb type "text" then
    s <-- textarea_text (js_or (opt "text") (VStr "")) ;;; Ok ([("text_out", FText s)], "")
  else if String.eqb type "import" then
    s <-- textarea_text (js_or (js_or (opt "data_out") (opt "text")) (VStr "")) ;;;
    Ok ([("data_out", FText s)], "")
  else if String.eqb type "json" then
    Ok ([("operation", FText (select_value ["parse"; "stringify"] (opt "operation")))], "")
  else if String.eqb type "xml" then
    Ok ([], "Note: XML parsing not yet implemented.")
  else if String.eqb type "split" then
    Ok ([], "Note: Split logic not yet implemented.")
  else if String.eqb type "filter" then
    s <-- textarea_text (js_or (opt "condition") (VStr "")) ;;; Ok ([("condition", FText s)], "")
  else if String.eqb type "merge" then
    s <-- attr_text (js_or (opt "key") (VStr "")) ;;; Ok ([("key", FText s)], "")
  else if String.eqb type "aggregate" then
    g <-- attr_text (js_or (opt "groupBy") (VStr "")) ;;;
    k <-- attr_text (js_or (opt "aggKey") (VStr "")) ;;;
    Ok ([("groupBy", FText g);
         ("aggFunc", FText (select_value ["sum"; "count"; "avg"] (opt "aggFunc")));
         ("aggKey", FText k)], "")
  else if existsb (String.eqb type) unembedded_creators then Stuck
  else if existsb (String.eqb type) proto_names then Stuck (* an inherited [nodeCreators] entry *)
  else (* export, csv, layout nodes, spacer, and types without a creator *)
    Ok ([], "").

Definition default_text_properties : value :=
  let c v := VObj [("color", VStr v)] in
  VObj [("fontSize", VNum 12); ("color", VStr "#abb2bf");
        ("h1", VObj [("color", VStr "#61afef"); ("fontSize", VNum 32)]);
        ("h2", VObj [("color", VStr "#61afef"); ("fontSize", VNum 24)]);
        ("h3", VObj [("color", VStr "#61afef"); ("fontSize", VNum 20)]);
        ("h4", VObj [("color", VStr "#61afef"); ("fontSize", VNum 16)]);
        ("h5", VObj [("color", VStr "#61afef"); ("fontSize", VNum 14)]);
        ("h6", VObj [("color", VStr "#61afef"); ("fontSize", VNum 12)]);
        ("strong", c "#abb2bf"); ("em", c "#abb2bf");
        ("blockquote", VObj [("color", VStr "#5c6370"); ("borderColor", VStr "#61afef")]);
        ("a", c "#61afef");
        ("code", VObj [("color", VStr "#abb2bf"); ("backgroundColor", VStr "#3a3a3a")]);
        ("hr", c "#5c6370");
        ("ul", c "#abb2bf"); ("ol", c "#abb2bf"); ("li", c "#abb2bf");
        ("table", VObj [("borderColor", VStr "#5c6370")]);
        ("th", VObj [("backgroundColor", VStr "#3a3a3a")])].

Definition default_codeBlockProperties : value :=
  VObj [("fontSize", VNum 12); ("syntaxTheme", VStr "dark")].

Fixpoint split_on (sep : ascii) (s : string) : list string :=
  match s with
  | EmptyString => [""]
  | String c r =>
      if Ascii.eqb c sep then "" :: split_on sep r
      else match split_on sep r with
           | w :: ws => String c w :: ws
           | [] => [String c ""]
           end
  end.

(** [style.left = x + 'px'] read back as [offsetLeft]; only integral
    numbers are embedded. *)
Definition css_px (v : value) : outcome Z :=
  match v with
  | VNum q => let r := Qred q in if Pos.eqb (Qden r) 1 then Ok (Qnum r) else Stuck
  | _ => Stuck
  end.

Definition css_size (v : value) : outcome string :=
  if truthy v then match v with VStr s => Ok s | _ => Stuck end else Ok "".

Definition createNode (type_v x y : value) (options : list (string * value)) : M unit :=
  ed <- get ;;
  type <- lift (match type_v with VStr t => Ok t | _ => Stuck end) ;;
  (* const nodeId = options.id || 'node_' + this.nodeCounter++; *)
  idc <- (let idv := field options "id" in
          if truthy idv then
            match idv with
            | VStr s => ret (s, nodeCounter ed)
            | _ => lift (Throw (type_error "nodeId.split is not a function"))
            end
          else ret (String.append "node_" (Z_to_string (nodeCounter ed)), (nodeCounter ed + 1)%Z)) ;;
  let '(nodeId, ctr) := idc in
  let ctr' := match nth_error (split_on "_" nodeId) 1 with
              | Some piece =>
                  match js_parseInt piece with
                  | Some n => if (ctr <=? n)%Z then (n + 1)%Z else ctr
                  | None => ctr
                  end
              | None => ctr
              end in
  l <- lift (css_px x) ;;
  t <- lift (css_px y) ;;
  w <- lift (css_size (field options "width")) ;;
  h <- lift (css_size (field options "height")) ;;
  tpl <- lift (node_template type options) ;;
  let is_text := String.eqb type "text" in
  let nd := mkNodeData type l t w h
              (if is_text then js_or (field options "properties") default_text_properties else VObj [])
              (if is_text then js_or (field options "codeBlockProperties") default_codeBlockProperties else VObj [])
              (js_or (field options "parentId") VNull)
              (js_or (field options "children") (VArr []))
              (mkNodeDom (fst tpl) [] (snd tpl)) in
  modify (fun ed => with_counter (with_nodes ed (assoc_set nodeId nd (nodes ed))) ctr') ;;;
  if truthy (field options "fromSerialization") then ret tt else recordState.

(** ** [deserialize], [undo], [redo], [completeConnection] *)

(** Deepest nesting of [processNodeData] calls before the engine's stack
    overflows (the exact depth is engine-specific). *)
Definition max_call_depth : nat := 1000.

Definition load_error_message : string :=
  "Error: Could not load the session file. It might be corrupted.".

Definition with_restoring (ed : editor) (b : bool) : editor :=
  with_hist ed (mkHistory (undoStack (hist ed)) (redoStack (hist ed)) b).

(** Own enumerable properties copied by an object spread [{...v}]. *)
Definition own_props (v : value) : list (string * value) :=
  match v with
  | VObj fs => fs
  | VArr l => combine (map nat_to_string (seq 0 (length l))) l
  | VStr s => combine (map nat_to_string (seq 0 (String.length s)))
                      (map (fun c => VStr (String c "")) (list_ascii_of_string s))
  | _ => []
  end.

Definition decode_endpoint (v : value) : option (string * string) :=
  match v with
  | VObj fs =>
      match field fs "node", field fs "socket" with
      | VStr n, VStr s => Some (n, s)
      | _, _ => None
      end
  | _ => None
  end.

(** The connection list read back from a session; lists of anything other
    than [{from:{node,socket}, to:{node,socket}}] records of strings are
    outside the embedding. *)
Definition decode_connections (v : value) : option (list conn) :=
  match v with
  | VArr l =>
      fold_right (fun x acc =>
        match acc, x with
        | Some cs, VObj fs =>
            match decode_endpoint (field fs "from"), decode_endpoint (field fs "to") with
            | Some (a, b), Some (c, d) => Some (mkConn a b c d :: cs)
            | _, _ => None
            end
        | _, _ => None
        end) (Some []) l
  | _ => None
  end.

Fixpoint forEach_M {A} (f : A -> M unit) (l : list A) : M unit :=
  match l with
  | [] => ret tt
  | x :: r => f x ;;; forEach_M f r
  end.

Section Loader.

Variable nodeProcessors : string -> option processor.

Definition load_node (nodeState : value) : M unit :=
  content <- lift (get_prop nodeState "content") ;;
  idv <- lift (get_prop nodeState "id") ;;
  wv <- lift (get_prop nodeState "width") ;;
  hv <- lift (get_prop nodeState "height") ;;
  pv <- lift (get_prop nodeState "properties") ;;
  cv <- lift (get_prop nodeState "codeBlockProperties") ;;
  parv <- lift (get_prop nodeState "parentId") ;;
  chv <- lift (get_prop nodeState "children") ;;
  let options :=
    fold_left (fun acc kv => assoc_set (fst kv) (snd kv) acc)
      [("id", idv); ("width", wv); ("height", hv); ("properties", pv);
       ("codeBlockProperties", cv); ("parentId", parv); ("children", chv);
       ("fromSerialization", VBool true)]
      (fold_left (fun acc kv => assoc_set (fst kv) (snd kv) acc) (own_props content) []) in
  tv <- lift (get_prop nodeState "type") ;;
  xv <- lift (get_prop nodeState "x") ;;
  yv <- lift (get_prop nodeState "y") ;;
  createNode tv xv yv options.

(** The [try] block of [deserialize]; [parsed] is the result of
    [JSON.parse(jsonString)], [None] when it throws. *)
Definition deserialize_body (parsed : option value) : M unit :=
  state <- lift (match parsed with
                 | Some v => Ok v
                 | None => Throw (error_object "SyntaxError" "Unexpected token in JSON")
                 end) ;;
  modify (fun ed => with_connections (with_nodes ed []) []) ;;;
  off <- lift (get_prop state "canvasOffset") ;;
  sc <- lift (get_prop state "scale") ;;
  ctrv <- lift (get_prop state "nodeCounter") ;;
  ctr <- lift (let c := js_or ctrv (VNum 0) in
               match c with
               | VNum q => let r := Qred q in if Pos.eqb (Qden r) 1 then Ok (Qnum r) else Stuck
               | _ => Stuck
               end) ;;
  modify (fun ed => with_view ed (js_or off (VObj [("x", VNum 0); ("y", VNum 0)]))
                                 (js_or sc (VNum 1)) ctr) ;;;
  ns <- lift (get_prop state "nodes") ;;
  (match ns with
   | VArr l => forEach_M load_node l
   | VUndef | VNull => lift (Throw (type_error "Cannot read properties of undefined (reading 'forEach')"))
   | _ => lift (Throw (type_error "state.nodes.forEach is not a function"))
   end) ;;;
  cv <- lift (get_prop state "connections") ;;
  cs <- lift (match decode_connections (js_or cv (VArr [])) with
              | Some cs => Ok cs
              | None => Stuck
              end) ;;
  modify (fun ed => with_connections ed cs) ;;;
  ed <- get ;;
  forEach_M (fun nodeId => _ <- processNodeData nodeProcessors max_call_depth nodeId ;; ret tt)
            (map fst (nodes ed)).

Definition deserialize (parsed : option value) : M unit :=
  fun ed =>
    match deserialize_body parsed (with_restoring ed true) with
    | ROk _ ed' => ROk tt (with_restoring ed' false)
    | RThrow _ ed' => ROk tt (with_restoring (with_alert ed' load_error_message) false)
    | RNoReturn => RNoReturn
    | RStuck => RStuck
    end.

Definition undo : M unit :=
  fun ed =>
    let u := undoStack (hist ed) in
    if Nat.leb (length u) 1 then ROk tt ed else
    match rev u with
    | currentState :: rest =>
        let u' := rev rest in
        let ed1 := with_hist ed (mkHistory u' (redoStack (hist ed) ++ [currentState])
                                           (isRestoring (hist ed))) in
        deserialize (last_opt u') ed1
    | [] => ROk tt ed
    end.

Definition redo : M unit :=
  fun ed =>
    match rev (redoStack (hist ed)) with
    | [] => ROk tt ed
    | nextState :: rest =>
        let ed1 := with_hist ed (mkHistory (undoStack (hist ed) ++ [nextState]) (rev rest)
                                           (isRestoring (hist ed))) in
        deserialize (Some nextState) ed1
    end.

(** [completeConnection(targetSocket)]: [connectionStart] is the pending
    drag's start (node, socket); the target socket is given by its node id,
    its [data-socket] name, and whether it has the [input] class. *)
Definition completeConnection (connectionStart : option (string * string))
    (targetIsInput : bool) (targetNodeId targetSocketName : string) : M unit :=
  match connectionStart with
  | None => ret tt
  | Some (startNode, startSocket) =>
      if negb targetIsInput then ret tt
      else if String.eqb startNode targetNodeId then ret tt
      else
        modify (fun ed =>
          with_connections ed
            (filter (fun c => negb (String.eqb (to_node c) targetNodeId &&
                                    String.eqb (to_socket c) targetSocketName))
                    (connections ed)
             ++ [mkConn startNode startSocket targetNodeId targetSocketName])) ;;;
        recordState ;;;
        _ <- processNodeData nodeProcessors max_call_depth targetNodeId ;;
        ret tt
  end.

End Loader.

(** ** Processors *)

(** [this.connections.find(c => c.to.node === nodeId && c.to.socket === socket)] *)
Definition find_input (ed : editor) (nodeId socket : string) : option conn :=
  find (fun c => String.eqb (to_node c) nodeId && String.eqb (to_socket c) socket)
       (connections ed).

(** [this.nodes.get(c.from.node).outputs[c.from.socket]]: a missing source
    node makes the property read throw. *)
Definition source_output (ed : editor) (c : conn) : outcome value :=
  match assoc (from_node c) (nodes ed) with
  | None => Throw (type_error "Cannot read properties of undefined (reading 'outputs')")
  | Some nd =>
      match assoc (from_socket c) (outputs (dom nd)) with
      | Some v => Ok v
      | None => if existsb (String.eqb (from_socket c)) proto_names then Stuck else Ok VUndef
      end
  end.

(** [element.querySelector(...).value] for the control named [k]. *)
Definition control_text (d : nodeDom) (k : string) : outcome string :=
  match assoc k (controls d) with
  | Some (FText s) => Ok s
  | Some (FCheck _) => Stuck
  | None => Throw (type_error "Cannot read properties of null (reading 'value')")
  end.

(** [textarea.value = v]: the value is converted to a string; carriage
    returns, which the setter normalises, are outside the embedding. *)
Definition textarea_set (v : value) : outcome string :=
  match js_to_string v with
  | Some s => if existsb (fun c => Ascii.eqb c (ascii_of_nat 13)) (list_ascii_of_string s)
              then Stuck else Ok s
  | None => Stuck
  end.

Definition set_output (d : nodeDom) (k : string) (v : value) : nodeDom :=
  mkNodeDom (controls d) (assoc_set k v (outputs d)) (status d).

Definition set_status (d : nodeDom) (msg : string) : nodeDom :=
  mkNodeDom (controls d) (outputs d) msg.

(** [querySelector('textarea')] finds the text node's [text_out] control;
    reading or assigning [value] on [null] throws. *)
Definition processTextNode : processor :=
  fun ed nodeId nd =>
    let d := dom nd in
    match find_input ed nodeId "text_in" with
    | Some inputConn =>
        v <-- source_output ed inputConn ;;;
        let inputText := js_or v (VStr "") in
        match assoc "text_out" (controls d) with
        | Some (FText _) =>
            s <-- textarea_set inputText ;;;
            Ok (mkNodeDom (assoc_set "text_out" (FText s) (controls d))
                          (assoc_set "text_out" inputText (outputs d)) (status d))
        | Some (FCheck _) => Stuck
        | None => Throw (type_error "Cannot set properties of null (setting 'value')")
        end
    | None =>
        textarea <-- control_text d "text_out" ;;;
        Ok (set_output d "text_out" (VStr textarea))
    end.

(** The JavaScript engine behind [new Function('row', body)]:
    [fn_compile body] is the error object thrown when [body] does not
    parse ([None] when it does), and [fn_call body row] the completion of a
    call of the compiled function on [row]: a value, a thrown value, or no
    completion when the body runs forever. *)
Record js_engine : Type := mkEngine {
  fn_compile : string -> option value;
  fn_call : string -> value -> outcome value
}.

(** [inputData.filter(filterFunc)] *)
Fixpoint filter_rows (f : value -> outcome value) (rows : list value)
    : outcome (list value) :=
  match rows with
  | [] => Ok []
  | row :: rest =>
      b <-- f row ;;;
      kept <-- filter_rows f rest ;;;
      Ok (if truthy b then row :: kept else kept)
  end.

Definition processFilterNode (eng : js_engine) : processor :=
  fun ed nodeId nd =>
    let d := dom nd in
    match find_input ed nodeId "data_in" with
    | Some inputConn =>
        inputData <-- source_output ed inputConn ;;;
        condition <-- control_text d "condition" ;;;
        match inputData with
        | VArr rows =>
            if String.eqb condition "" then
              Ok (set_status (set_output d "data_out" inputData) "")
            else
              let body := String.append "return " condition in
              let catch e :=
                m <-- get_prop e "message" ;;;
                match js_to_string m with
                | Some msg => Ok (set_status (set_output d "data_out" (VArr [])) (String.append "Error: " msg))
                | None => Stuck
                end in
              match fn_compile eng body with
              | Some e => catch e
              | None =>
                  match filter_rows (fn_call eng body) rows with
                  | Ok kept =>
                      Ok (set_status (set_output d "data_out" (VArr kept))
                            ("Filtered " ++ nat_to_string (length rows) ++ " rows to " ++
                             nat_to_string (length kept) ++ "."))
                  | Throw e => catch e
                  | NoReturn => NoReturn
                  | Stuck => Stuck
                  end
              end
        | _ => Ok (set_status (set_output d "data_out" (VArr [])) "Error: Input is not an array.")
        end
    | None => Ok (set_status (set_output d "data_out" (VArr [])) "No input connected.")
    end.

(** The result of a property read [item[k]] used as a [Map] key or a group
    key: a value, or the function (or, for [__proto__], the object) that a
    plain object inherits under that name. *)
Inductive mkey : Type :=
| KVal (v : value)
| KBuiltin (name : string).

(** [item[k]] on a row; properties of primitives and arrays are outside
    the embedding. *)
Definition read_key (item : value) (k : string) : outcome mkey :=
  match item with
  | VUndef | VNull => Throw (type_error ("Cannot read properties of null or undefined (reading '" ++ k ++ "')"))
  | VObj fs =>
      match assoc k fs with
      | Some v => Ok (KVal v)
      | None => Ok (if existsb (String.eqb k) proto_names then KBuiltin k else KVal VUndef)
      end
  | _ => Stuck
  end.

(** SameValueZero, the key equality of [Map]; the identity of two
    objects is outside the embedding. *)
Definition same_value_zero (a b : mkey) : outcome bool :=
  match a, b with
  | KBuiltin x, KBuiltin y => Ok (String.eqb x y)
  | KVal (VArr _ | VObj _), KVal (VArr _ | VObj _) => Stuck
  | KVal VUndef, KVal VUndef | KVal VNull, KVal VNull => Ok true
  | KVal (VBool x), KVal (VBool y) => Ok (Bool.eqb x y)
  | KVal (VNum x), KVal (VNum y) => Ok (Qeq_bool x y)
  | KVal (VStr x), KVal (VStr y) => Ok (String.eqb x y)
  | _, _ => Ok false
  end.

(** [map.set(k, v)]: an existing key keeps its entry and position. *)
Fixpoint map_set (k : mkey) (v : value) (m : list (mkey * value))
    : outcome (list (mkey * value)) :=
  match m with
  | [] => Ok [(k, v)]
  | (k', v') :: r =>
      b <-- same_value_zero k k' ;;;
      if b then Ok ((k', v) :: r)
      else r' <-- map_set k v r ;;; Ok ((k', v') :: r')
  end.

Fixpoint map_get (k : mkey) (m : list (mkey * value)) : outcome (option value) :=
  match m with
  | [] => Ok None
  | (k', v') :: r =>
      b <-- same_value_zero k k' ;;;
      if b then Ok (Some v') else map_get k r
  end.

(** [new Map(entries)] *)
Fixpoint map_of (entries : list (mkey * value)) (m : list (mkey * value))
    : outcome (list (mkey * value)) :=
  match entries with
  | [] => Ok m
  | (k, v) :: r => m' <-- map_set k v m ;;; map_of r m'
  end.

Fixpoint map_outcome {A B} (f : A -> outcome B) (l : list A) : outcome (list B) :=
  match l with
  | [] => Ok []
  | x :: r => y <-- f x ;;; ys <-- map_outcome f r ;;; Ok (y :: ys)
  end.

(** [{ ...a, ...b }] *)
Definition spread2 (a b : value) : value :=
  VObj (fold_left (fun acc kv => assoc_set (fst kv) (snd kv) acc) (own_props b)
          (fold_left (fun acc kv => assoc_set (fst kv) (snd kv) acc) (own_props a) [])).

Definition contains_char (c : ascii) (s : string) : bool :=
  existsb (Ascii.eqb c) (list_ascii_of_string s).

(** [key.includes('=') ? key.split('=').map(k => k.trim()) : [key.trim(), key.trim()]] *)
Definition join_keys (key : string) : string * string :=
  if contains_char "=" key then
    let ps := map js_trim (split_on "=" key) in
    (nth 0 ps "", nth 1 ps "")
  else (js_trim key, js_trim key).

Definition processMergeNode : processor :=
  fun ed nodeId nd =>
    let d := dom nd in
    key <-- control_text d "key" ;;;
    match find_input ed nodeId "data_in_1", find_input ed nodeId "data_in_2" with
    | Some conn1, Some conn2 =>
        if String.eqb key "" then
          Ok (set_status (set_output d "data_out" (VArr [])) "Join key is required.")
        else
          let '(leftKey, rightKey) := join_keys key in
          data1 <-- source_output ed conn1 ;;;
          data2 <-- source_output ed conn2 ;;;
          match data1, data2 with
          | VArr l1, VArr l2 =>
              entries <-- map_outcome (fun item => k <-- read_key item rightKey ;;; Ok (k, item)) l2 ;;;
              map2 <-- map_of entries [] ;;;
              out <-- map_outcome (fun item1 =>
                        k <-- read_key item1 leftKey ;;;
                        item2 <-- map_get k map2 ;;;
                        match item2 with
                        | Some item2 => Ok (if truthy item2 then spread2 item1 item2 else item1)
                        | None => Ok item1
                        end) l1 ;;;
              Ok (set_status (set_output d "data_out" (VArr out))
                    ("Merged " ++ nat_to_string (length l1) ++ " and " ++
                     nat_to_string (length l2) ++ " rows into " ++
                     nat_to_string (length out) ++ "."))
          | _, _ => Ok (set_status (set_output d "data_out" (VArr [])) "Inputs must be arrays.")
          end
    | _, _ => Ok (set_status (set_output d "data_out" (VArr [])) "Both inputs must be connected.")
    end.

(** [acc[key]] with [key] converted to a property name: the groups object
    inherits the names of [Object.prototype], whose values are truthy and
    have no [push] method. *)
Definition group_push (key : string) (row : value) (acc : list (string * list value))
    : outcome (list (string * list value)) :=
  match assoc key acc with
  | Some rows => Ok (assoc_set key (rows ++ [row]) acc)
  | None =>
      if existsb (String.eqb key) proto_names
      then Throw (type_error "acc[key].push is not a function")
      else Ok (assoc_set key [row] acc)
  end.

Fixpoint group_rows (groupBy : string) (rows : list value) (acc : list (string * list value))
    : outcome (list (string * list value)) :=
  match rows with
  | [] => Ok acc
  | row :: rest =>
      k <-- read_key row groupBy ;;;
      key <-- (match k with
               | KVal v => match js_to_string v with Some s => Ok s | None => Stuck end
               | KBuiltin _ => Stuck
               end) ;;;
      acc' <-- group_push key row acc ;;;
      group_rows groupBy rest acc'
  end.

(** [rows.reduce((sum, row) => sum + (parseFloat(row[aggKey]) || 0), 0)] *)
Fixpoint sum_rows (aggKey : string) (rows : list value) (sum : Q) : outcome Q :=
  match rows with
  | [] => Ok sum
  | row :: rest =>
      k <-- read_key row aggKey ;;;
      v <-- (match k with KVal v => Ok v | KBuiltin _ => Stuck end) ;;;
      p <-- parseFloat_value v ;;;
      let x := match p with Some q => q | None => 0%Q end in
      sum_rows aggKey rest (sum + x)%Q
  end.

Definition aggregate_value (aggFunc aggKey : string) (rows : list value) : outcome value :=
  if String.eqb aggFunc "count" then Ok (VNum (inject_Z (Z.of_nat (length rows))))
  else if String.eqb aggFunc "sum" then s <-- sum_rows aggKey rows 0 ;;; Ok (VNum s)
  else if String.eqb aggFunc "avg" then
    s <-- sum_rows aggKey rows 0 ;;;
    Ok (VNum (if Nat.ltb 0 (length rows) then (s / inject_Z (Z.of_nat (length rows)))%Q else 0%Q))
  else Ok VUndef.

Definition processAggregateNode : processor :=
  fun ed nodeId nd =>
    let d := dom nd in
    groupBy <-- control_text d "groupBy" ;;;
    aggFunc <-- control_text d "aggFunc" ;;;
    aggKey <-- control_text d "aggKey" ;;;
    match find_input ed nodeId "data_in" with
    | None => Ok (set_status (set_output d "data_out" (VArr [])) "No input connected.")
    | Some inputConn =>
        if String.eqb groupBy "" || String.eqb aggKey "" then
          Ok (set_status (set_output d "data_out" (VArr [])) "Group By and Of Key are required.")
        else
          inputData <-- source_output ed inputConn ;;;
          match inputData with
          | VArr rows =>
              groups <-- group_rows groupBy rows [] ;;;
              result <-- map_outcome (fun kg =>
                           value <-- aggregate_value aggFunc aggKey (snd kg) ;;;
                           Ok (VObj (assoc_set (aggFunc ++ "_of_" ++ aggKey) value
                                               [(groupBy, VStr (fst kg))])))
                         (ordered_fields groups) ;;;
              Ok (set_status (set_output d "data_out" (VArr result))
                    ("Aggregated " ++ nat_to_string (length rows) ++ " rows into " ++
                     nat_to_string (length result) ++ " groups."))
          | _ => Ok (set_status (set_output d "data_out" (VArr [])) "Input must be an array.")
          end
    end.

(** Registry keys whose processors are not embedded here. *)
Definition unembedded_processors : list string :=
  ["find_replace"; "import"; "export"; "csv"; "json"; "xml"; "transform"; "split";
   "spell_check"; "translation"; "summarization"; "sentiment_analysis"; "auto_format";
   "template"; "macro"; "ocr"; "tts"; "email"; "pdf"; "html_render"; "qr_code";
   "social_share"; "screenshot"; "print"].

(** [this.nodeProcessors] of the constructor. *)
Definition registry (eng : js_engine) (type : string) : option processor :=
  if String.eqb type "text" then Some processTextNode
  else if String.eqb type "filter" then Some (processFilterNode eng)
  else if String.eqb type "merge" then Some processMergeNode
  else if String.eqb type "aggregate" then Some processAggregateNode
  else if existsb (String.eqb type) unembedded_processors then Some (fun _ _ _ => Stuck)
  else if existsb (String.eqb type) proto_names then Some (fun _ _ _ => Stuck) (* inherited entry *)
  else None.

(** ** Concrete graphs *)

Definition empty_history : history := mkHistory [] [] false.

Definition empty_editor : editor :=
  mkEditor [] [] (VObj [("x", VNum 0); ("y", VNum 0)]) (VNum 1) 0 empty_history [].

Definition plain_node (type : string) (controls : list (string * control))
    (outputs : list (string * value)) : nodeData :=
  mkNodeData type 0 0 "" "" (VObj []) (VObj []) VNull (VArr []) (mkNodeDom controls outputs "").

(** Scenario B of the spec: a JSON node holding the rows, wired into an
    aggregate node. *)
Definition scenario_b_rows : list value :=
  [VObj [("cat", VStr "x"); ("v", VStr "1")];
   VObj [("cat", VStr "x"); ("v", VStr "2")];
   VObj [("cat", VStr "y"); ("v", VStr "5")]].

Definition scenario_b_editor : editor :=
  mkEditor
    [("node_0", plain_node "json" [("operation", FText "parse")] [("data_out", VArr scenario_b_rows)]);
     ("node_1", plain_node "aggregate"
                  [("groupBy", FText "cat"); ("aggFunc", FText "sum"); ("aggKey", FText "v")] [])]
    [mkConn "node_0" "data_out" "node_1" "data_in"]
    (VObj [("x", VNum 0); ("y", VNum 0)]) (VNum 1) 2 empty_history [].

Definition scenario_b_aggregate : nodeData :=
  plain_node "aggregate" [("groupBy", FText "cat"); ("aggFunc", FText "sum"); ("aggKey", FText "v")] [].

(** A JavaScript engine whose compiled conditions all return [true]. *)
Definition trivial_engine : js_engine :=
  mkEngine (fun _ => None) (fun _ _ => Ok (VBool true)).

(** A registry whose processors leave their node as it is. *)
Definition identity_processors (type : string) : option processor :=
  Some (fun _ _ nd => Ok (dom nd)).

(** Every connection leaving a node of the table climbs in [rank]. *)
Definition ranked (ed : editor) (rank : string -> nat) : bool :=
  forallb (fun c => negb (is_node ed (from_node c)) || Nat.ltb (rank (from_node c)) (rank (to_node c)))
          (connections ed).

(** Fifty-two graphs in a row, each serializing differently from the last. *)
Definition sample_graphs : list editor :=
  map (fun n => with_counter empty_editor (Z.of_nat n)) (seq 0 52).

(** A graph with one text node whose textarea holds "hi". *)
Definition text_node (s : string) : nodeData :=
  mkNodeData "text" 100 100 "" "" default_text_properties default_codeBlockProperties VNull (VArr [])
    (mkNodeDom [("text_out", FText s)] [("text_out", VStr s)] "").

Definition text_graph : editor :=
  mkEditor [("node_0", text_node "hi")] [] (VObj [("x", VNum 0); ("y", VNum 0)]) (VNum 1) 1
    empty_history [].

Definition node_controls (ed : editor) (nodeId : string) : option (list (string * control)) :=
  option_map (fun nd => controls (dom nd)) (assoc nodeId (nodes ed)).

(** Typing into a form control: the [input] listener of [setupNodeEvents]
    runs [processNodeData] on the node, and the debounced [recordState]
    follows. *)
Definition set_control (nodeId key : string) (c : control) (ed : editor) : editor :=
  match assoc nodeId (nodes ed) with
  | Some nd =>
      let d := dom nd in
      with_nodes ed (assoc_set nodeId (with_dom nd (mkNodeDom (assoc_set key c (controls d)) (outputs d) (status d)))
                               (nodes ed))
  | None => ed
  end.

Definition edit_control (nodeProcessors : string -> option processor)
    (nodeId key : string) (c : control) : M unit :=
  modify (set_control nodeId key c) ;;;
  _ <- processNodeData nodeProcessors max_call_depth nodeId ;;
  recordState.

(** The editor after its constructor: an empty graph, recorded once. *)
Definition initial_editor : editor :=
  with_hist empty_editor (record_snapshot (serialize empty_editor) empty_history).

(** Two recorded edits: create a text node, then type "hi" into it. *)
Definition two_edits : M unit :=
  createNode (VStr "text") (VNum 100) (VNum 100) [] ;;;
  edit_control (registry trivial_engine) "node_0" "text_out" (FText "hi").

(** A session file whose only connection joins two nodes it does not
    contain. *)
Definition dangling_session : value :=
  VObj [("nodes", VArr []);
        ("connections", VArr [conn_to_value (mkConn "ghost" "text_out" "node_9" "text_in")])].

(** A container node (a type with no processor) with a connection, as a
    session file can carry one, into a text node holding "abc". *)
Definition container_graph : editor :=
  mkEditor [("node_0", plain_node "container" [] []); ("node_1", text_node "abc")]
    [mkConn "node_0" "out" "node_1" "text_in"]
    (VObj [("x", VNum 0); ("y", VNum 0)]) (VNum 1) 2 empty_history [].

Definition node_outputs (ed : editor) (nodeId : string) : option (list (string * value)) :=
  option_map (fun nd => outputs (dom nd)) (assoc nodeId (nodes ed)).

(** [`${e.message}`] for a caught value [e], when that neither throws nor
    leaves the embedding. *)
Definition error_message (e : value) : option string :=
  match get_prop e "message" with
  | Ok m => js_to_string m
  | _ => None
  end.

(** A filter node fed one row by a JSON node. *)
Definition filter_graph (condition : string) : editor :=
  mkEditor
    [("node_0", plain_node "json" [("operation", FText "parse")] [("data_out", VArr [VObj [("a", VNum 1)]])]);
     ("node_1", plain_node "filter" [("condition", FText condition)] [])]
    [mkConn "node_0" "data_out" "node_1" "data_in"]
    (VObj [("x", VNum 0); ("y", VNum 0)]) (VNum 1) 2 empty_history [].

(** A condition whose evaluation never completes. *)
Definition looping_condition : string := "(() => { while (true) {} })()".

(** The engine's behaviour on the conditions used below: the looping
    condition runs forever on every row; [row.a >] does not parse. *)
Definition sample_engine : js_engine :=
  mkEngine
    (fun body => if String.eqb body "return row.a >"
                 then Some (error_object "SyntaxError" "Unexpected token '}'") else None)
    (fun body row => if String.eqb body (String.append "return " looping_condition)
                     then NoReturn else Ok (VBool true)).

(** ** The merge node, as the spec describes it

    These definitions follow the words of the spec (a left outer join:
    one record per left record, the last right record with an equal key
    merged into it, the right record's fields winning), to be compared
    with [processMergeNode]. *)

Fixpoint nodup_strings (l : list string) : bool :=
  match l with
  | [] => true
  | x :: r => negb (existsb (String.eqb x) r) && nodup_strings r
  end.

(** A record: an object with one value per key. *)
Definition plain_object (v : value) : bool :=
  match v with
  | VObj fs => nodup_strings (map fst fs)
  | _ => false
  end.

(** A record whose join key holds a primitive (or nothing). *)
Definition key_primitive (k : string) (v : value) : bool :=
  match v with
  | VObj fs => match assoc k fs with Some (VArr _ | VObj _) => false | _ => true end
  | _ => false
  end.

Definition obj_lookup (v : value) (k : string) : option value :=
  match v with
  | VObj fs => assoc k fs
  | _ => None
  end.

(** The join-key value of a record. *)
Definition spec_key (item : value) (k : string) : mkey :=
  match read_key item k with Ok key => key | _ => KVal VUndef end.

(** Key equality. *)
Definition sv0b (a b : mkey) : bool :=
  match same_value_zero a b with Ok b => b | _ => false end.

(** The last element of [l] satisfying [p]. *)
Fixpoint spec_last_match (p : value -> bool) (l : list value) : option value :=
  match l with
  | [] => None
  | r :: rest =>
      match spec_last_match p rest with
      | Some v => Some v
      | None => if p r then Some r else None
      end
  end.

(** The right record that the left record [x] is joined with. *)
Definition spec_match (leftKey rightKey : string) (x : value) (l2 : list value) : option value :=
  spec_last_match (fun r => sv0b (spec_key x leftKey) (spec_key r rightKey)) l2.

(** Keys whose comparison is embedded (no two objects compared). *)
Definition prim_key (k : mkey) : bool :=
  match k with
  | KVal (VArr _ | VObj _) => false
  | _ => true
  end.

(** Two JSON nodes feeding a merge node joined on [id]. *)
Definition merge_left : list value :=
  [VObj [("id", VNum 1); ("name", VStr "a")]; VObj [("id", VNum 2); ("name", VStr "b")]].

Definition merge_right : list value :=
  [VObj [("id", VNum 1); ("name", VStr "A"); ("score", VNum 10)]].

Definition merge_node : nodeData := plain_node "merge" [("key", FText "id")] [].

Definition merge_graph : editor :=
  mkEditor
    [("node_0", plain_node "json" [("operation", FText "parse")] [("data_out", VArr merge_left)]);
     ("node_1", plain_node "json" [("operation", FText "parse")] [("data_out", VArr merge_right)]);
     ("node_2", merge_node)]
    [mkConn "node_0" "data_out" "node_2" "data_in_1"; mkConn "node_1" "data_out" "node_2" "data_in_2"]
    (VObj [("x", VNum 0); ("y", VNum 0)]) (VNum 1) 3 empty_history [].

(** * More of the editor: listeners, processors, layout, highlighter *)

From Stdlib Require Import Permutation.

(** ** The history stacks *)

Definition stacks (ed : editor) : list value * list value :=
  (undoStack (hist ed), redoStack (hist ed)).

(** ** Deleting a connection

    The [contextmenu] listener of the connections layer
    ([initEventListeners]): [index] is
    [parseInt(target.dataset.connIndex, 10)], the position that
    [updateConnections] wrote on the clicked wire. *)

(** [const removedConn = this.connections.splice(index, 1)[0]] *)
Definition splice1 {A} (index : nat) (l : list A) : list A * option A :=
  (firstn index l ++ skipn (S index) l, nth_error l index).

Definition deleteConnection (nodeProcessors : string -> option processor) (index : nat) : M unit :=
  ed <- get ;;
  let '(rest, removedConn) := splice1 index (connections ed) in
  modify (fun ed => with_connections ed rest) ;;;
  recordState ;;;
  match removedConn with
  | Some c => _ <- processNodeData nodeProcessors max_call_depth (to_node c) ;; ret tt
  | None => ret tt
  end.

(** ** Node ids and the id counter *)

(** [parseInt(nodeId.split('_')[1])] of [createNode]; [None] is NaN
    (also for a missing second piece: [parseInt(undefined)]). *)
Definition id_number (nodeId : string) : option Z :=
  match nth_error (split_on "_" nodeId) 1 with
  | Some piece => js_parseInt piece
  | None => None
  end.

(** The id [createNode] generates next: ['node_' + this.nodeCounter]. *)
Definition next_auto_id (ed : editor) : string :=
  String.append "node_" (Z_to_string (nodeCounter ed)).

(** Every node id whose number part parses lies below the counter. *)
Definition ids_below_counter (ed : editor) : bool :=
  forallb (fun nodeId => match id_number nodeId with
                         | Some n => (n <? nodeCounter ed)%Z
                         | None => true
                         end) (map fst (nodes ed)).

(** ** Aggregate: the group of a row *)

(** [String(row[groupBy])], the property name under which [reduce] files
    the row. *)
Definition group_key (groupBy : string) (row : value) : option string :=
  match read_key row groupBy with
  | Ok (KVal v) => js_to_string v
  | _ => None
  end.

(** An ordered sub-list: [l1] keeps some elements of [l2], in order. *)
Inductive sublist {A} : list A -> list A -> Prop :=
| sublist_nil : sublist [] []
| sublist_skip x l1 l2 : sublist l1 l2 -> sublist l1 (x :: l2)
| sublist_keep x l1 l2 : sublist l1 l2 -> sublist (x :: l1) (x :: l2).

(** ** CSV parser node *)

(** [row[header] = values[i]] for every header in turn; assigning a
    string or [undefined] to [__proto__] changes nothing. *)
Fixpoint csv_fill (headers : list string) (values : list string) (i : nat)
    (row : list (string * value)) : list (string * value) :=
  match headers with
  | [] => row
  | header :: rest =>
      let v := match nth_error values i with Some s => VStr s | None => VUndef end in
      csv_fill rest values (S i)
        (if String.eqb header "__proto__" then row else assoc_set header v row)
  end.

(** [csvText.trim().split('\n')] and the rows built from it. *)
Definition csv_lines (csvText : string) : list string :=
  split_on (ascii_of_nat 10) (js_trim csvText).

Definition csv_rows (csvText : string) : list value :=
  match csv_lines csvText with
  | header :: ((_ :: _) as rest) =>
      let headers := map js_trim (split_on "," header) in
      map (fun line => VObj (csv_fill headers (map js_trim (split_on "," line)) 0 [])) rest
  | _ => []
  end.

Definition processCsvNode : processor :=
  fun ed nodeId nd =>
    let d := dom nd in
    match find_input ed nodeId "csv_in" with
    | Some inputConn =>
        v <-- source_output ed inputConn ;;;
        csvText <-- (match js_or v (VStr "") with
                     | VStr s => Ok s
                     | _ => Throw (type_error "csvText.trim is not a function")
                     end) ;;;
        Ok (set_output d "data_out" (VArr (csv_rows csvText)))
    | None => Ok (set_output d "data_out" (VArr []))
    end.

(** ** Find & Replace node

    With the [regex] box unchecked the pattern is [findText] with every
    regular-expression syntax character escaped, so the [RegExp] matches
    [findText] literally; with the [i] flag two characters match when
    their canonical forms are equal.  A pattern typed with the [regex] box
    checked needs a regular-expression engine, which is not embedded
    ([Stuck]). *)

(** [Canonicalize(ch)] of a [RegExp] with the [i] flag and without [u]:
    [ch.toUpperCase()] when that is a single code unit, and [ch] when it
    is not or when it would map a non-ASCII character to ASCII.  On the
    code units 0-255: [a-z] and [U+00E0-U+00FE] except [U+00F7] go to the
    code unit 32 below, [U+00B5] to [U+039C], [U+00FF] to [U+0178]; [U+00DF]
    (upper case "SS") and all others stay. *)
Definition js_canonicalize (c : ascii) : N :=
  let n := N_of_ascii c in
  if (97 <=? n)%N && (n <=? 122)%N then (n - 32)%N
  else if (n =? 181)%N then 924%N
  else if (224 <=? n)%N && (n <=? 254)%N && negb (n =? 247)%N then (n - 32)%N
  else if (n =? 255)%N then 376%N
  else n.

(** The code unit compared: the character itself when the search is
    case-sensitive, its canonical form otherwise. *)
Definition canon (caseSensitive : bool) (c : ascii) : N :=
  if caseSensitive then N_of_ascii c else js_canonicalize c.

(** The pattern matches at the head of [s]. *)
Fixpoint lit_prefix (cs : bool) (p s : list ascii) : bool :=
  match p, s with
  | [], _ => true
  | a :: p', b :: s' => N.eqb (canon cs a) (canon cs b) && lit_prefix cs p' s'
  | _ :: _, [] => false
  end.

(** The start positions of the matches that successive [exec] calls of
    the global pattern find, each search starting at the end of the
    previous match ([lastIndex]); [skip] counts the characters of the
    current match still to pass. *)
Fixpoint lit_scan (cs : bool) (p s : list ascii) (pos skip : nat) : list nat :=
  match s with
  | [] => []
  | _ :: s' =>
      match skip with
      | S k => lit_scan cs p s' (S pos) k
      | O => if lit_prefix cs p s
             then pos :: lit_scan cs p s' (S pos) (length p - 1)
             else lit_scan cs p s' (S pos) 0
      end
  end.

(** [GetSubstitution] with no capture groups: [$$], [$&], [$`] and [$']
    are replaced, any other [$] stays. *)
Fixpoint get_substitution (tpl matched pre post : string) : string :=
  match tpl with
  | String "$" (String "$" r) => String "$" (get_substitution r matched pre post)
  | String "$" (String "&" r) => String.append matched (get_substitution r matched pre post)
  | String "$" (String "`" r) => String.append pre (get_substitution r matched pre post)
  | String "$" (String "'" r) => String.append post (get_substitution r matched pre post)
  | String c r => String c (get_substitution r matched pre post)
  | EmptyString => EmptyString
  end.

(** [RegExp.prototype[Symbol.replace]] once the matches are collected:
    the text between matches is copied, every match is replaced by the
    expanded template. *)
Fixpoint replace_matches (str tpl : string) (plen : nat) (positions : list nat) (next : nat) : string :=
  match positions with
  | [] => substring next (String.length str - next) str
  | pos :: rest =>
      String.append (substring next (pos - next) str)
        (String.append
           (get_substitution tpl (substring pos plen str) (substring 0 pos str)
              (substring (pos + plen) (String.length str - (pos + plen)) str))
           (replace_matches str tpl plen rest (pos + plen)))
  end.

(** Match positions as [lit_scan] returns them: increasing, the first at
    or after [next], none overlapping the one before, and each match of
    length [plen] inside a string of length [len]. *)
Fixpoint spaced (plen len next : nat) (ps : list nat) : Prop :=
  match ps with
  | [] => True
  | p :: r => (next <= p)%nat /\ (p + plen <= len)%nat /\ spaced plen len (p + plen) r
  end.

(** [el.checked] of the checkbox named [k]. *)
Definition control_check (d : nodeDom) (k : string) : outcome bool :=
  match assoc k (controls d) with
  | Some (FCheck b) => Ok b
  | Some (FText _) => Stuck
  | None => Throw (type_error "Cannot read properties of null (reading 'checked')")
  end.

Definition matches_status (matchCount : nat) : string :=
  if Nat.ltb 0 matchCount then
    String.append (nat_to_string matchCount)
      (String.append " match" (String.append (if Nat.eqb matchCount 1 then "" else "es") " found."))
  else "No matches found".

(** The [try] block of [processFindReplaceNode]: the output text and the
    status. *)
Definition find_replace_try (d : nodeDom) (inputText : value) (findText replaceText : string)
    : outcome (value * string) :=
  isRegex <-- control_check d "regex" ;;;
  isGlobal <-- control_check d "global" ;;;
  isCaseSensitive <-- control_check d "case_sensitive" ;;;
  if isRegex then Stuck else
  match inputText with
  | VStr s =>
      let p := list_ascii_of_string findText in
      let matches := lit_scan isCaseSensitive p (list_ascii_of_string s) 0 0 in
      let outputText := replace_matches s replaceText (length p)
                          (if isGlobal then matches else firstn 1 matches) 0 in
      Ok (VStr outputText, matches_status (length matches))
  | _ => Throw (type_error "inputText.matchAll is not a function")
  end.

(** The [data-matches] list of the regex tester is display only and not
    modelled. *)
Definition processFindReplaceNode : processor :=
  fun ed nodeId nd =>
    let d := dom nd in
    match find_input ed nodeId "input_text" with
    | None => Ok (set_status (set_output d "output_text" (VStr "")) "No input connected")
    | Some inputConnection =>
        v <-- source_output ed inputConnection ;;;
        let inputText := js_or v (VStr "") in
        findText <-- control_text d "find" ;;;
        replaceText <-- control_text d "replace" ;;;
        if String.eqb findText "" then
          Ok (set_status (set_output d "output_text" inputText) "Enter find pattern")
        else
          match find_replace_try d inputText findText replaceText with
          | Ok (outputText, st) => Ok (set_status (set_output d "output_text" outputText) st)
          | Throw e =>
              m <-- get_prop e "message" ;;;
              match js_to_string m with
              | Some msg => Ok (set_status (set_output d "output_text" inputText)
                                  (String.append "Regex error: " msg))
              | None => Stuck
              end
          | NoReturn => NoReturn
          | Stuck => Stuck
          end
    end.

(** ** Syntax highlighter: [customSyntaxHighlighter.tokenizeAndHighlight]

    [escapeHtml] is [div.textContent = text; div.innerHTML]: the
    serialisation of a text node escapes [&], [<], [>] and the no-break
    space (code unit 160). *)

Definition escape_char (c : ascii) : string :=
  if Ascii.eqb c "&" then "&amp;"
  else if Ascii.eqb c "<" then "&lt;"
  else if Ascii.eqb c ">" then "&gt;"
  else if Nat.eqb (nat_of_ascii c) 160 then "&nbsp;"
  else String c EmptyString.

Fixpoint escapeHtml (text : string) : string :=
  match text with
  | EmptyString => EmptyString
  | String c r => String.append (escape_char c) (escapeHtml r)
  end.

Record hl_match : Type := mkMatch {
  m_type : string;
  m_content : string;
  m_start : nat;
  m_end : nat
}.

(** [allMatches.sort((a, b) => a.start - b.start)]: [Array.prototype.sort]
    is stable, so matches with the same start keep their order. *)
Fixpoint insert_match (m : hl_match) (l : list hl_match) : list hl_match :=
  match l with
  | [] => [m]
  | x :: r => if Nat.ltb (m_start m) (m_start x) then m :: l else x :: insert_match m r
  end.

Definition sort_matches (l : list hl_match) : list hl_match :=
  fold_left (fun acc m => insert_match m acc) l [].

Definition dquote : string := String (ascii_of_nat 34) EmptyString.

Definition token_span (type content : string) : string :=
  String.append "<span class=" (String.append dquote (String.append "token-"
    (String.append type (String.append dquote (String.append ">"
      (String.append content "</span>")))))).

(** One step of [allMatches.forEach]: the result so far and [lastIndex]. *)
Definition hl_step (code : string) (st : string * nat) (m : hl_match) : string * nat :=
  let '(result, lastIndex) := st in
  if Nat.ltb (m_start m) lastIndex then st
  else
    let result1 := if Nat.ltb lastIndex (m_start m)
                   then String.append result (escapeHtml (substring lastIndex (m_start m - lastIndex) code))
                   else result in
    (String.append result1 (token_span (m_type m) (escapeHtml (m_content m))), m_end m).

(** [patterns] is the rule list of the language: each rule's type and
    the matches [code.matchAll(rule.pattern)] yields, as the index and
    the matched text [match[0]] (the regular expressions themselves are
    not embedded). *)
Definition tokenizeAndHighlight (patterns : list (string * (string -> list (nat * string))))
    (code : string) : string :=
  match patterns with
  | [] => escapeHtml code
  | _ =>
      let allMatches :=
        flat_map (fun rule => map (fun im => mkMatch (fst rule) (snd im) (fst im)
                                                     (fst im + String.length (snd im)))
                                  (snd rule code)) patterns in
      let '(result, lastIndex) := fold_left (hl_step code) (sort_matches allMatches) ("", 0) in
      if Nat.ltb lastIndex (String.length code)
      then String.append result (escapeHtml (substring lastIndex (String.length code - lastIndex) code))
      else result
  end.

(** The text a browser shows for markup made of tags and escaped text:
    everything from a [<] to the next [>] is a tag and dropped. *)
Fixpoint drop_tags (in_tag : bool) (s : string) : string :=
  match s with
  | EmptyString => EmptyString
  | String c r =>
      if in_tag then drop_tags (negb (Ascii.eqb c ">")) r
      else if Ascii.eqb c "<" then drop_tags true r
      else String c (drop_tags false r)
  end.

(** Whether [drop_tags] is inside a tag after reading [s]. *)
Fixpoint tag_state (in_tag : bool) (s : string) : bool :=
  match s with
  | EmptyString => in_tag
  | String c r =>
      if in_tag then tag_state (negb (Ascii.eqb c ">")) r
      else if Ascii.eqb c "<" then tag_state true r
      else tag_state false r
  end.

(** ** Layout: [updateLayout] and [layoutColumn]

    [offsetHeight] is the rendered height of a node's element (a layout
    read, a parameter here); setting [style.left] / [style.top] moves the
    node's [offsetLeft] / [offsetTop]. *)

(** [nodeData.isContainer], set by [createNode] for the layout types. *)
Definition isContainer (nd : nodeData) : bool :=
  existsb (String.eqb (type_ nd)) layout_types.

Definition set_position (nodeId : string) (l t : Z) (ed : editor) : editor :=
  match assoc nodeId (nodes ed) with
  | Some nd =>
      with_nodes ed (assoc_set nodeId
        (mkNodeData (type_ nd) l t (width nd) (height nd) (properties nd)
                    (codeBlockProperties nd) (parentId nd) (children nd) (dom nd)) (nodes ed))
  | None => ed
  end.

Definition set_height (nodeId : string) (h : string) (ed : editor) : editor :=
  match assoc nodeId (nodes ed) with
  | Some nd =>
      with_nodes ed (assoc_set nodeId
        (mkNodeData (type_ nd) (left nd) (top nd) (width nd) h (properties nd)
                    (codeBlockProperties nd) (parentId nd) (children nd) (dom nd)) (nodes ed))
  | None => ed
  end.

(** [containerData.children.forEach(...)]: the container element's
    position is read again at every child; a child id that is not a
    string finds no node in the [Map]. *)
Fixpoint layout_children (offsetHeight : string -> Z) (containerId : string)
    (kids : list value) (currentY : Z) : M Z :=
  match kids with
  | [] => ret currentY
  | childId :: rest =>
      ed <- get ;;
      match childId with
      | VStr cid =>
          match assoc cid (nodes ed), assoc containerId (nodes ed) with
          | Some _, Some cnd =>
              modify (set_position cid (left cnd + 20) (top cnd + currentY)) ;;;
              layout_children offsetHeight containerId rest (currentY + offsetHeight cid + 10)
          | _, _ => layout_children offsetHeight containerId rest currentY
          end
      | _ => layout_children offsetHeight containerId rest currentY
      end
  end.

Definition layoutColumn (offsetHeight : string -> Z) (containerId : string) (containerData : nodeData) : M unit :=
  match children containerData with
  | VArr kids =>
      currentY <- layout_children offsetHeight containerId kids 20 ;;
      modify (set_height containerId (String.append (Z_to_string (Z.max 100 currentY)) "px"))
  | _ => lift (Throw (type_error "containerData.children.forEach is not a function"))
  end.

Definition updateLayout (offsetHeight : string -> Z) (containerId : string) : M unit :=
  ed <- get ;;
  match assoc containerId (nodes ed) with
  | Some containerData =>
      if isContainer containerData then
        if String.eqb (type_ containerData) "column"
        then layoutColumn offsetHeight containerId containerData
        else ret tt
      else ret tt
  | None => ret tt
  end.

Definition node_pos (ed : editor) (nodeId : string) : option (Z * Z) :=
  option_map (fun nd => (left nd, top nd)) (assoc nodeId (nodes ed)).

Definition node_height (ed : editor) (nodeId : string) : option string :=
  option_map height (assoc nodeId (nodes ed)).

(** The [currentY] at which [layoutColumn] places each child of a list of
    string ids that all name nodes, and the [currentY] it ends with. *)
Fixpoint stack_offsets (offsetHeight : string -> Z) (ids : list string) (y : Z) : list Z :=
  match ids with
  | [] => []
  | a :: r => y :: stack_offsets offsetHeight r (y + offsetHeight a + 10)
  end.

Fixpoint stack_end (offsetHeight : string -> Z) (ids : list string) (y : Z) : Z :=
  match ids with
  | [] => y
  | a :: r => stack_end offsetHeight r (y + offsetHeight a + 10)
  end.

(** A computation that keeps the property [P] of the editor, whether it
    returns or throws. *)
Definition preserves {A} (P : editor -> Prop) (m : M A) : Prop :=
  forall s, P s -> match m s with
                   | ROk _ s' | RThrow _ s' => P s'
                   | _ => True
                   end.

(** A string of decimal digits only. *)
Fixpoint all_digits (s : string) : bool :=
  match s with
  | EmptyString => true
  | String c r => is_digit c && all_digits r
  end.

(** [findText] occurs in [s] at index [i], compared as [lit_scan]
    compares (case folded unless case-sensitive). *)
Definition occurs_at (cs : bool) (f s : string) (i : nat) : bool :=
  if list_eq_dec N.eq_dec
       (map (canon cs) (list_ascii_of_string (substring i (String.length f) s)))
       (map (canon cs) (list_ascii_of_string f))
  then true else false.

(** A highlighting rule whose type has no [>] and whose matches are the
    text of [code] at their index. *)
Definition rule_ok (code : string) (rule : string * (string -> list (nat * string))) : bool :=
  negb (contains_char ">" (fst rule)) &&
  forallb (fun im => Nat.leb (fst im + String.length (snd im)) (String.length code) &&
                     String.eqb (substring (fst im) (String.length (snd im)) code) (snd im))
          (snd rule code).

(** ** Concrete graphs for the properties below *)

(** The editor a computation leaves, whether it returns or throws. *)
Definition res_state {A} (r : res A) : editor :=
  match r with
  | ROk _ s | RThrow _ s => s
  | _ => empty_editor
  end.

Definition ok_or {A} (d : A) (o : outcome A) : A :=
  match o with Ok a => a | _ => d end.

(** The editor after two recorded edits, then undo, redo and undo again. *)
Definition edited_editor : editor := res_state (two_edits initial_editor).
Definition undone_editor : editor := res_state (undo (registry trivial_engine) edited_editor).
Definition redone_editor : editor := res_state (redo (registry trivial_engine) undone_editor).
Definition reundone_editor : editor := res_state (undo (registry trivial_engine) redone_editor).

Definition filter_node (condition : string) : nodeData :=
  plain_node "filter" [("condition", FText condition)] [].

(** Rows one of which is grouped under [toString], a name [{}] inherits. *)
Definition proto_rows : list value :=
  [VObj [("cat", VStr "x"); ("v", VStr "1")];
   VObj [("cat", VStr "toString"); ("v", VStr "2")]].

Definition proto_editor : editor :=
  mkEditor
    [("node_0", plain_node "json" [("operation", FText "parse")] [("data_out", VArr proto_rows)]);
     ("node_1", scenario_b_aggregate)]
    [mkConn "node_0" "data_out" "node_1" "data_in"]
    (VObj [("x", VNum 0); ("y", VNum 0)]) (VNum 1) 2 empty_history [].

(** A text node holding two CSV lines, wired into a CSV node. *)
Definition csv_text : string := String.append "a,b" (String (ascii_of_nat 10) "1,2").

Definition csv_graph : editor :=
  mkEditor [("node_0", text_node csv_text); ("node_1", plain_node "csv" [] [])]
    [mkConn "node_0" "text_out" "node_1" "csv_in"]
    (VObj [("x", VNum 0); ("y", VNum 0)]) (VNum 1) 2 empty_history [].

(** A find & replace node in literal mode, fed by a text node. *)
Definition fr_node (f r : string) (g cs : bool) : nodeData :=
  plain_node "find_replace"
    [("find", FText f); ("replace", FText r); ("regex", FCheck false);
     ("global", FCheck g); ("case_sensitive", FCheck cs)] [].

Definition fr_text : string := "Hello hello world".

Definition fr_graph (nd : nodeData) : editor :=
  mkEditor [("node_0", text_node fr_text); ("node_1", nd)]
    [mkConn "node_0" "text_out" "node_1" "input_text"]
    (VObj [("x", VNum 0); ("y", VNum 0)]) (VNum 1) 2 empty_history [].

(** Highlighting rules with overlapping matches on [if x<y]. *)
Definition sample_code : string := "if x<y".

Definition sample_patterns : list (string * (string -> list (nat * string))) :=
  [("keyword", fun _ => [(0%nat, "if")]);
   ("variable", fun _ => [(3%nat, "x"); (5%nat, "y")]);
   ("operator", fun _ => [(3%nat, "x<y")])].

(** A column container holding two text nodes. *)
Definition column_node : nodeData :=
  mkNodeData "column" 100 50 "" "" (VObj []) (VObj []) VNull (VArr [VStr "node_1"; VStr "node_2"])
    (mkNodeDom [] [] "").

Definition column_graph : editor :=
  mkEditor [("node_0", column_node); ("node_1", text_node "a"); ("node_2", text_node "b")] []
    (VObj [("x", VNum 0); ("y", VNum 0)]) (VNum 1) 3 empty_history [].

(** * Proofs *)

(** ** Engine: structural lemmas *)

Lemma assoc_some_in {A} (x : string) (l : list (string * A)) a :
  assoc x l = Some a -> existsb (String.eqb x) (map fst l) = true.
Proof.
  induction l as [|[k b] l IH]; simpl; [discriminate|].
  destruct (String.eqb x k); simpl; auto.
Qed.

Lemma assoc_none_notin {A} (x : string) (l : list (string * A)) :
  assoc x l = None -> existsb (String.eqb x) (map fst l) = false.
Proof.
  induction l as [|[k b] l IH]; simpl; [reflexivity|].
  destruct (String.eqb x k); simpl; [discriminate|auto].
Qed.

Lemma map_fst_assoc_set {A} (k : string) (a b : A) (l : list (string * A)) :
  assoc k l = Some a -> map fst (assoc_set k b l) = map fst l.
Proof.
  induction l as [|[k' a'] l IH]; simpl; [discriminate|].
  destruct (String.eqb k k') eqn:E; simpl.
  - reflexivity.
  - intro H. rewrite (IH H). reflexivity.
Qed.

Lemma set_dom_skeleton nodeId d ed :
  skeleton (set_dom nodeId d ed) = skeleton ed.
Proof.
  unfold set_dom, skeleton.
  destruct (assoc nodeId (nodes ed)) as [nd|] eqn:E; [|reflexivity].
  simpl. rewrite (map_fst_assoc_set _ _ _ _ E). reflexivity.
Qed.

Lemma keeps_ret {A} (a : A) : keeps_skeleton (ret a).
Proof. intro s. reflexivity. Qed.

Lemma keeps_get : keeps_skeleton get.
Proof. intro s. reflexivity. Qed.

Lemma keeps_lift {A} (o : outcome A) : keeps_skeleton (lift o).
Proof. intro s. destruct o; simpl; auto. Qed.

Lemma keeps_bind {A B} (m : M A) (k : A -> M B) :
  keeps_skeleton m -> (forall a, keeps_skeleton (k a)) ->
  keeps_skeleton (mbind m k).
Proof.
  intros Hm Hk s. unfold mbind. specialize (Hm s).
  destruct (m s) as [a s'|e s'| |]; auto.
  specialize (Hk a s'). destruct (k a s'); congruence.
Qed.

Lemma keeps_run_processor P nodeId nd :
  keeps_skeleton (run_processor P nodeId nd).
Proof.
  unfold run_processor. destruct (P (type_ nd)) as [p|].
  - apply keeps_bind; [apply keeps_get|]. intro ed.
    apply keeps_bind; [apply keeps_lift|]. intro d.
    intro s. simpl. apply set_dom_skeleton.
  - apply keeps_ret.
Qed.

Lemma keeps_forEach rec nodeId cs acc :
  (forall y, keeps_skeleton (rec y)) ->
  keeps_skeleton (forEach_conn rec nodeId cs acc).
Proof.
  intro Hrec. revert acc. induction cs as [|c cs IH]; intro acc; simpl.
  - apply keeps_ret.
  - destruct (String.eqb (from_node c) nodeId).
    + apply keeps_bind; auto.
    + apply IH.
Qed.

Lemma keeps_processNodeData P fuel nodeId :
  keeps_skeleton (processNodeData P fuel nodeId).
Proof.
  revert nodeId. induction fuel as [|f IH]; intro nodeId.
  - intro s. reflexivity.
  - simpl. apply keeps_bind; [apply keeps_get|]. intro ed.
    destruct (assoc nodeId (nodes ed)) as [nd|].
    + apply keeps_bind; [apply keeps_run_processor|]. intros _.
      apply keeps_bind; [apply keeps_get|]. intro ed1.
      apply keeps_forEach. exact IH.
    + apply keeps_ret.
Qed.

Lemma processNodeData_S P f x s :
  processNodeData P (S f) x s =
  match assoc x (nodes s) with
  | None => ROk [] s
  | Some nd =>
      match run_processor P x nd s with
      | ROk _ s1 => forEach_conn (processNodeData P f) x (connections s1) [x] s1
      | RThrow e s1 => RThrow e s1
      | RNoReturn => RNoReturn
      | RStuck => RStuck
      end
  end.
Proof.
  simpl. unfold mbind, get at 1.
  destruct (assoc x (nodes s)) as [nd|]; [|reflexivity].
  destruct (run_processor P x nd s); reflexivity.
Qed.

Lemma run_processor_returns P x nd s :
  processors_return P ->
  exists s1, run_processor P x nd s = ROk tt s1 /\ skeleton s1 = skeleton s.
Proof.
  intro HP. unfold run_processor.
  destruct (P (type_ nd)) as [p|] eqn:Ep.
  - destruct (HP _ _ Ep s x nd) as [d Hd].
    exists (set_dom x d s). unfold mbind, get, lift, modify. rewrite Hd.
    split; [reflexivity|apply set_dom_skeleton].
  - exists s. split; reflexivity.
Qed.

Lemma edge_skeleton s1 s2 x y :
  skeleton s1 = skeleton s2 -> edge s1 x y -> edge s2 x y.
Proof.
  unfold skeleton, edge, is_node. intros H [Hn [c Hc]].
  injection H as Hf Hc'. rewrite <- Hf, <- Hc'. eauto.
Qed.

Lemma is_node_skeleton s1 s2 x :
  skeleton s1 = skeleton s2 -> is_node s1 x = is_node s2 x.
Proof.
  unfold skeleton, is_node. intro H. injection H as Hf _. now rewrite Hf.
Qed.

Lemma rt1n_skeleton s1 s2 x y :
  skeleton s1 = skeleton s2 ->
  clos_refl_trans_1n string (edge s1) x y ->
  clos_refl_trans_1n string (edge s2) x y.
Proof.
  intros H Hr. induction Hr as [|x z y Hxz _ IH].
  - constructor.
  - econstructor; [eapply edge_skeleton; eauto|exact IH].
Qed.

(** ** Engine: termination on acyclic graphs *)

Lemma forEach_not_ok rec x cs acc s :
  (forall y, keeps_skeleton (rec y)) ->
  (forall tr s', forEach_conn rec x cs acc s <> ROk tr s') ->
  exists c, In c cs /\ from_node c = x /\
  exists s1, skeleton s1 = skeleton s /\
             forall tr s', rec (to_node c) s1 <> ROk tr s'.
Proof.
  intro Hrec. revert acc s. induction cs as [|c cs IH]; intros acc s Hn; simpl in Hn.
  - exfalso. exact (Hn acc s eq_refl).
  - destruct (String.eqb (from_node c) x) eqn:Ec.
    + apply String.eqb_eq in Ec.
      unfold mbind in Hn. pose proof (Hrec (to_node c) s) as Hk.
      destruct (rec (to_node c) s) as [tr s1|e s1| |] eqn:Er.
      * destruct (IH _ _ Hn) as [c' [Hin [Hf [s2 [Hs2 Hr2]]]]].
        exists c'. split; [right; exact Hin|]. split; [exact Hf|].
        exists s2. split; [congruence|exact Hr2].
      * exists c. split; [left; reflexivity|]. split; [exact Ec|]. exists s. split; [reflexivity|].
        intros tr s'. rewrite Er. discriminate.
      * exists c. split; [left; reflexivity|]. split; [exact Ec|]. exists s. split; [reflexivity|].
        intros tr s'. rewrite Er. discriminate.
      * exists c. split; [left; reflexivity|]. split; [exact Ec|]. exists s. split; [reflexivity|].
        intros tr s'. rewrite Er. discriminate.
    + destruct (IH _ _ Hn) as [c' [Hin [Hf Hs]]]. exists c'.
      split; [right; exact Hin|]. split; [exact Hf|exact Hs].
Qed.

Lemma walk_skeleton s1 s2 x cs :
  skeleton s1 = skeleton s2 -> walk s1 x cs -> walk s2 x cs.
Proof.
  intro H. revert x. induction cs as [|c cs IH]; intros x Hw; simpl in *; auto.
  destruct Hw as [Hn [Hin [Hf Hw]]].
  unfold skeleton in H. injection H as Hf' Hc'.
  repeat split; auto.
  - unfold is_node in *. now rewrite <- Hf'.
  - now rewrite <- Hc'.
Qed.

(** If [processNodeData] does not return within [fuel] nested calls, there
    is a walk of [fuel - 1] connections from the start node. *)
Lemma processNodeData_long_walk P :
  processors_return P ->
  forall f x s, (forall tr s', processNodeData P f x s <> ROk tr s') ->
  exists cs, length cs = pred f /\ walk s x cs.
Proof.
  intros HP f. induction f as [|f IH]; intros x s Hn.
  - exists []. split; [reflexivity|exact I].
  - rewrite processNodeData_S in Hn.
    destruct (assoc x (nodes s)) as [nd|] eqn:Ex.
    2:{ exfalso. exact (Hn [] s eq_refl). }
    destruct (run_processor_returns P x nd s HP) as [s1 [Hr Hs1]].
    rewrite Hr in Hn.
    destruct (forEach_not_ok _ _ _ _ _ (keeps_processNodeData P f) Hn)
      as [c [Hin [Hf [s2 [Hs2 Hr2]]]]].
    destruct f as [|f'].
    + exists []. split; [reflexivity|exact I].
    + destruct (IH _ _ Hr2) as [cs [Hl Hw]].
      exists (c :: cs). split; [simpl; rewrite Hl; reflexivity|].
      simpl. repeat split.
      * unfold is_node. exact (assoc_some_in _ _ _ Ex).
      * unfold skeleton in Hs1. injection Hs1 as _ Hc. rewrite <- Hc. exact Hin.
      * exact Hf.
      * apply (walk_skeleton s2); [congruence|exact Hw].
Qed.

Lemma walk_app s x l1 l2 :
  walk s x (l1 ++ l2) -> walk s x l1 /\ walk s (walk_end x l1) l2.
Proof.
  revert x. induction l1 as [|c l1 IH]; intros x Hw; simpl in *.
  - split; [exact I|exact Hw].
  - destruct Hw as [Hn [Hin [Hf Hw]]]. destruct (IH _ Hw) as [H1 H2].
    repeat split; auto.
Qed.

Lemma walk_reach s x l :
  walk s x l -> clos_refl_trans string (edge s) x (walk_end x l).
Proof.
  revert x. induction l as [|c l IH]; intros x Hw; simpl in *.
  - apply rt_refl.
  - destruct Hw as [Hn [Hin [Hf Hw]]].
    eapply rt_trans; [apply rt_step|apply IH, Hw].
    split; [exact Hn|]. exists c. auto.
Qed.

Lemma conn_eq_dec : forall a b : conn, {a = b} + {a <> b}.
Proof. decide equality; apply string_dec. Qed.

Lemma walk_repeat_cycle s x cs :
  walk s x cs -> ~ NoDup cs -> exists y, clos_trans string (edge s) y y.
Proof.
  intros Hw Hnd.
  assert (Hdec : decidable_eq conn).
  { intros a b. destruct (conn_eq_dec a b); [left|right]; auto. }
  destruct (not_NoDup Hdec Hnd) as [c [l1 [l2 [l3 ->]]]].
  apply walk_app in Hw. destruct Hw as [_ Hw]. simpl in Hw.
  destruct Hw as [Hn [Hin [Hf Hw]]].
  apply walk_app in Hw. destruct Hw as [Hw2 Hw3].
  pose proof (walk_reach _ _ _ Hw2) as Hr.
  simpl in Hw3. destruct Hw3 as [_ [_ [Hf' _]]].
  exists (to_node c).
  eapply clos_rt_t; [exact Hr|]. rewrite <- Hf', Hf.
  apply t_step. split; [exact Hn|]. exists c. auto.
Qed.

Lemma walk_incl s x cs : walk s x cs -> incl cs (connections s).
Proof.
  revert x. induction cs as [|c cs IH]; intros x Hw; [intros a []|].
  destruct Hw as [_ [Hin [_ Hw]]]. intros a [<-|Ha]; [exact Hin|exact (IH _ Hw a Ha)].
Qed.

Lemma walk_long_cycle s x cs :
  walk s x cs -> (length (connections s) < length cs)%nat ->
  exists y, clos_trans string (edge s) y y.
Proof.
  intros Hw Hl. apply (walk_repeat_cycle s x cs Hw).
  intro Hnd. pose proof (NoDup_incl_length Hnd (walk_incl _ _ _ Hw)). lia.
Qed.

Lemma processNodeData_returns P s x :
  processors_return P -> acyclic s ->
  exists tr s', processNodeData P (S (S (length (connections s)))) x s = ROk tr s'.
Proof.
  intros HP Hac.
  set (N := S (S (length (connections s)))).
  destruct (processNodeData P N x s) as [tr s'|e s'| |] eqn:E; [eauto| | |]; exfalso;
  (destruct (processNodeData_long_walk P HP N x s) as [cs [Hl Hw]];
     [intros tr0 s0; rewrite E; discriminate|]);
  (destruct (walk_long_cycle s x cs Hw) as [y Hy];
     [unfold N in Hl; simpl in Hl; lia|exact (Hac y Hy)]).
Qed.

(** ** Engine: every reachable node is processed *)

Lemma forEach_calls rec x cs acc s tr s' :
  (forall y, keeps_skeleton (rec y)) ->
  forEach_conn rec x cs acc s = ROk tr s' ->
  incl acc tr /\
  forall c, In c cs -> from_node c = x ->
  exists s1 tr1 s1', skeleton s1 = skeleton s /\
                     rec (to_node c) s1 = ROk tr1 s1' /\ incl tr1 tr.
Proof.
  intro Hrec. revert acc s. induction cs as [|c cs IH]; intros acc s H; simpl in H.
  - injection H as <- <-. split; [intros a Ha; exact Ha|intros c []].
  - destruct (String.eqb (from_node c) x) eqn:Ec.
    + unfold mbind in H. pose proof (Hrec (to_node c) s) as Hk.
      destruct (rec (to_node c) s) as [tr1 s1|e s1| |] eqn:Er; try discriminate.
      destruct (IH _ _ H) as [Hacc Hall]. split.
      * intros a Ha. apply Hacc, in_or_app. now left.
      * intros c' [<-|Hin] Hf.
        -- exists s, tr1, s1. split; [reflexivity|]. split; [exact Er|].
           intros a Ha. apply Hacc, in_or_app. now right.
        -- destruct (Hall c' Hin Hf) as [s2 [tr2 [s2' [Hs [Hr Hi]]]]].
           exists s2, tr2, s2'. split; [congruence|auto].
    + destruct (IH _ _ H) as [Hacc Hall]. split; [exact Hacc|].
      intros c' [<-|Hin] Hf.
      * apply String.eqb_neq in Ec. contradiction.
      * exact (Hall c' Hin Hf).
Qed.

Lemma processNodeData_visits P f x s tr s' y :
  processNodeData P f x s = ROk tr s' ->
  clos_refl_trans_1n string (edge s) x y -> is_node s y = true -> In y tr.
Proof.
  revert x s tr s'. induction f as [|f IH]; intros x s tr s' H Hr Hy;
    [discriminate|].
  rewrite processNodeData_S in H.
  destruct (assoc x (nodes s)) as [nd|] eqn:Ex.
  2:{ exfalso. inversion Hr; subst.
      - unfold is_node in Hy. rewrite (assoc_none_notin _ _ Ex) in Hy. discriminate.
      - match goal with Hxz : edge _ _ _ |- _ => destruct Hxz as [Hn _] end.
        unfold is_node in Hn. rewrite (assoc_none_notin _ _ Ex) in Hn. discriminate. }
  pose proof (keeps_run_processor P x nd s) as Hk.
  destruct (run_processor P x nd s) as [u s1|e s1| |]; try discriminate.
  destruct (forEach_calls _ _ _ _ _ _ _ (keeps_processNodeData P f) H) as [Hacc Hall].
  inversion Hr; subst.
  - apply Hacc. now left.
  - match goal with
    | Hxz : edge _ _ ?z, Hzy : clos_refl_trans_1n _ _ ?z _ |- _ =>
        rename z into z0; rename Hzy into Hzy0; destruct Hxz as [_ [c [Hin [Hf Ht]]]]
    end.
    assert (Hin1 : In c (connections s1)).
    { unfold skeleton in Hk. injection Hk as _ Hc. now rewrite Hc. }
    destruct (Hall c Hin1 Hf) as [s2 [tr2 [s2' [Hs2 [Hr2 Hi]]]]].
    apply Hi. rewrite Ht in Hr2. apply (IH _ _ _ _ Hr2).
    + apply (rt1n_skeleton s); [congruence|exact Hzy0].
    + rewrite (is_node_skeleton s2 s y); [exact Hy|congruence].
Qed.

(** ** C1 *)

Lemma ranked_acyclic ed rank : ranked ed rank = true -> acyclic ed.
Proof.
  intros Hr.
  assert (Hlt : forall x y, clos_trans string (edge ed) x y -> rank x < rank y).
  { intros x y Ht. induction Ht as [x y [Hx [c [Hin [Hf Ht]]]]|x y z _ IH1 _ IH2]; [|lia].
    unfold ranked in Hr. rewrite forallb_forall in Hr. specialize (Hr c Hin).
    rewrite Hf, Ht, Hx in Hr. simpl in Hr. apply Nat.ltb_lt. exact Hr. }
  intros x Hx. specialize (Hlt x x Hx). lia.
Qed.

(** C1: on an acyclic graph, [processNodeData root] returns (within as many
    nested calls as there are connections, plus two) and every node of the
    table reachable from [root] along connections is processed, i.e. its id
    is among the nodes [processNodeData] was called on and found.  The
    registry's processors are assumed to return normally (the processor
    contract). *)
Theorem processNodeData_terminates_and_visits
    (nodeProcessors : string -> option processor) (ed : editor) (root : string) :
  processors_return nodeProcessors ->
  acyclic ed ->
  is_node ed root = true ->
  exists fuel visited ed',
    processNodeData nodeProcessors fuel root ed = ROk visited ed' /\
    forall y, reachable ed root y -> is_node ed y = true -> In y visited.
Proof.
  intros HP Hac _.
  destruct (processNodeData_returns nodeProcessors ed root HP Hac) as [tr [ed' H]].
  exists (S (S (length (connections ed)))), tr, ed'. split; [exact H|].
  intros y Hr Hy. apply (processNodeData_visits _ _ _ _ _ _ _ H); [|exact Hy].
  apply clos_rt_rt1n. exact Hr.
Qed.

(** ** Connections *)

Lemma keeps_recordState : keeps_skeleton recordState.
Proof.
  intro s. unfold recordState. destruct (isRestoring (hist s)); reflexivity.
Qed.

Lemma keeps_bind_conn {A B} (m : M A) (k : A -> M B) s :
  keeps_skeleton m ->
  (forall a s', m s = ROk a s' -> match k a s' with
                                  | ROk _ s'' | RThrow _ s'' => connections s'' = connections s'
                                  | _ => True end) ->
  match mbind m k s with
  | ROk _ s'' | RThrow _ s'' => connections s'' = connections s
  | _ => True
  end.
Proof.
  intros Hm Hk. unfold mbind. specialize (Hm s).
  destruct (m s) as [a s'|e s'| |] eqn:E; auto.
  - specialize (Hk a s' eq_refl). unfold skeleton in Hm. injection Hm as _ Hc.
    destruct (k a s'); congruence.
  - unfold skeleton in Hm. injection Hm as _ Hc. exact Hc.
Qed.

Lemma filter_replace_target (p : conn -> bool) (l : list conn) (x : conn) :
  p x = true -> filter p (filter (fun c => negb (p c)) l ++ [x]) = [x].
Proof.
  intro Hx. rewrite filter_app. simpl. rewrite Hx.
  induction l as [|c l IH]; simpl; [reflexivity|].
  destruct (p c) eqn:Ec; simpl; [exact IH|]. rewrite Ec. exact IH.
Qed.

(** C2: once [completeConnection] has added a connection from
    [(startNode, startSocket)] into the input socket [(t, sock)] of another
    node, exactly one connection of the list targets [(t, sock)]: the new
    one; every other connection is kept.  This holds whether the
    propagation that follows returns or throws. *)
Theorem completeConnection_single_target
    (nodeProcessors : string -> option processor) (ed : editor)
    (startNode startSocket t sock : string) :
  startNode <> t ->
  match completeConnection nodeProcessors (Some (startNode, startSocket)) true t sock ed with
  | ROk _ ed' | RThrow _ ed' =>
      filter (fun c => String.eqb (to_node c) t && String.eqb (to_socket c) sock)
             (connections ed') = [mkConn startNode startSocket t sock] /\
      (forall c, In c (connections ed) ->
                 ~ (to_node c = t /\ to_socket c = sock) -> In c (connections ed'))
  | _ => True
  end.
Proof.
  intro Hne. unfold completeConnection. simpl.
  apply String.eqb_neq in Hne. rewrite Hne.
  set (l' := filter (fun c => negb (String.eqb (to_node c) t && String.eqb (to_socket c) sock))
                    (connections ed) ++ [mkConn startNode startSocket t sock]).
  assert (Hl : filter (fun c => String.eqb (to_node c) t && String.eqb (to_socket c) sock) l'
               = [mkConn startNode startSocket t sock]).
  { apply (filter_replace_target (fun c => String.eqb (to_node c) t && String.eqb (to_socket c) sock)).
    simpl. now rewrite !String.eqb_refl. }
  assert (Hk : forall c, In c (connections ed) -> ~ (to_node c = t /\ to_socket c = sock) -> In c l').
  { intros c Hin Hnt. apply in_or_app. left. apply filter_In. split; [exact Hin|].
    destruct (String.eqb (to_node c) t) eqn:E1; destruct (String.eqb (to_socket c) sock) eqn:E2;
      simpl; auto.
    apply String.eqb_eq in E1, E2. exfalso. auto. }
  unfold mbind at 1. unfold modify.
  pose proof (keeps_bind_conn recordState
                (fun _ => _ <- processNodeData nodeProcessors max_call_depth t ;; ret tt)
                (with_connections ed l') keeps_recordState) as H.
  assert (H' : match mbind recordState
                 (fun _ => _ <- processNodeData nodeProcessors max_call_depth t ;; ret tt)
                 (with_connections ed l') with
               | ROk _ s'' | RThrow _ s'' => connections s'' = l'
               | _ => True end).
  { apply H. intros a0 s0 _.
    apply (keeps_bind_conn (processNodeData nodeProcessors max_call_depth t) (fun _ => ret tt)).
    - apply keeps_processNodeData.
    - intros; reflexivity. }
  clear H. fold l'.
  destruct (mbind recordState _ (with_connections ed l')) as [a s''|e s''| |]; auto;
  (rewrite H'; split; [exact Hl|exact Hk]).
Qed.

(** ** Aggregate *)

(** C9: an aggregate node whose parameters are groupBy = "cat",
    aggFunc = "sum", aggKey = "v" and whose [data_in] socket is fed the array
    [[{cat:"x",v:"1"},{cat:"x",v:"2"},{cat:"y",v:"5"}]] sets its [data_out]
    output to [[{cat:"x",sum_of_v:3},{cat:"y",sum_of_v:5}]]. *)
Theorem processAggregateNode_scenario_b (ed : editor) (nodeId : string) (nd : nodeData) (c : conn) :
  control_text (dom nd) "groupBy" = Ok "cat" ->
  control_text (dom nd) "aggFunc" = Ok "sum" ->
  control_text (dom nd) "aggKey" = Ok "v" ->
  find_input ed nodeId "data_in" = Some c ->
  source_output ed c = Ok (VArr scenario_b_rows) ->
  processAggregateNode ed nodeId nd =
  Ok (set_status
        (set_output (dom nd) "data_out"
           (VArr [VObj [("cat", VStr "x"); ("sum_of_v", VNum 3)];
                  VObj [("cat", VStr "y"); ("sum_of_v", VNum 5)]]))
        "Aggregated 3 rows into 2 groups.").
Proof.
  intros Hg Hf Hk Hc Hs. unfold processAggregateNode.
  rewrite Hg, Hf, Hk. simpl obind. rewrite Hc. simpl. rewrite Hs.
  vm_compute. reflexivity.
Qed.

(** ** History *)

Lemma last_opt_app_single {A} (l : list A) (x : A) : last_opt (l ++ [x]) = Some x.
Proof. unfold last_opt. rewrite rev_app_distr. reflexivity. Qed.

Lemma last_opt_cons {A} (a : A) (l : list A) : l <> [] -> last_opt (a :: l) = last_opt l.
Proof.
  intros Hl. unfold last_opt. simpl.
  destruct (rev l) eqn:E; [|reflexivity].
  exfalso. apply Hl. rewrite <- (rev_involutive l), E. reflexivity.
Qed.

Lemma last_opt_skipn {A} (k : nat) (l : list A) :
  k < length l -> last_opt (skipn k l) = last_opt l.
Proof.
  revert l. induction k as [|k IH]; intros l Hk; [reflexivity|].
  destruct l as [|a l]; simpl in *; [lia|].
  rewrite IH by lia. symmetry. apply last_opt_cons.
  intros ->. simpl in Hk. lia.
Qed.

Lemma skipn_app_single {A} (k : nat) (l : list A) (x : A) :
  k <= length l -> skipn k (l ++ [x]) = skipn k l ++ [x].
Proof. intros Hk. rewrite skipn_app. replace (k - length l) with 0 by lia. reflexivity. Qed.

(** One [record_snapshot] of a fresh state keeps the undo stack equal to
    the last [maxHistory] states pushed so far. *)
Lemma record_snapshot_lastn (l : list value) (h : history) (state : value) :
  undoStack h = lastn maxHistory l ->
  match last_opt l with Some t => value_eqb t state = false | None => True end ->
  undoStack (record_snapshot state h) = lastn maxHistory (l ++ [state]).
Proof.
  intros Hu Hf. unfold record_snapshot.
  assert (Htop : last_opt (undoStack h) = last_opt l).
  { rewrite Hu. unfold lastn. destruct l as [|a l']; [reflexivity|].
    apply last_opt_skipn. unfold maxHistory. simpl. lia. }
  assert (Hpush : (if Nat.ltb maxHistory (length (undoStack h ++ [state]))
                   then tl (undoStack h ++ [state]) else undoStack h ++ [state])
                  = lastn maxHistory (l ++ [state])).
  { rewrite Hu. unfold lastn. rewrite !length_app, length_skipn. simpl.
    destruct (Nat.lt_ge_cases (length l) maxHistory) as [Hlt|Hge].
    - replace (length l - maxHistory) with 0 by lia.
      replace (length l + 1 - maxHistory) with 0 by lia. simpl.
      replace (Nat.ltb maxHistory (length l - 0 + 1)) with false
        by (symmetry; apply Nat.ltb_ge; lia).
      reflexivity.
    - replace (Nat.ltb maxHistory (length l - (length l - maxHistory) + 1)) with true
        by (symmetry; apply Nat.ltb_lt; lia).
      replace (length l + 1 - maxHistory) with (S (length l - maxHistory)) by lia.
      rewrite <- skipn_app_single by lia.
      change (tl (skipn (length l - maxHistory) (l ++ [state])))
        with (skipn 1 (skipn (length l - maxHistory) (l ++ [state]))).
      rewrite skipn_skipn. reflexivity. }
  rewrite Htop. destruct (last_opt l) as [t|] eqn:El.
  - rewrite Hf. simpl. exact Hpush.
  - exact Hpush.
Qed.

Lemma record_all_lastn (graphs : list editor) (l : list value) (h : history) :
  isRestoring h = false ->
  undoStack h = lastn maxHistory l ->
  fresh_chain (last_opt l) (map serialize graphs) = true ->
  undoStack (record_all graphs h) = lastn maxHistory (l ++ map serialize graphs).
Proof.
  revert l h. induction graphs as [|g r IH]; intros l h Hrest Hu Hf.
  - simpl. rewrite app_nil_r. exact Hu.
  - simpl in Hf. apply andb_prop in Hf. destruct Hf as [Ht Hr].
    assert (Hrec : recordState (with_hist g h) =
                   ROk tt (with_hist (with_hist g h) (record_snapshot (serialize g) h))).
    { unfold recordState. simpl. rewrite Hrest. reflexivity. }
    unfold record_all. simpl. rewrite Hrec. simpl.
    fold (record_all r (record_snapshot (serialize g) h)).
    replace (l ++ serialize g :: map serialize r) with ((l ++ [serialize g]) ++ map serialize r)
      by (rewrite <- app_assoc; reflexivity).
    apply IH.
    + unfold record_snapshot. destruct (last_opt (undoStack h)) as [t|];
        [destruct (value_eqb t (serialize g))|]; exact Hrest.
    + apply record_snapshot_lastn; [exact Hu|].
      destruct (last_opt l); [|exact I]. apply negb_true_iff. exact Ht.
    + rewrite last_opt_app_single. exact Hr.
Qed.

Lemma fresh_chain_firstn top states n :
  fresh_chain top states = true -> fresh_chain top (firstn n states) = true.
Proof.
  revert top n. induction states as [|s r IH]; intros top n H.
  - rewrite firstn_nil. reflexivity.
  - destruct n as [|n]; [reflexivity|]. simpl in *.
    apply andb_prop in H. destruct H as [H1 H2]. rewrite H1. simpl. apply IH. exact H2.
Qed.

Lemma lastn_short {A} (l : list A) : length l <= maxHistory -> lastn maxHistory l = l.
Proof. intros H. unfold lastn. replace (length l - maxHistory) with 0 by lia. reflexivity. Qed.

(** C5: start from an undo stack of at most [maxHistory] entries, outside
    a restore, and call [recordState] on a sequence of graphs, each
    serializing differently from the one recorded before it.  After any number of these calls the
    undo stack holds exactly the last [maxHistory] (50) states recorded,
    oldest first: it never exceeds 50 entries, and on overflow the oldest
    entry is the one evicted. *)
Theorem recordState_history_bound (h : history) (graphs : list editor) :
  isRestoring h = false ->
  length (undoStack h) <= maxHistory ->
  fresh_chain (last_opt (undoStack h)) (map serialize graphs) = true ->
  forall n,
    undoStack (record_all (firstn n graphs) h) =
      lastn maxHistory (undoStack h ++ map serialize (firstn n graphs)) /\
    length (undoStack (record_all (firstn n graphs) h)) <= maxHistory.
Proof.
  intros Hrest Hlen Hf n.
  assert (E : undoStack (record_all (firstn n graphs) h) =
              lastn maxHistory (undoStack h ++ map serialize (firstn n graphs))).
  { apply record_all_lastn; [exact Hrest| |].
    - symmetry. apply lastn_short. exact Hlen.
    - rewrite <- firstn_map. apply fresh_chain_firstn. exact Hf. }
  split; [exact E|].
  rewrite E. unfold lastn. rewrite length_skipn. lia.
Qed.

(** ** Observations of the editor that a computation leaves alone *)

Section Keeps.

Context {X : Type} (obs : editor -> X).

Lemma keeps_obs_ret {A} (a : A) : keeps obs (ret a).
Proof. intro s. reflexivity. Qed.

Lemma keeps_obs_get : keeps obs get.
Proof. intro s. reflexivity. Qed.

Lemma keeps_obs_lift {A} (o : outcome A) : keeps obs (lift o).
Proof. intro s. destruct o; simpl; auto. Qed.

Lemma keeps_obs_modify (f : editor -> editor) :
  (forall s, obs (f s) = obs s) -> keeps obs (modify f).
Proof. intros Hf s. apply Hf. Qed.

Lemma keeps_obs_bind {A B} (m : M A) (k : A -> M B) :
  keeps obs m -> (forall a, keeps obs (k a)) -> keeps obs (mbind m k).
Proof.
  intros Hm Hk s. unfold mbind. specialize (Hm s).
  destruct (m s) as [a s'|e s'| |]; auto.
  specialize (Hk a s'). destruct (k a s'); congruence.
Qed.

Lemma keeps_obs_forEach_M {A} (f : A -> M unit) (l : list A) :
  (forall a, keeps obs (f a)) -> keeps obs (forEach_M f l).
Proof.
  intro Hf. induction l as [|a l IH]; simpl.
  - apply keeps_obs_ret.
  - apply keeps_obs_bind; auto.
Qed.

Hypothesis obs_set_dom : forall nodeId d s, obs (set_dom nodeId d s) = obs s.

Lemma keeps_obs_processNodeData P fuel nodeId : keeps obs (processNodeData P fuel nodeId).
Proof.
  revert nodeId. induction fuel as [|f IH]; intro nodeId.
  - intro s. reflexivity.
  - simpl. apply keeps_obs_bind; [apply keeps_obs_get|]. intro ed.
    destruct (assoc nodeId (nodes ed)) as [nd|]; [|apply keeps_obs_ret].
    apply keeps_obs_bind.
    + unfold run_processor. destruct (P (type_ nd)) as [p|]; [|apply keeps_obs_ret].
      apply keeps_obs_bind; [apply keeps_obs_get|]. intro ed0.
      apply keeps_obs_bind; [apply keeps_obs_lift|]. intro d.
      apply keeps_obs_modify. apply obs_set_dom.
    + intros _. apply keeps_obs_bind; [apply keeps_obs_get|]. intro ed1.
      generalize [nodeId]. induction (connections ed1) as [|c cs IHc]; intro acc; simpl.
      * apply keeps_obs_ret.
      * destruct (String.eqb (from_node c) nodeId); [|apply IHc].
        apply keeps_obs_bind; [apply IH|]. intro; apply IHc.
Qed.

End Keeps.

(** The tactic that walks through a monadic program and shows that it
    leaves an observation alone. *)
Ltac keeps_step :=
  match goal with
  | |- keeps _ (mbind _ _) => apply keeps_obs_bind; [|intro]
  | |- keeps _ (ret _) => apply keeps_obs_ret
  | |- keeps _ get => apply keeps_obs_get
  | |- keeps _ (lift _) => apply keeps_obs_lift
  | |- keeps _ (modify _) => apply keeps_obs_modify; intro; reflexivity
  | |- keeps _ (processNodeData _ _ _) => apply keeps_obs_processNodeData; intros; unfold set_dom;
                                           destruct (assoc _ _); reflexivity
  | |- keeps _ (forEach_M _ _) => apply keeps_obs_forEach_M; intro
  | |- keeps _ (match ?x with _ => _ end) => destruct x
  | |- keeps _ (if ?b then _ else _) => destruct b
  end.

Lemma keeps_alerts_recordState : keeps alerts recordState.
Proof. intro s. unfold recordState. destruct (isRestoring (hist s)); reflexivity. Qed.

Lemma keeps_alerts_createNode t x y o : keeps alerts (createNode t x y o).
Proof.
  unfold createNode.
  repeat (keeps_step || apply keeps_alerts_recordState).
Qed.

Lemma keeps_alerts_deserialize_body P parsed : keeps alerts (deserialize_body P parsed).
Proof.
  unfold deserialize_body, load_node.
  repeat (keeps_step || apply keeps_alerts_createNode).
Qed.

(** ** Loading a session *)

Lemma mbind_ok {A B} (m : M A) (k : A -> M B) s b s' :
  mbind m k s = ROk b s' -> exists a s0, m s = ROk a s0 /\ k a s0 = ROk b s'.
Proof. unfold mbind. destruct (m s); try discriminate; eauto. Qed.

Lemma lift_ok {A} (o : outcome A) s a s' : lift o s = ROk a s' -> o = Ok a /\ s' = s.
Proof. destruct o; simpl; intro H; try discriminate. injection H as <- <-. auto. Qed.

Lemma keeps_connections_processNodeData P fuel nodeId :
  keeps connections (processNodeData P fuel nodeId).
Proof.
  apply keeps_obs_processNodeData. intros k d s. unfold set_dom.
  destruct (assoc k (nodes s)); reflexivity.
Qed.

Lemma deserialize_body_connections P v s u s' :
  deserialize_body P (Some v) s = ROk u s' ->
  exists cv cs, get_prop v "connections" = Ok cv /\
    decode_connections (js_or cv (VArr [])) = Some cs /\ connections s' = cs.
Proof.
  unfold deserialize_body. intro E.
  apply mbind_ok in E as (st & s1 & E1 & E). apply lift_ok in E1 as [E1 ->]. injection E1 as <-.
  do 8 (apply mbind_ok in E as (? & ? & _ & E)).
  apply mbind_ok in E as (cv & s2 & E1 & E). apply lift_ok in E1 as [E1 ->].
  apply mbind_ok in E as (cs & s3 & E2 & E). apply lift_ok in E2 as [E2 ->].
  destruct (decode_connections (js_or cv (VArr []))) as [cs'|] eqn:Ed; [injection E2 as <-|discriminate].
  apply mbind_ok in E as (? & s4 & E3 & E). injection E3 as _ <-.
  apply mbind_ok in E as (ed & s5 & E4 & E). injection E4 as <- <-.
  exists cv, cs'. split; [exact E1|]. split; [exact Ed|].
  match type of E with forEach_M ?f ?l ?s0 = _ =>
    assert (Hk : keeps connections (forEach_M f l));
    [|specialize (Hk s0); rewrite E in Hk; exact Hk]
  end.
  apply keeps_obs_forEach_M. intro a. apply keeps_obs_bind; [apply keeps_connections_processNodeData|].
  intro. apply keeps_obs_ret.
Qed.

Lemma deserialize_body_cleared P v ed ns cs :
  deserialize_body P (Some v) (with_restoring (with_connections (with_nodes ed ns) cs) true) =
  deserialize_body P (Some v) (with_restoring ed true).
Proof. reflexivity. Qed.

(** C8 (amended): [deserialize] never lets an exception escape and leaves
    [isRestoring] off.  It raises at most one alert.  When [JSON.parse]
    fails it raises exactly one and the graph is untouched.  For a parsed
    value, the body of the [try] either completes, and then no alert is
    raised and the connection list is the session's [connections] as
    decoded, with no check that its nodes or sockets exist; or it throws,
    and then exactly one alert is raised.  The graph it leaves, in both
    cases, does not depend on the graph before the load: the old nodes
    and connections are cleared before anything else is read, so an
    error after that leaves a cleared or partly rebuilt graph, not the
    last good one. *)
Theorem deserialize_load_boundary (P : string -> option processor) (parsed : option value) (ed : editor) :
  match deserialize P parsed ed with
  | ROk _ ed' =>
      isRestoring (hist ed') = false /\
      (alerts ed' = alerts ed \/ alerts ed' = alerts ed ++ [load_error_message]) /\
      (parsed = None ->
       nodes ed' = nodes ed /\ connections ed' = connections ed /\
       alerts ed' = alerts ed ++ [load_error_message]) /\
      (forall v, parsed = Some v ->
       match deserialize_body P (Some v) (with_restoring ed true) with
       | ROk _ _ =>
           alerts ed' = alerts ed /\
           exists cv, get_prop v "connections" = Ok cv /\
                      decode_connections (js_or cv (VArr [])) = Some (connections ed')
       | RThrow _ _ => alerts ed' = alerts ed ++ [load_error_message]
       | RNoReturn | RStuck => True
       end)
  | RThrow _ _ => False
  | RNoReturn | RStuck => True
  end /\
  (forall v ns cs,
     deserialize P (Some v) (with_connections (with_nodes ed ns) cs) = deserialize P (Some v) ed).
Proof.
  split.
  - destruct parsed as [v|].
    + pose proof (keeps_alerts_deserialize_body P (Some v) (with_restoring ed true)) as Hk.
      unfold deserialize.
      destruct (deserialize_body P (Some v) (with_restoring ed true)) as [a s'|e s'| |] eqn:Eb; auto;
        simpl in Hk.
      * split; [reflexivity|]. split; [left; exact Hk|]. split; [discriminate|].
        intros v' Hv. injection Hv as <-. rewrite Eb. split; [exact Hk|].
        destruct (deserialize_body_connections _ _ _ _ _ Eb) as (cv & cs & H1 & H2 & H3).
        exists cv. split; [exact H1|]. rewrite H2, <- H3. reflexivity.
      * split; [reflexivity|]. split; [right; simpl; rewrite Hk; reflexivity|]. split; [discriminate|].
        intros v' Hv. injection Hv as <-. rewrite Eb. simpl. rewrite Hk. reflexivity.
    + simpl. split; [reflexivity|]. split; [right; reflexivity|]. split; [intros _; auto|].
      intros v Hv. discriminate.
  - intros v ns cs. unfold deserialize. rewrite deserialize_body_cleared. reflexivity.
Qed.


(** C8: two session files that the load boundary does not reject as a
    whole.  The parsed object [{}] has no [nodes] array: the graph is
    cleared before [state.nodes.forEach] throws, so the alert is raised
    over an empty canvas.  A session whose connection names nodes it does
    not contain loads without any alert, the dangling connection kept. *)
Lemma deserialize_partial_load :
  match deserialize (registry trivial_engine) (Some (VObj [])) text_graph with
  | ROk _ ed' => nodes text_graph <> [] /\ nodes ed' = [] /\ alerts ed' = [load_error_message]
  | _ => False
  end /\
  match deserialize (registry trivial_engine) (Some dangling_session) text_graph with
  | ROk _ ed' => connections ed' = [mkConn "ghost" "text_out" "node_9" "text_in"] /\ alerts ed' = []
  | _ => False
  end.
Proof.
  vm_compute. split; [split; [discriminate|split; reflexivity]|split; reflexivity].
Qed.

(** ** Round trip through [serialize] and [deserialize] *)

(** C3: [serialize] stores the textarea of a text node under its
    [data-output] name [text_out], while [createTextNodeContent] reads
    [options.text] back.  Loading the serialization of a graph whose text
    node holds "hi" rebuilds that node with an empty textarea. *)
Theorem serialize_deserialize_text_lost :
  node_controls text_graph "node_0" = Some [("text_out", FText "hi")] /\
  match deserialize (registry trivial_engine) (Some (serialize text_graph)) text_graph with
  | ROk _ ed' =>
      map fst (nodes ed') = map fst (nodes text_graph) /\
      node_controls ed' "node_0" = Some [("text_out", FText "")]
  | _ => False
  end.
Proof. vm_compute. split; [reflexivity|split; reflexivity]. Qed.

(** C4: two recorded edits, creating a text node and typing "hi" into it;
    one [undo] and one [redo] bring back the node with an empty textarea
    instead of the state after the second edit. *)
Theorem undo_redo_text_lost :
  match two_edits initial_editor with
  | ROk _ s2 =>
      length (undoStack (hist s2)) = 3 /\
      node_controls s2 "node_0" = Some [("text_out", FText "hi")] /\
      match (undo (registry trivial_engine) ;;; redo (registry trivial_engine)) s2 with
      | ROk _ s4 =>
          length (undoStack (hist s4)) = 3 /\
          node_controls s4 "node_0" = Some [("text_out", FText "")]
      | _ => False
      end
  | _ => False
  end.
Proof. vm_compute. split; [reflexivity|split; [reflexivity|split; reflexivity]]. Qed.

(** ** Nodes without a processor *)

(** C6 (amended): for a node whose type has no entry in the registry,
    [processNodeData] runs no processor and leaves the editor as it is
    before walking the connection list: it still processes the target of
    every connection leaving the node.  It is a no-op when no connection
    leaves the node. *)
Theorem processNodeData_no_processor (eng : js_engine) (f : nat) (x : string) (nd : nodeData) (s : editor) :
  assoc x (nodes s) = Some nd ->
  registry eng (type_ nd) = None ->
  processNodeData (registry eng) (S f) x s =
    forEach_conn (processNodeData (registry eng) f) x (connections s) [x] s /\
  (forallb (fun c => negb (String.eqb (from_node c) x)) (connections s) = true ->
   processNodeData (registry eng) (S f) x s = ROk [x] s).
Proof.
  intros Hx Hr. rewrite processNodeData_S, Hx.
  unfold run_processor. rewrite Hr. simpl.
  split; [reflexivity|]. intro Hno.
  generalize [x] as acc. induction (connections s) as [|c cs IH]; intro acc; simpl in *.
  - reflexivity.
  - apply andb_prop in Hno. destruct Hno as [H1 H2].
    apply negb_true_iff in H1. rewrite H1. apply IH. exact H2.
Qed.

(** C6: processing the container node of [container_graph] re-runs the
    text node behind its connection, which reads the container's missing
    output as '' and overwrites its own text "abc". *)
Lemma processNodeData_container_cascades :
  registry trivial_engine "container" = None /\
  node_outputs container_graph "node_1" = Some [("text_out", VStr "abc")] /\
  match processNodeData (registry trivial_engine) max_call_depth "node_0" container_graph with
  | ROk _ s' => node_outputs s' "node_1" = Some [("text_out", VStr "")] /\
                node_controls s' "node_1" = Some [("text_out", FText "")]
  | _ => False
  end.
Proof. vm_compute. repeat split; reflexivity. Qed.

(** ** Filter *)

Lemma filter_rows_diverges f pre row post :
  (forall r, In r pre -> exists v, f r = Ok v) ->
  f row = NoReturn ->
  filter_rows f (pre ++ row :: post) = NoReturn.
Proof.
  intros Hpre Hrow. induction pre as [|r pre IH]; simpl.
  - rewrite Hrow. reflexivity.
  - destruct (Hpre r (or_introl eq_refl)) as [v Hv]. rewrite Hv. simpl.
    rewrite IH; [reflexivity|]. intros r' Hr'. apply Hpre. right. exact Hr'.
Qed.

Lemma filter_rows_returns f rows :
  (forall r, In r rows -> exists v, f r = Ok v) ->
  exists kept, filter_rows f rows = Ok kept.
Proof.
  induction rows as [|r rows IH]; intros H; simpl; [eexists; reflexivity|].
  destruct (H r (or_introl eq_refl)) as [v Hv]. rewrite Hv. simpl.
  destruct IH as [kept Hk]; [intros r' Hr'; apply H; right; exact Hr'|].
  rewrite Hk. simpl. eexists; reflexivity.
Qed.

(** C7 (amended): take a filter node whose [data_in] carries an array and
    whose condition is not empty.  If compiling the condition fails, or a
    row's evaluation throws, with an error whose message reads as [msg],
    the processor returns normally: [data_out] is [[]] and the status of
    that node is ["Error: " ++ msg].  If evaluation returns a value on
    every row, the processor returns normally.  If it runs forever on some
    row, after returning on the rows before it, the processor never
    returns. *)
Theorem processFilterNode_contained (eng : js_engine) (ed : editor) (nodeId : string) (nd : nodeData)
    (c : conn) (rows : list value) (condition : string) :
  find_input ed nodeId "data_in" = Some c ->
  source_output ed c = Ok (VArr rows) ->
  control_text (dom nd) "condition" = Ok condition ->
  condition <> "" ->
  let body := String.append "return " condition in
  (forall e msg,
     error_message e = Some msg ->
     fn_compile eng body = Some e \/
     (fn_compile eng body = None /\ filter_rows (fn_call eng body) rows = Throw e) ->
     processFilterNode eng ed nodeId nd =
     Ok (set_status (set_output (dom nd) "data_out" (VArr [])) (String.append "Error: " msg))) /\
  (fn_compile eng body = None ->
   (forall row, In row rows -> exists v, fn_call eng body row = Ok v) ->
   exists d, processFilterNode eng ed nodeId nd = Ok d) /\
  (forall pre row post,
     fn_compile eng body = None ->
     rows = pre ++ row :: post ->
     (forall r, In r pre -> exists v, fn_call eng body r = Ok v) ->
     fn_call eng body row = NoReturn ->
     processFilterNode eng ed nodeId nd = NoReturn).
Proof.
  intros Hc Hs Hcond Hne body.
  assert (Hunf : processFilterNode eng ed nodeId nd =
    match fn_compile eng body with
    | Some e =>
        m <-- get_prop e "message" ;;;
        match js_to_string m with
        | Some msg => Ok (set_status (set_output (dom nd) "data_out" (VArr [])) (String.append "Error: " msg))
        | None => Stuck
        end
    | None =>
        match filter_rows (fn_call eng body) rows with
        | Ok kept =>
            Ok (set_status (set_output (dom nd) "data_out" (VArr kept))
                  ("Filtered " ++ nat_to_string (length rows) ++ " rows to " ++
                   nat_to_string (length kept) ++ "."))
        | Throw e =>
            m <-- get_prop e "message" ;;;
            match js_to_string m with
            | Some msg => Ok (set_status (set_output (dom nd) "data_out" (VArr [])) (String.append "Error: " msg))
            | None => Stuck
            end
        | NoReturn => NoReturn
        | Stuck => Stuck
        end
    end).
  { unfold processFilterNode. rewrite Hc. simpl. rewrite Hs. simpl. rewrite Hcond. simpl.
    apply String.eqb_neq in Hne. rewrite Hne. reflexivity. }
  split; [|split].
  - intros e msg Hmsg Hcase. rewrite Hunf. unfold error_message in Hmsg.
    destruct Hcase as [He|[He Hf]]; rewrite He; [|rewrite Hf];
      destruct (get_prop e "message"); try discriminate; simpl; rewrite Hmsg; reflexivity.
  - intros He Hall. rewrite Hunf, He.
    destruct (filter_rows_returns _ _ Hall) as [kept Hk]. rewrite Hk. eexists; reflexivity.
  - intros pre row post He Hrows Hpre Hrow. rewrite Hunf, He, Hrows.
    rewrite (filter_rows_diverges _ _ _ _ Hpre Hrow). reflexivity.
Qed.

(** C7: with the condition [(() => { while (true) {} })()] the filter
    processor of [filter_graph] never returns, and neither does the
    propagation that runs it. *)
Lemma processFilterNode_looping_condition :
  processFilterNode sample_engine (filter_graph looping_condition) "node_1"
    (plain_node "filter" [("condition", FText looping_condition)] []) = NoReturn /\
  processNodeData (registry sample_engine) max_call_depth "node_1" (filter_graph looping_condition) = RNoReturn.
Proof. vm_compute. split; reflexivity. Qed.

(** ** Merge *)

Lemma sv0_ok a b : prim_key a = true -> prim_key b = true -> same_value_zero a b = Ok (sv0b a b).
Proof.
  unfold sv0b. destruct a as [[]|], b as [[]|]; simpl; intros; try discriminate; reflexivity.
Qed.

Lemma sv0b_sym a b : sv0b a b = sv0b b a.
Proof.
  unfold sv0b. destruct a as [[]|], b as [[]|]; simpl; try reflexivity.
  - destruct b, b0; reflexivity.
  - destruct (Qeq_bool q q0) eqn:E; symmetry.
    + apply Qeq_bool_iff. apply Qeq_bool_iff in E. symmetry. exact E.
    + apply not_true_iff_false. intro H. apply Qeq_bool_iff in H.
      apply not_true_iff_false in E. apply E. apply Qeq_bool_iff. symmetry. exact H.
  - apply String.eqb_sym.
  - apply String.eqb_sym.
Qed.

Lemma sv0b_trans a b c : sv0b a b = true -> sv0b b c = true -> sv0b a c = true.
Proof.
  unfold sv0b. destruct a as [[]|], b as [[]|], c as [[]|]; simpl; intros H1 H2;
    try discriminate; try reflexivity.
  - apply Bool.eqb_prop in H1, H2. subst. apply Bool.eqb_reflx.
  - apply Qeq_bool_iff in H1, H2. apply Qeq_bool_iff. rewrite H1. exact H2.
  - apply String.eqb_eq in H1, H2. subst. apply String.eqb_refl.
  - apply String.eqb_eq in H1, H2. subst. apply String.eqb_refl.
Qed.

Lemma sv0b_congr a b c : sv0b b c = true -> sv0b a b = sv0b a c.
Proof.
  intros H. destruct (sv0b a b) eqn:E1, (sv0b a c) eqn:E2; auto.
  - rewrite (sv0b_trans _ _ _ E1 H) in E2. discriminate.
  - rewrite sv0b_sym in H. rewrite (sv0b_trans _ _ _ E2 H) in E1. discriminate.
Qed.

Lemma read_key_plain x k : plain_object x = true -> read_key x k = Ok (spec_key x k).
Proof.
  destruct x; simpl; try discriminate. intros _. unfold spec_key. simpl.
  destruct (assoc k fields); reflexivity.
Qed.

Lemma spec_key_prim x k : key_primitive k x = true -> prim_key (spec_key x k) = true.
Proof.
  destruct x; simpl; try discriminate. unfold spec_key. simpl.
  destruct (assoc k fields) as [[]|]; simpl; try discriminate; try reflexivity;
    intros _; match goal with |- context [if ?b then _ else _] => destruct b end; reflexivity.
Qed.

Lemma map_set_spec k' v m :
  prim_key k' = true -> forallb (fun e => prim_key (fst e)) m = true ->
  exists m', map_set k' v m = Ok m' /\ forallb (fun e => prim_key (fst e)) m' = true /\
    forall k, prim_key k = true ->
      map_get k m' = if sv0b k k' then Ok (Some v) else map_get k m.
Proof.
  intros Hk'. induction m as [|[k1 v1] r IH]; intros Hm; simpl in *.
  - eexists. split; [reflexivity|]. split; [simpl; rewrite Hk'; reflexivity|].
    intros k Hk. simpl. rewrite (sv0_ok _ _ Hk Hk'). simpl.
    destruct (sv0b k k'); reflexivity.
  - apply andb_prop in Hm. destruct Hm as [Hk1 Hr].
    rewrite (sv0_ok _ _ Hk' Hk1). simpl.
    destruct (sv0b k' k1) eqn:E.
    + eexists. split; [reflexivity|]. split; [simpl; rewrite Hk1, Hr; reflexivity|].
      intros k Hk. simpl. rewrite (sv0_ok _ _ Hk Hk1). simpl.
      rewrite (sv0b_congr k _ _ E). destruct (sv0b k k1); reflexivity.
    + destruct (IH Hr) as [r' [Hset [Hr' Hget]]]. rewrite Hset. simpl.
      eexists. split; [reflexivity|]. split; [simpl; rewrite Hk1, Hr'; reflexivity|].
      intros k Hk. simpl. rewrite (sv0_ok _ _ Hk Hk1). simpl.
      destruct (sv0b k k1) eqn:E1.
      * destruct (sv0b k k') eqn:E2; [|reflexivity].
        rewrite sv0b_sym in E2. rewrite (sv0b_trans _ _ _ E2 E1) in E. discriminate.
      * rewrite (Hget k Hk). reflexivity.
Qed.

Lemma map_of_spec (rk : string) (l2 : list value) (m : list (mkey * value)) :
  forallb (fun r => prim_key (spec_key r rk)) l2 = true ->
  forallb (fun e => prim_key (fst e)) m = true ->
  exists m', map_of (map (fun r => (spec_key r rk, r)) l2) m = Ok m' /\
    forall k, prim_key k = true ->
      map_get k m' =
      match spec_last_match (fun r => sv0b k (spec_key r rk)) l2 with
      | Some v => Ok (Some v)
      | None => map_get k m
      end.
Proof.
  revert m. induction l2 as [|r l2 IH]; intros m He Hm; simpl in *.
  - eexists. split; [reflexivity|]. intros; reflexivity.
  - apply andb_prop in He. destruct He as [Hk1 Hr].
    destruct (map_set_spec (spec_key r rk) r m Hk1 Hm) as [m1 [Hset [Hm1 Hget1]]].
    rewrite Hset. simpl.
    destruct (IH m1 Hr Hm1) as [m' [Hof Hget]]. exists m'. split; [exact Hof|].
    intros k Hk. rewrite (Hget k Hk), (Hget1 k Hk).
    destruct (spec_last_match _ l2); [reflexivity|].
    destruct (sv0b k (spec_key r rk)); reflexivity.
Qed.

Lemma map_outcome_ok {A B} (f : A -> outcome B) (g : A -> B) (l : list A) :
  (forall x, In x l -> f x = Ok (g x)) -> map_outcome f l = Ok (map g l).
Proof.
  induction l as [|x l IH]; intros H; simpl; [reflexivity|].
  rewrite (H x (or_introl eq_refl)). simpl.
  rewrite IH; [reflexivity|]. intros y Hy. apply H. right. exact Hy.
Qed.

Lemma spec_last_match_in p l r : spec_last_match p l = Some r -> In r l.
Proof.
  induction l as [|a l IH]; simpl; [discriminate|].
  destruct (spec_last_match p l) eqn:E.
  - intros [= ->]. right. apply IH. reflexivity.
  - destruct (p a); [intros [= ->]; left; reflexivity|discriminate].
Qed.

Lemma assoc_set_eq {A} (k : string) (v : A) l : assoc k (assoc_set k v l) = Some v.
Proof.
  induction l as [|[k' v'] l IH]; simpl; [rewrite String.eqb_refl; reflexivity|].
  destruct (String.eqb k k') eqn:E; simpl; rewrite E; [reflexivity|exact IH].
Qed.

Lemma assoc_set_neq {A} (k k' : string) (v : A) l :
  String.eqb k k' = false -> assoc k (assoc_set k' v l) = assoc k l.
Proof.
  intros Hne. induction l as [|[k1 v1] l IH]; simpl; [rewrite Hne; reflexivity|].
  destruct (String.eqb k' k1) eqn:E; simpl.
  - apply String.eqb_eq in E. subst k1. rewrite Hne. reflexivity.
  - destruct (String.eqb k k1); [reflexivity|exact IH].
Qed.

Lemma nodup_strings_assoc {A} (k : string) (a : A) (fs : list (string * A)) :
  nodup_strings (map fst ((k, a) :: fs)) = true -> assoc k fs = None.
Proof.
  simpl. intros H. apply andb_prop in H. destruct H as [H _]. apply negb_true_iff in H.
  induction fs as [|[k1 v1] fs IH]; simpl in *; [reflexivity|].
  apply orb_false_iff in H. destruct H as [H1 H2]. rewrite H1. apply IH. exact H2.
Qed.

Lemma fold_assoc_set (fs : list (string * value)) acc k :
  nodup_strings (map fst fs) = true ->
  assoc k (fold_left (fun acc kv => assoc_set (fst kv) (snd kv) acc) fs acc) =
  match assoc k fs with Some v => Some v | None => assoc k acc end.
Proof.
  revert acc. induction fs as [|[k1 v1] fs IH]; intros acc Hnd; simpl; [reflexivity|].
  pose proof (nodup_strings_assoc k1 v1 fs Hnd) as Hk1.
  simpl in Hnd. apply andb_prop in Hnd. destruct Hnd as [_ Hnd].
  rewrite (IH _ Hnd). destruct (String.eqb k k1) eqn:E.
  - apply String.eqb_eq in E. subst k1. rewrite Hk1. apply assoc_set_eq.
  - destruct (assoc k fs); [reflexivity|]. apply assoc_set_neq. exact E.
Qed.

Lemma spread2_lookup x r :
  plain_object x = true -> plain_object r = true ->
  exists fs, spread2 x r = VObj fs /\
    forall k, assoc k fs = match obj_lookup r k with Some v => Some v | None => obj_lookup x k end.
Proof.
  destruct x as [| | | | | |xs], r as [| | | | | |rs]; simpl; try discriminate.
  intros Hx Hr. eexists. split; [reflexivity|]. intro k.
  rewrite (fold_assoc_set rs _ k Hr), (fold_assoc_set xs _ k Hx).
  destruct (assoc k rs); [reflexivity|]. destruct (assoc k xs); reflexivity.
Qed.

(** C10: take a merge node with both inputs connected to arrays of records
    and a non-empty join key, whose key fields hold primitives.  Its
    [data_out] holds one record per left record, in the left input's order.
    A left record that no right record matches comes out unchanged.  A left
    record matched by the last right record with an equal key (compared as
    [Map] does) comes out as a record in which each field of the right
    record overrides the left record's field of the same name. *)
Theorem processMergeNode_left_outer_join (ed : editor) (nodeId : string) (nd : nodeData)
    (c1 c2 : conn) (key : string) (l1 l2 : list value) :
  find_input ed nodeId "data_in_1" = Some c1 ->
  find_input ed nodeId "data_in_2" = Some c2 ->
  control_text (dom nd) "key" = Ok key ->
  key <> "" ->
  source_output ed c1 = Ok (VArr l1) ->
  source_output ed c2 = Ok (VArr l2) ->
  forallb plain_object l1 = true ->
  forallb plain_object l2 = true ->
  forallb (key_primitive (fst (join_keys key))) l1 = true ->
  forallb (key_primitive (snd (join_keys key))) l2 = true ->
  exists out msg,
    processMergeNode ed nodeId nd = Ok (set_status (set_output (dom nd) "data_out" (VArr out)) msg) /\
    length out = length l1 /\
    forall i x, nth_error l1 i = Some x ->
      exists y, nth_error out i = Some y /\
      match spec_match (fst (join_keys key)) (snd (join_keys key)) x l2 with
      | None => y = x
      | Some r =>
          exists fs, y = VObj fs /\
          forall k, assoc k fs = match obj_lookup r k with Some v => Some v | None => obj_lookup x k end
      end.
Proof.
  intros Hc1 Hc2 Hkey Hne Hs1 Hs2 Hp1 Hp2 Hk1 Hk2.
  destruct (join_keys key) as [lk rk] eqn:Ej. simpl in Hk1, Hk2 |- *.
  rewrite forallb_forall in Hp1, Hp2, Hk1, Hk2.
  assert (Hentries : map_outcome (fun item => k <-- read_key item rk ;;; Ok (k, item)) l2 =
                     Ok (map (fun r => (spec_key r rk, r)) l2)).
  { apply map_outcome_ok. intros r Hr. rewrite (read_key_plain r rk (Hp2 r Hr)). reflexivity. }
  assert (Hprim : forallb (fun r => prim_key (spec_key r rk)) l2 = true).
  { apply forallb_forall. intros r Hr. apply spec_key_prim. apply Hk2. exact Hr. }
  destruct (map_of_spec rk l2 [] Hprim eq_refl) as [m' [Hof Hget]].
  set (f := fun x => match spec_match lk rk x l2 with Some r => spread2 x r | None => x end).
  assert (Hout : map_outcome (fun item1 =>
                   k <-- read_key item1 lk ;;;
                   item2 <-- map_get k m' ;;;
                   match item2 with
                   | Some item2 => Ok (if truthy item2 then spread2 item1 item2 else item1)
                   | None => Ok item1
                   end) l1 = Ok (map f l1)).
  { apply map_outcome_ok. intros x Hx. rewrite (read_key_plain x lk (Hp1 x Hx)). simpl.
    rewrite (Hget _ (spec_key_prim x lk (Hk1 x Hx))). unfold f, spec_match.
    destruct (spec_last_match _ l2) as [r|] eqn:Em; simpl; [|reflexivity].
    pose proof (Hp2 r (spec_last_match_in _ _ _ Em)) as Hr.
    destruct r; try discriminate. reflexivity. }
  exists (map f l1). eexists. split; [|split].
  - unfold processMergeNode. rewrite Hkey. simpl obind. rewrite Hc1, Hc2.
    apply String.eqb_neq in Hne. rewrite Hne, Ej, Hs1, Hs2. simpl obind.
    rewrite Hentries. simpl obind. rewrite Hof. simpl obind. rewrite Hout. simpl obind.
    reflexivity.
  - apply length_map.
  - intros i x Hx. exists (f x). split; [rewrite nth_error_map, Hx; reflexivity|].
    unfold f. destruct (spec_match lk rk x l2) as [r|] eqn:Em; [|reflexivity].
    apply spread2_lookup.
    + apply Hp1. eapply nth_error_In. exact Hx.
    + apply Hp2. eapply spec_last_match_in. exact Em.
Qed.

(** ** Witnesses: the hypotheses of the theorems above hold of concrete graphs *)

Lemma processNodeData_terminates_and_visits_witness :
  exists fuel visited ed',
    processNodeData identity_processors fuel "node_0" scenario_b_editor = ROk visited ed' /\
    forall y, reachable scenario_b_editor "node_0" y -> is_node scenario_b_editor y = true -> In y visited.
Proof.
  apply (processNodeData_terminates_and_visits identity_processors scenario_b_editor "node_0").
  - intros t p Hp ed nodeId nd. injection Hp as <-. exists (dom nd). reflexivity.
  - apply (ranked_acyclic scenario_b_editor (fun x => if String.eqb x "node_0" then 0 else 1)).
    vm_compute. reflexivity.
  - vm_compute. reflexivity.
Defined.

Lemma completeConnection_single_target_witness :
  "node_0" <> "node_1" /\
  match completeConnection (registry trivial_engine) (Some ("node_0", "data_out")) true
          "node_1" "data_in" scenario_b_editor with
  | ROk _ ed' | RThrow _ ed' =>
      filter (fun c => String.eqb (to_node c) "node_1" && String.eqb (to_socket c) "data_in")
             (connections ed') = [mkConn "node_0" "data_out" "node_1" "data_in"] /\
      (forall c, In c (connections scenario_b_editor) ->
                 ~ (to_node c = "node_1" /\ to_socket c = "data_in") -> In c (connections ed'))
  | _ => True
  end.
Proof.
  split; [discriminate|].
  apply (completeConnection_single_target (registry trivial_engine) scenario_b_editor
           "node_0" "data_out" "node_1" "data_in").
  discriminate.
Defined.

Lemma processAggregateNode_scenario_b_witness :
  processAggregateNode scenario_b_editor "node_1" scenario_b_aggregate =
  Ok (set_status
        (set_output (dom scenario_b_aggregate) "data_out"
           (VArr [VObj [("cat", VStr "x"); ("sum_of_v", VNum 3)];
                  VObj [("cat", VStr "y"); ("sum_of_v", VNum 5)]]))
        "Aggregated 3 rows into 2 groups.").
Proof.
  apply (processAggregateNode_scenario_b scenario_b_editor "node_1" scenario_b_aggregate
           (mkConn "node_0" "data_out" "node_1" "data_in")); reflexivity.
Defined.

Lemma recordState_history_bound_witness :
  undoStack (record_all (firstn 52 sample_graphs) empty_history) =
    lastn maxHistory (undoStack empty_history ++ map serialize (firstn 52 sample_graphs)) /\
  (length (undoStack (record_all (firstn 52 sample_graphs) empty_history)) <= maxHistory)%nat.
Proof.
  apply (recordState_history_bound empty_history sample_graphs);
    [reflexivity|simpl; lia|vm_compute; reflexivity].
Defined.

Lemma processNodeData_no_processor_witness :
  processNodeData (registry trivial_engine) 1 "node_0" container_graph =
    forEach_conn (processNodeData (registry trivial_engine) 0) "node_0"
                 (connections container_graph) ["node_0"] container_graph /\
  (forallb (fun c => negb (String.eqb (from_node c) "node_0")) (connections container_graph) = true ->
   processNodeData (registry trivial_engine) 1 "node_0" container_graph = ROk ["node_0"] container_graph).
Proof.
  apply (processNodeData_no_processor trivial_engine 0 "node_0" (plain_node "container" [] [])
           container_graph); reflexivity.
Defined.

Lemma processFilterNode_contained_witness :
  let body := String.append "return " "row.a >" in
  (forall e msg,
     error_message e = Some msg ->
     fn_compile sample_engine body = Some e \/
     (fn_compile sample_engine body = None /\
      filter_rows (fn_call sample_engine body) [VObj [("a", VNum 1)]] = Throw e) ->
     processFilterNode sample_engine (filter_graph "row.a >") "node_1"
       (plain_node "filter" [("condition", FText "row.a >")] []) =
     Ok (set_status (set_output (dom (plain_node "filter" [("condition", FText "row.a >")] []))
                       "data_out" (VArr [])) (String.append "Error: " msg))) /\
  (fn_compile sample_engine body = None ->
   (forall row, In row [VObj [("a", VNum 1)]] -> exists v, fn_call sample_engine body row = Ok v) ->
   exists d, processFilterNode sample_engine (filter_graph "row.a >") "node_1"
               (plain_node "filter" [("condition", FText "row.a >")] []) = Ok d) /\
  (forall pre row post,
     fn_compile sample_engine body = None ->
     [VObj [("a", VNum 1)]] = pre ++ row :: post ->
     (forall r, In r pre -> exists v, fn_call sample_engine body r = Ok v) ->
     fn_call sample_engine body row = NoReturn ->
     processFilterNode sample_engine (filter_graph "row.a >") "node_1"
       (plain_node "filter" [("condition", FText "row.a >")] []) = NoReturn).
Proof.
  apply (processFilterNode_contained sample_engine (filter_graph "row.a >") "node_1"
           (plain_node "filter" [("condition", FText "row.a >")] [])
           (mkConn "node_0" "data_out" "node_1" "data_in") [VObj [("a", VNum 1)]] "row.a >");
    [reflexivity|reflexivity|reflexivity|discriminate].
Defined.

Lemma processMergeNode_left_outer_join_witness :
  exists out msg,
    processMergeNode merge_graph "node_2" merge_node =
      Ok (set_status (set_output (dom merge_node) "data_out" (VArr out)) msg) /\
    length out = length merge_left /\
    forall i x, nth_error merge_left i = Some x ->
      exists y, nth_error out i = Some y /\
      match spec_match (fst (join_keys "id")) (snd (join_keys "id")) x merge_right with
      | None => y = x
      | Some r =>
          exists fs, y = VObj fs /\
          forall k, assoc k fs = match obj_lookup r k with Some v => Some v | None => obj_lookup x k end
      end.
Proof.
  apply (processMergeNode_left_outer_join merge_graph "node_2" merge_node
           (mkConn "node_0" "data_out" "node_2" "data_in_1")
           (mkConn "node_1" "data_out" "node_2" "data_in_2") "id" merge_left merge_right);
    try reflexivity; discriminate.
Defined.

(** * More of the editor: properties *)

(** ** History: [undo], [redo], [recordState] *)

Lemma keeps_stacks_createNode_loaded t x y o :
  truthy (field o "fromSerialization") = true -> keeps stacks (createNode t x y o).
Proof.
  intro Hf. unfold createNode. rewrite Hf.
  repeat keeps_step.
Qed.

Lemma keeps_stacks_deserialize_body P parsed : keeps stacks (deserialize_body P parsed).
Proof.
  unfold deserialize_body, load_node.
  repeat (keeps_step || (apply keeps_stacks_createNode_loaded; unfold field;
                          simpl fold_left; rewrite assoc_set_eq; reflexivity)).
Qed.

Lemma deserialize_stacks P parsed ed :
  match deserialize P parsed ed with
  | ROk _ ed' => stacks ed' = stacks ed /\ isRestoring (hist ed') = false
  | _ => True
  end.
Proof.
  pose proof (keeps_stacks_deserialize_body P parsed (with_restoring ed true)) as Hk.
  unfold deserialize.
  destruct (deserialize_body P parsed (with_restoring ed true)); auto.
Qed.

Lemma rev_cons_inv {A} (l rest : list A) (a : A) :
  rev l = a :: rest -> l = rev rest ++ [a].
Proof.
  intro H. rewrite <- (rev_involutive l), H. reflexivity.
Qed.

Lemma undo_ok_hist P ed ed' :
  (1 < length (undoStack (hist ed)))%nat ->
  undo P ed = ROk tt ed' ->
  undoStack (hist ed') = removelast (undoStack (hist ed)) /\
  redoStack (hist ed') = redoStack (hist ed) ++ [last (undoStack (hist ed)) VUndef] /\
  isRestoring (hist ed') = false.
Proof.
  intros Hlen Hu. unfold undo in Hu.
  destruct (Nat.leb_spec (length (undoStack (hist ed))) 1) as [Hle|_]; [lia|].
  destruct (rev (undoStack (hist ed))) as [|cur rest] eqn:Er.
  - apply (f_equal (@length value)) in Er. rewrite length_rev in Er. simpl in Er. lia.
  - apply rev_cons_inv in Er. rewrite Er, removelast_last, last_last.
    match type of Hu with deserialize P ?p ?e = _ =>
      pose proof (deserialize_stacks P p e) as Hd end.
    rewrite Hu in Hd. destruct Hd as [Hs Hr]. unfold stacks in Hs. simpl in Hs.
    injection Hs as H1 H2. auto.
Qed.

Lemma redo_ok_hist P ed ed' :
  redoStack (hist ed) <> [] ->
  redo P ed = ROk tt ed' ->
  undoStack (hist ed') = undoStack (hist ed) ++ [last (redoStack (hist ed)) VUndef] /\
  redoStack (hist ed') = removelast (redoStack (hist ed)) /\
  isRestoring (hist ed') = false.
Proof.
  intros Hne Hr. unfold redo in Hr.
  destruct (rev (redoStack (hist ed))) as [|nxt rest] eqn:Er.
  - apply (f_equal (@rev value)) in Er. rewrite rev_involutive in Er. contradiction.
  - apply rev_cons_inv in Er. rewrite Er, removelast_last, last_last.
    match type of Hr with deserialize P ?p ?e = _ =>
      pose proof (deserialize_stacks P p e) as Hd end.
    rewrite Hr in Hd. destruct Hd as [Hs Hi]. unfold stacks in Hs. simpl in Hs.
    injection Hs as H1 H2. auto.
Qed.

(** [undo] on a history of at least two states, when it completes, moves
    the current state (the top of the undo stack) onto the redo stack and
    leaves [isRestoring] off. *)
Theorem undo_moves_top P ed ed' :
  (1 < length (undoStack (hist ed)))%nat ->
  undo P ed = ROk tt ed' ->
  undoStack (hist ed') = removelast (undoStack (hist ed)) /\
  redoStack (hist ed') = redoStack (hist ed) ++ [last (undoStack (hist ed)) VUndef] /\
  isRestoring (hist ed') = false.
Proof. apply undo_ok_hist. Qed.

(** [redo] with a non-empty redo stack, when it completes, moves the top
    of the redo stack onto the undo stack and leaves [isRestoring] off. *)
Theorem redo_moves_top P ed ed' :
  redoStack (hist ed) <> [] ->
  redo P ed = ROk tt ed' ->
  undoStack (hist ed') = undoStack (hist ed) ++ [last (redoStack (hist ed)) VUndef] /\
  redoStack (hist ed') = removelast (redoStack (hist ed)) /\
  isRestoring (hist ed') = false.
Proof. apply redo_ok_hist. Qed.

(** An [undo] that completes followed by a [redo] that completes gives
    back the undo and redo stacks of the start. *)
Theorem undo_then_redo_stacks P ed ed1 ed2 :
  (1 < length (undoStack (hist ed)))%nat ->
  undo P ed = ROk tt ed1 -> redo P ed1 = ROk tt ed2 ->
  stacks ed2 = stacks ed.
Proof.
  intros Hlen Hu Hr.
  destruct (undo_ok_hist P ed ed1 Hlen Hu) as (U1 & R1 & _).
  assert (Hne : redoStack (hist ed1) <> []) by (rewrite R1; destruct (redoStack (hist ed)); discriminate).
  destruct (redo_ok_hist P ed1 ed2 Hne Hr) as (U2 & R2 & _).
  unfold stacks. rewrite U2, R2, U1, R1, last_last, removelast_last.
  rewrite <- app_removelast_last; [reflexivity|].
  intro E. rewrite E in Hlen. simpl in Hlen. lia.
Qed.

(** A [redo] that completes followed by an [undo] that completes gives
    back the undo and redo stacks of the start, when the undo stack was
    not empty. *)
Theorem redo_then_undo_stacks P ed ed1 ed2 :
  redoStack (hist ed) <> [] -> undoStack (hist ed) <> [] ->
  redo P ed = ROk tt ed1 -> undo P ed1 = ROk tt ed2 ->
  stacks ed2 = stacks ed.
Proof.
  intros Hne Hune Hr Hu.
  destruct (redo_ok_hist P ed ed1 Hne Hr) as (U1 & R1 & _).
  assert (Hlen : (1 < length (undoStack (hist ed1)))%nat).
  { rewrite U1, length_app. destruct (undoStack (hist ed)); [contradiction|simpl; lia]. }
  destruct (undo_ok_hist P ed1 ed2 Hlen Hu) as (U2 & R2 & _).
  unfold stacks. rewrite U2, R2, U1, R1, last_last, removelast_last.
  rewrite <- app_removelast_last; [reflexivity|exact Hne].
Qed.

Lemma value_eqb_refl : forall v, value_eqb v v = true.
Proof.
  fix IH 1. intros [| | b | q | s | l | fs]; simpl.
  - reflexivity.
  - reflexivity.
  - destruct b; reflexivity.
  - apply Qeq_bool_iff. reflexivity.
  - apply String.eqb_refl.
  - revert l. fix IHl 1. intros [|x l]; [reflexivity|].
    rewrite IH. simpl. apply IHl.
  - revert fs. fix IHf 1. intros [|[k x] fs]; [reflexivity|].
    rewrite String.eqb_refl, IH. simpl. apply IHf.
Qed.

Lemma record_snapshot_twice st h :
  record_snapshot st (record_snapshot st h) = record_snapshot st h.
Proof.
  assert (Hpush : forall u r b,
    record_snapshot st (mkHistory (if Nat.ltb maxHistory (length (u ++ [st])) then tl (u ++ [st]) else u ++ [st]) r b)
    = mkHistory (if Nat.ltb maxHistory (length (u ++ [st])) then tl (u ++ [st]) else u ++ [st]) r b).
  { intros u r b. unfold record_snapshot at 1. simpl.
    assert (Hl : last_opt (if Nat.ltb maxHistory (length (u ++ [st])) then tl (u ++ [st]) else u ++ [st]) = Some st).
    { destruct (Nat.ltb maxHistory (length (u ++ [st]))) eqn:E; [|apply last_opt_app_single].
      destruct u as [|a u]; [discriminate|]. simpl. apply last_opt_app_single. }
    rewrite Hl, value_eqb_refl. reflexivity. }
  set (u1 := undoStack h ++ [st]).
  assert (Epush : record_snapshot st h = h \/
    record_snapshot st h = mkHistory (if Nat.ltb maxHistory (length u1) then tl u1 else u1) [] (isRestoring h)).
  { unfold record_snapshot. destruct (last_opt (undoStack h)) as [top|]; [|right; reflexivity].
    destruct (value_eqb top st) eqn:Eq; [left|right]; reflexivity. }
  destruct Epush as [E|E]; rewrite E; [exact E|apply Hpush].
Qed.

(** Calling [recordState] twice in a row has the effect of calling it
    once: the second call finds the same serialised state on top of the
    undo stack and does nothing. *)
Theorem recordState_twice ed :
  (recordState ;;; recordState) ed = recordState ed.
Proof.
  unfold mbind, recordState.
  destruct (isRestoring (hist ed)) eqn:Er; [rewrite Er; reflexivity|].
  assert (Hr : isRestoring (record_snapshot (serialize ed) (hist ed)) = false).
  { unfold record_snapshot. destruct (last_opt (undoStack (hist ed))) as [top|];
      [destruct (value_eqb top (serialize ed))|]; simpl; exact Er. }
  simpl. rewrite Hr.
  change (serialize (with_hist ed (record_snapshot (serialize ed) (hist ed)))) with (serialize ed).
  rewrite record_snapshot_twice. reflexivity.
Qed.

(** ** Deleting a connection *)

(** Right-clicking the wire at position [index] removes exactly that
    entry of the connection list, whether the reprocessing of its target
    node then returns or throws, and leaves the node table's ids alone; an
    index past the end of the list removes nothing. *)
Theorem deleteConnection_removes P index ed :
  match deleteConnection P index ed with
  | ROk _ ed' | RThrow _ ed' =>
      connections ed' = firstn index (connections ed) ++ skipn (S index) (connections ed) /\
      map fst (nodes ed') = map fst (nodes ed) /\
      ((length (connections ed) <= index)%nat -> connections ed' = connections ed)
  | _ => True
  end.
Proof.
  set (rest := firstn index (connections ed) ++ skipn (S index) (connections ed)).
  assert (Hk : keeps_skeleton (recordState ;;;
                 match nth_error (connections ed) index with
                 | Some c => _ <- processNodeData P max_call_depth (to_node c) ;; ret tt
                 | None => ret tt
                 end)).
  { apply keeps_bind; [apply keeps_recordState|]. intros _.
    destruct (nth_error (connections ed) index);
      [apply keeps_bind; [apply keeps_processNodeData|intros; apply keeps_ret]|apply keeps_ret]. }
  specialize (Hk (with_connections ed rest)).
  assert (Hrest : (length (connections ed) <= index)%nat -> rest = connections ed).
  { intro Hle. unfold rest. rewrite firstn_all2, skipn_all2 by lia. apply app_nil_r. }
  unfold deleteConnection. cbn [mbind get modify splice1].
  fold rest.
  match goal with |- match ?r with _ => _ end => destruct r as [a s'|e s'| |] end; auto;
    unfold skeleton in Hk; simpl in Hk; injection Hk as H1 H2;
    rewrite H2; auto.
Qed.

(** ** Filter node *)

Lemma sublist_refl {A} (l : list A) : sublist l l.
Proof. induction l; [apply sublist_nil|apply sublist_keep; auto]. Qed.

Lemma sublist_nil_l {A} (l : list A) : sublist [] l.
Proof. induction l; [apply sublist_nil|apply sublist_skip; auto]. Qed.

Lemma filter_rows_sublist f rows kept : filter_rows f rows = Ok kept -> sublist kept rows.
Proof.
  revert kept. induction rows as [|row rows IH]; simpl; intros kept H.
  - injection H as <-. constructor.
  - destruct (f row) as [b| | |]; try discriminate. simpl in H.
    destruct (filter_rows f rows) as [k| | |]; try discriminate. simpl in H.
    injection H as <-. destruct (truthy b); [apply sublist_keep|apply sublist_skip]; auto.
Qed.

Lemma assoc_set_output d k v : assoc k (outputs (set_output d k v)) = Some v.
Proof. apply assoc_set_eq. Qed.

(** When the filter node completes, its [data_out] is an array made of
    some of the input rows in their input order (none when the input is
    missing, not an array, or the condition fails), and all of them when
    the condition is empty. *)
Theorem processFilterNode_sublist eng ed nodeId nd d' :
  processFilterNode eng ed nodeId nd = Ok d' ->
  exists kept, assoc "data_out" (outputs d') = Some (VArr kept) /\
    match find_input ed nodeId "data_in" with
    | Some c =>
        match source_output ed c with
        | Ok (VArr rows) =>
            sublist kept rows /\ (control_text (dom nd) "condition" = Ok "" -> kept = rows)
        | _ => kept = []
        end
    | None => kept = []
    end.
Proof.
  unfold processFilterNode. intro H.
  destruct (find_input ed nodeId "data_in") as [c|];
    [|injection H as <-; exists []; split; [apply assoc_set_output|reflexivity]].
  destruct (source_output ed c) as [v| | |]; try discriminate. cbn [obind] in H.
  destruct (control_text (dom nd) "condition") as [cond| | |]; try discriminate. cbn [obind] in H.
  destruct v as [| | | | |rows|]; try (injection H as <-; exists []; split; [apply assoc_set_output|reflexivity]).
  destruct (String.eqb cond "") eqn:Ecd.
  - apply String.eqb_eq in Ecd. subst cond.
    injection H as <-. exists rows. split; [apply assoc_set_output|].
    split; [apply sublist_refl|reflexivity].
  - assert (Hne : cond <> "") by (intro E; rewrite E in Ecd; discriminate).
    assert (Hc : forall e, (m <-- get_prop e "message" ;;;
                  match js_to_string m with
                  | Some msg => Ok (set_status (set_output (dom nd) "data_out" (VArr [])) (String.append "Error: " msg))
                  | None => Stuck
                  end) = Ok d' -> assoc "data_out" (outputs d') = Some (VArr [])).
    { intros e He. destruct (get_prop e "message") as [m| | |]; try discriminate. simpl in He.
      destruct (js_to_string m); [|discriminate]. injection He as <-. apply assoc_set_output. }
    destruct (fn_compile eng (String.append "return " cond)) as [e|].
    + exists []. split; [exact (Hc e H)|]. split; [apply sublist_nil_l|intro E; injection E; contradiction].
    + destruct (filter_rows (fn_call eng (String.append "return " cond)) rows) as [kept|e| |] eqn:Ef;
        try discriminate.
      * injection H as <-. exists kept. split; [apply assoc_set_output|].
        split; [exact (filter_rows_sublist _ _ _ Ef)|intro E; injection E; contradiction].
      * exists []. split; [exact (Hc e H)|]. split; [apply sublist_nil_l|intro E; injection E; contradiction].
Qed.

(** ** Aggregate node *)

Lemma assoc_in {A} (k : string) (l : list (string * A)) a : assoc k l = Some a -> In (k, a) l.
Proof.
  induction l as [|[k' a'] l IH]; simpl; [discriminate|].
  destruct (String.eqb_spec k k') as [->|_]; [intros [= ->]; left; reflexivity|].
  intro H. right. apply IH, H.
Qed.

Lemma in_assoc_set {A} (k k1 : string) (a b : A) (l : list (string * A)) :
  In (k1, b) (assoc_set k a l) -> (k1 = k /\ b = a) \/ In (k1, b) l.
Proof.
  induction l as [|[k' a'] l IH]; simpl.
  - intros [[= -> ->]|[]]. left. split; reflexivity.
  - destruct (String.eqb_spec k k') as [->|_]; simpl.
    + intros [[= -> ->]|H]; [left; split; reflexivity|right; right; exact H].
    + intros [H|H]; [right; left; exact H|]. destruct (IH H) as [H'|H']; [left|right; right]; assumption.
Qed.

Lemma assoc_set_absent {A} (k : string) (a : A) l :
  assoc k l = None -> assoc_set k a l = l ++ [(k, a)].
Proof.
  induction l as [|[k' a'] l IH]; simpl; [reflexivity|].
  destruct (String.eqb k k'); [discriminate|]. intro H. rewrite (IH H). reflexivity.
Qed.

Lemma assoc_none_not_in {A} (k : string) (l : list (string * A)) :
  assoc k l = None -> ~ In k (map fst l).
Proof.
  induction l as [|[k' a'] l IH]; simpl; [auto|].
  destruct (String.eqb_spec k k') as [->|Hne]; [discriminate|].
  intros H [E|E]; [congruence|exact (IH H E)].
Qed.

Lemma concat_assoc_set_app {A} (k : string) (g : list A) (x : A) l :
  assoc k l = Some g ->
  Permutation (concat (map snd (assoc_set k (g ++ [x]) l))) (concat (map snd l) ++ [x]).
Proof.
  induction l as [|[k' g'] l IH]; simpl; [discriminate|].
  destruct (String.eqb k k').
  - intros [= ->]. simpl. rewrite <- !app_assoc. apply Permutation_app_head, Permutation_app_comm.
  - intro H. simpl. rewrite <- app_assoc. apply Permutation_app_head, IH, H.
Qed.

Lemma group_push_ok groupBy key row acc acc' :
  group_push key row acc = Ok acc' ->
  group_key groupBy row = Some key ->
  NoDup (map fst acc) ->
  (forall k g, In (k, g) acc -> g <> [] /\ forall r, In r g -> group_key groupBy r = Some k) ->
  (forall k, In k (map fst acc) -> ~ In k proto_names) ->
  NoDup (map fst acc') /\
  (forall k g, In (k, g) acc' -> g <> [] /\ forall r, In r g -> group_key groupBy r = Some k) /\
  (forall k, In k (map fst acc') -> ~ In k proto_names) /\
  Permutation (concat (map snd acc')) (concat (map snd acc) ++ [row]).
Proof.
  unfold group_push. intros Hp Hrow Hnd Hg Hpr.
  destruct (assoc key acc) as [rows0|] eqn:Ea.
  - injection Hp as <-. rewrite (map_fst_assoc_set _ _ _ _ Ea).
    split; [exact Hnd|]. split; [|split; [exact Hpr|apply concat_assoc_set_app, Ea]].
    intros k g Hin. destruct (in_assoc_set _ _ _ _ _ Hin) as [[-> ->]|H]; [|apply Hg, H].
    split; [destruct rows0; discriminate|].
    intros r Hr. apply in_app_or in Hr. destruct Hr as [Hr|[<-|[]]]; [|exact Hrow].
    exact (proj2 (Hg _ _ (assoc_in _ _ _ Ea)) r Hr).
  - destruct (existsb (String.eqb key) proto_names) eqn:Ep; [discriminate|].
    injection Hp as <-. rewrite (assoc_set_absent _ _ _ Ea), map_app.
    pose proof (assoc_none_not_in _ _ Ea) as Hni.
    split; [|split; [|split]].
    + apply NoDup_app; [exact Hnd|repeat constructor; simpl; tauto|].
      intros k Hk [<-|[]]. contradiction.
    + intros k g Hin. apply in_app_or in Hin. destruct Hin as [H|[[= <- <-]|[]]]; [apply Hg, H|].
      split; [discriminate|]. intros r [<-|[]]. exact Hrow.
    + intros k Hk. apply in_app_or in Hk. destruct Hk as [Hk|[<-|[]]]; [apply Hpr, Hk|].
      intro Hin. simpl in Hin.
      assert (existsb (String.eqb key) proto_names = true)
        by (apply existsb_exists; exists key; split; [exact Hin|apply String.eqb_refl]).
      congruence.
    + rewrite map_app, concat_app. simpl. rewrite ?app_nil_r. reflexivity.
Qed.

Lemma group_rows_ok groupBy rows acc acc' :
  group_rows groupBy rows acc = Ok acc' ->
  NoDup (map fst acc) ->
  (forall k g, In (k, g) acc -> g <> [] /\ forall r, In r g -> group_key groupBy r = Some k) ->
  (forall k, In k (map fst acc) -> ~ In k proto_names) ->
  NoDup (map fst acc') /\
  (forall k g, In (k, g) acc' -> g <> [] /\ forall r, In r g -> group_key groupBy r = Some k) /\
  (forall k, In k (map fst acc') -> ~ In k proto_names) /\
  Permutation (concat (map snd acc')) (concat (map snd acc) ++ rows).
Proof.
  revert acc. induction rows as [|row rows IH]; intros acc H Hnd Hg Hpr; simpl in H.
  - injection H as <-. rewrite app_nil_r. auto.
  - destruct (read_key row groupBy) as [k| | |] eqn:Ek; try discriminate. cbn [obind] in H.
    destruct k as [v|]; [|discriminate]. cbn [obind] in H.
    destruct (js_to_string v) as [key|] eqn:Ev; [|discriminate]. cbn [obind] in H.
    destruct (group_push key row acc) as [acc1| | |] eqn:Ep; try discriminate. cbn [obind] in H.
    assert (Hk : group_key groupBy row = Some key) by (unfold group_key; rewrite Ek; exact Ev).
    destruct (group_push_ok groupBy key row acc acc1 Ep Hk Hnd Hg Hpr) as (Hnd1 & Hg1 & Hpr1 & Hp1).
    destruct (IH acc1 H Hnd1 Hg1 Hpr1) as (Hnd2 & Hg2 & Hpr2 & Hp2).
    split; [exact Hnd2|]. split; [exact Hg2|]. split; [exact Hpr2|].
    rewrite Hp2. rewrite (app_assoc _ [row] rows). apply Permutation_app_tail, Hp1.
Qed.

Lemma insert_by_index_perm {A} k i (a : A) l :
  Permutation (insert_by_index k i a l) ((k, a) :: l).
Proof.
  induction l as [|[k' a'] l IH]; simpl; [reflexivity|].
  destruct (array_index k') as [i'|]; [|reflexivity].
  destruct (Z.ltb i i'); [reflexivity|].
  etransitivity; [apply perm_skip, IH|apply perm_swap].
Qed.

Lemma filter_split {A} (p q : A -> bool) l :
  (forall x, q x = negb (p x)) -> Permutation (filter p l ++ filter q l) l.
Proof.
  intro Hq. induction l as [|x l IH]; simpl; [reflexivity|].
  rewrite Hq. destruct (p x); simpl.
  - apply perm_skip, IH.
  - rewrite <- Permutation_middle. apply perm_skip, IH.
Qed.

Lemma ordered_fields_perm {A} (fs : list (string * A)) : Permutation (ordered_fields fs) fs.
Proof.
  induction fs as [|[k a] fs IH]; simpl; [reflexivity|].
  destruct (array_index k) as [i|].
  - etransitivity; [apply insert_by_index_perm|apply perm_skip, IH].
  - rewrite <- Permutation_middle. apply perm_skip.
    etransitivity; [|exact IH]. apply filter_split.
    intros [k' a']. simpl. destruct (array_index k'); reflexivity.
Qed.

Lemma concat_snd_perm {A B} (l1 l2 : list (A * list B)) :
  Permutation l1 l2 -> Permutation (concat (map snd l1)) (concat (map snd l2)).
Proof.
  induction 1 as [|x l1 l2 _ IH|x y l|l1 l2 l3 _ IH1 _ IH2]; simpl.
  - reflexivity.
  - apply Permutation_app_head, IH.
  - rewrite !app_assoc. apply Permutation_app_tail, Permutation_app_comm.
  - etransitivity; eassumption.
Qed.

Lemma map_outcome_forall2 {A B} (f : A -> outcome B) l out :
  map_outcome f l = Ok out -> Forall2 (fun x y => f x = Ok y) l out.
Proof.
  revert out. induction l as [|x l IH]; simpl; intros out H.
  - injection H as <-. constructor.
  - destruct (f x) as [y| | |] eqn:Ef; try discriminate. cbn [obind] in H.
    destruct (map_outcome f l) as [ys| | |]; try discriminate. cbn [obind] in H.
    injection H as <-. constructor; auto.
Qed.

(** When the aggregate node completes on an array input with both keys
    set, its [data_out] holds one record per group, and the groups split
    the input rows: together they hold every row exactly once, their names
    are distinct, none is empty, and each row sits in the group named by
    [String(row[groupBy])].  The record of a group holds, in this order,
    its name under [groupBy] and one more field,
    [aggFunc + '_of_' + aggKey] (its value, computed in floating point, is
    left open). *)
Theorem processAggregateNode_groups ed nodeId nd c groupBy aggFunc aggKey rows d' :
  control_text (dom nd) "groupBy" = Ok groupBy ->
  control_text (dom nd) "aggFunc" = Ok aggFunc ->
  control_text (dom nd) "aggKey" = Ok aggKey ->
  find_input ed nodeId "data_in" = Some c ->
  source_output ed c = Ok (VArr rows) ->
  groupBy <> "" -> aggKey <> "" ->
  processAggregateNode ed nodeId nd = Ok d' ->
  exists groups result,
    assoc "data_out" (outputs d') = Some (VArr result) /\
    Permutation (concat (map snd groups)) rows /\
    NoDup (map fst groups) /\
    (forall k g, In (k, g) groups -> g <> [] /\ forall r, In r g -> group_key groupBy r = Some k) /\
    Forall2 (fun kg out => exists v,
               out = VObj (assoc_set (String.append aggFunc (String.append "_of_" aggKey)) v
                                     [(groupBy, VStr (fst kg))]))
            groups result.
Proof.
  intros Hg Hf Hk Hc Hs Hgb Hak H. unfold processAggregateNode in H.
  rewrite Hg, Hf, Hk in H. cbn [obind] in H. rewrite Hc in H.
  destruct (String.eqb_spec groupBy "") as [E|_]; [contradiction|].
  destruct (String.eqb_spec aggKey "") as [E|_]; [contradiction|]. simpl orb in H.
  rewrite Hs in H. cbn [obind] in H.
  destruct (group_rows groupBy rows []) as [acc| | |] eqn:Eg; try discriminate. cbn [obind] in H.
  match type of H with context [map_outcome ?f (ordered_fields acc)] =>
    destruct (map_outcome f (ordered_fields acc)) as [result| | |] eqn:Em; try discriminate end.
  cbn [obind] in H. injection H as <-.
  destruct (group_rows_ok groupBy rows [] acc Eg) as (Hnd & Hgr & _ & Hp);
    [constructor|intros k g []|intros k []|].
  pose proof (ordered_fields_perm acc) as Ho.
  exists (ordered_fields acc), result. split; [apply assoc_set_output|].
  split; [etransitivity; [apply concat_snd_perm, Ho|exact Hp]|].
  split; [apply (Permutation_NoDup (Permutation_map fst (Permutation_sym Ho)) Hnd)|].
  split; [intros k g Hin; apply Hgr, (Permutation_in _ Ho Hin)|].
  apply map_outcome_forall2 in Em. clear -Em.
  induction Em as [|kg out l l' Hx _ IH]; constructor; [|exact IH].
  destruct (aggregate_value aggFunc aggKey (snd kg)) as [v| | |]; try discriminate.
  cbn [obind] in Hx. injection Hx as <-. exists v. reflexivity.
Qed.

Lemma group_key_read groupBy x k :
  group_key groupBy x = Some k -> exists v, read_key x groupBy = Ok (KVal v) /\ js_to_string v = Some k.
Proof.
  unfold group_key. destruct (read_key x groupBy) as [[v|]| | |]; try discriminate.
  intro H. exists v. split; [reflexivity|exact H].
Qed.

Lemma group_rows_proto_throws groupBy pre r post k acc :
  (forall k', In k' (map fst acc) -> ~ In k' proto_names) ->
  Forall (fun x => group_key groupBy x <> None) pre ->
  group_key groupBy r = Some k -> In k proto_names ->
  group_rows groupBy (pre ++ r :: post) acc = Throw (type_error "acc[key].push is not a function").
Proof.
  revert acc. induction pre as [|x pre IH]; intros acc Hpr Hpre Hr Hk; simpl.
  - destruct (group_key_read _ _ _ Hr) as (v & Er & Ev). rewrite Er. cbn [obind]. rewrite Ev.
    cbn [obind]. unfold group_push.
    destruct (assoc k acc) as [g|] eqn:Ea.
    + exfalso. apply (Hpr k); [|exact Hk].
      apply (in_map fst _ _ (assoc_in _ _ _ Ea)).
    + assert (Ee : existsb (String.eqb k) proto_names = true)
        by (apply existsb_exists; exists k; split; [exact Hk|apply String.eqb_refl]).
      rewrite Ee. reflexivity.
  - inversion Hpre as [|? ? Hx Hpre']. subst.
    destruct (group_key groupBy x) as [kx|] eqn:Ex; [|contradiction].
    destruct (group_key_read _ _ _ Ex) as (v & Er & Ev). rewrite Er. cbn [obind]. rewrite Ev.
    cbn [obind]. unfold group_push at 1.
    destruct (assoc kx acc) as [g|] eqn:Ea.
    + cbn [obind]. apply IH; auto. rewrite (map_fst_assoc_set _ _ _ _ Ea). exact Hpr.
    + destruct (existsb (String.eqb kx) proto_names) eqn:Ep; [reflexivity|].
      cbn [obind]. apply IH; auto.
      rewrite (assoc_set_absent _ _ _ Ea), map_app. intros k' Hk' Hin.
      apply in_app_or in Hk'. destruct Hk' as [Hk'|[<-|[]]]; [exact (Hpr k' Hk' Hin)|].
      assert (existsb (String.eqb kx) proto_names = true)
        by (apply existsb_exists; exists kx; split; [exact Hin|apply String.eqb_refl]).
      congruence.
Qed.

(** A row whose group value converts to the name of an [Object.prototype]
    member ([constructor], [toString], [__proto__], ...) makes the
    aggregate node throw the TypeError [acc[key].push is not a function],
    which the node does not catch, once every row before it has a group
    value that converts to a string. *)
Theorem processAggregateNode_proto_group_throws ed nodeId nd c groupBy aggFunc aggKey pre r post k :
  control_text (dom nd) "groupBy" = Ok groupBy ->
  control_text (dom nd) "aggFunc" = Ok aggFunc ->
  control_text (dom nd) "aggKey" = Ok aggKey ->
  find_input ed nodeId "data_in" = Some c ->
  source_output ed c = Ok (VArr (pre ++ r :: post)) ->
  groupBy <> "" -> aggKey <> "" ->
  Forall (fun x => group_key groupBy x <> None) pre ->
  group_key groupBy r = Some k -> In k proto_names ->
  processAggregateNode ed nodeId nd = Throw (type_error "acc[key].push is not a function").
Proof.
  intros Hg Hf Hk Hc Hs Hgb Hak Hpre Hr Hin. unfold processAggregateNode.
  rewrite Hg, Hf, Hk. cbn [obind]. rewrite Hc.
  destruct (String.eqb_spec groupBy "") as [E|_]; [contradiction|].
  destruct (String.eqb_spec aggKey "") as [E|_]; [contradiction|]. simpl orb.
  rewrite Hs. cbn [obind].
  rewrite (group_rows_proto_throws groupBy pre r post k [] (fun _ H => match H with end) Hpre Hr Hin).
  reflexivity.
Qed.

(** ** CSV parser node *)

Lemma csv_fill_notin hs vals i0 row h :
  ~ In h hs -> assoc h (csv_fill hs vals i0 row) = assoc h row.
Proof.
  revert i0 row. induction hs as [|h' hs IH]; intros i0 row Hn; simpl; [reflexivity|].
  rewrite IH by (intro; apply Hn; right; assumption).
  destruct (String.eqb h' "__proto__"); [reflexivity|].
  apply assoc_set_neq. apply String.eqb_neq. intro E. apply Hn. left. symmetry. exact E.
Qed.

Lemma csv_fill_lookup hs vals i0 row h i :
  nth_error hs i = Some h -> h <> "__proto__" ->
  (forall i', (i < i')%nat -> nth_error hs i' <> Some h) ->
  assoc h (csv_fill hs vals i0 row) =
    Some (match nth_error vals (i0 + i) with Some s => VStr s | None => VUndef end).
Proof.
  revert i0 row i. induction hs as [|h' hs IH]; intros i0 row i Hi Hp Hlast;
    [destruct i; discriminate|].
  destruct i as [|i]; simpl in Hi |- *.
  - injection Hi as ->. rewrite csv_fill_notin.
    + destruct (String.eqb_spec h "__proto__") as [E|_]; [contradiction|].
      rewrite Nat.add_0_r. apply assoc_set_eq.
    + intro Hin. apply In_nth_error in Hin. destruct Hin as [j Hj].
      apply (Hlast (S j)); [lia|exact Hj].
  - rewrite (IH (S i0) _ i Hi Hp).
    + rewrite Nat.add_succ_r. reflexivity.
    + intros i' Hi'. apply (Hlast (S i')). lia.
Qed.

(** A CSV node fed a string completes.  Its [data_out] has one record
    per line after the header line of the trimmed text.  In the record of
    a line, a header other than [__proto__] holds the trimmed field of the
    line at the header's position, or [undefined] when the line is
    shorter; when a header repeats, its last position counts. *)
Theorem processCsvNode_rows ed nodeId nd c s :
  find_input ed nodeId "csv_in" = Some c ->
  source_output ed c = Ok (VStr s) ->
  exists rows,
    processCsvNode ed nodeId nd = Ok (set_output (dom nd) "data_out" (VArr rows)) /\
    length rows = (length (csv_lines s) - 1)%nat /\
    forall j line row i h,
      nth_error (tl (csv_lines s)) j = Some line -> nth_error rows j = Some row ->
      nth_error (map js_trim (split_on "," (hd "" (csv_lines s)))) i = Some h ->
      h <> "__proto__" ->
      (forall i', (i < i')%nat -> nth_error (map js_trim (split_on "," (hd "" (csv_lines s)))) i' <> Some h) ->
      obj_lookup row h =
        Some (match nth_error (map js_trim (split_on "," line)) i with
              | Some v => VStr v
              | None => VUndef
              end).
Proof.
  intros Hc Hs. exists (csv_rows s). split.
  - unfold processCsvNode. rewrite Hc, Hs. cbn [obind].
    unfold js_or. destruct (truthy (VStr s)) eqn:Et; [reflexivity|].
    destruct s; [reflexivity|discriminate].
  - unfold csv_rows. destruct (csv_lines s) as [|hdr [|l1 rest]] eqn:El.
    + split; [reflexivity|]. intros j line row i h Hj. destruct j; discriminate.
    + split; [reflexivity|]. intros j line row i h Hj. destruct j; discriminate.
    + split; [rewrite length_map; simpl; lia|].
      intros j line row i h Hj Hr Hh Hp Hlast. simpl in Hj, Hh, Hlast.
      rewrite nth_error_map, Hj in Hr. injection Hr as <-. simpl.
      rewrite (csv_fill_lookup _ _ 0 [] h i Hh Hp Hlast). reflexivity.
Qed.

(** ** Find & Replace node *)

Lemma append_empty_r s : String.append s "" = s.
Proof. induction s as [|c s IH]; simpl; [reflexivity|rewrite IH; reflexivity]. Qed.

Lemma length_append s t : String.length (String.append s t) = (String.length s + String.length t)%nat.
Proof. induction s as [|c s IH]; simpl; [reflexivity|rewrite IH; reflexivity]. Qed.

Lemma length_list_ascii s : length (list_ascii_of_string s) = String.length s.
Proof. induction s as [|c s IH]; simpl; [reflexivity|rewrite IH; reflexivity]. Qed.

Lemma substring_length n m s :
  (n + m <= String.length s)%nat -> String.length (substring n m s) = m.
Proof.
  revert n m. induction s as [|c s IH]; intros n m H; simpl in H.
  - destruct n, m; simpl; try reflexivity; lia.
  - destruct n as [|n]; [destruct m as [|m]|]; simpl; [reflexivity| |].
    + rewrite IH; [reflexivity|lia].
    + apply IH. lia.
Qed.

Lemma substring_adj a b c s :
  (a + b + c <= String.length s)%nat ->
  String.append (substring a b s) (substring (a + b) c s) = substring a (b + c) s.
Proof.
  revert a b. induction s as [|ch s IH]; intros a b H; simpl in H.
  - assert (a = 0 /\ b = 0 /\ c = 0)%nat as (-> & -> & ->) by lia. reflexivity.
  - destruct a as [|a].
    + destruct b as [|b]; simpl; [reflexivity|].
      f_equal. apply (IH 0 b). simpl. lia.
    + simpl. apply IH. lia.
Qed.

Lemma substring_full s : substring 0 (String.length s - 0) s = s.
Proof.
  rewrite Nat.sub_0_r. induction s as [|c s IH]; simpl; [reflexivity|rewrite IH; reflexivity].
Qed.

Lemma list_ascii_substring n m s :
  list_ascii_of_string (substring n m s) = firstn m (skipn n (list_ascii_of_string s)).
Proof.
  revert n m. induction s as [|c s IH]; intros n m.
  - destruct n, m; reflexivity.
  - destruct n as [|n]; [destruct m as [|m]|]; simpl; [reflexivity| |].
    + rewrite IH. reflexivity.
    + apply IH.
Qed.

Lemma lit_prefix_length cs p l : lit_prefix cs p l = true -> (length p <= length l)%nat.
Proof.
  revert l. induction p as [|a p IH]; intros [|b l]; simpl; try lia; try discriminate.
  intro H. apply andb_prop in H. specialize (IH l (proj2 H)). lia.
Qed.

Lemma lit_prefix_canon cs p l :
  lit_prefix cs p l = true -> map (canon cs) (firstn (length p) l) = map (canon cs) p.
Proof.
  revert l. induction p as [|a p IH]; intros [|b l]; simpl; try reflexivity; try discriminate.
  intro H. apply andb_prop in H. destruct H as [H1 H2].
  apply N.eqb_eq in H1. rewrite H1, (IH l H2). reflexivity.
Qed.

Lemma spaced_weaken plen len n n' ps :
  (n <= n')%nat -> spaced plen len n' ps -> spaced plen len n ps.
Proof.
  destruct ps as [|q ps]; simpl; [auto|]. intros Hn (H1 & H2 & H3). repeat split; auto; lia.
Qed.

Lemma lit_scan_spaced cs p l pos skip :
  p <> [] -> spaced (length p) (pos + length l) (pos + skip) (lit_scan cs p l pos skip).
Proof.
  intro Hp. revert pos skip. induction l as [|a l IH]; intros pos skip; simpl; [exact I|].
  destruct skip as [|k].
  - destruct (lit_prefix cs p (a :: l)) eqn:E.
    + pose proof (lit_prefix_length _ _ _ E) as Hl. simpl in Hl.
      simpl. split; [lia|]. split; [lia|].
      replace (pos + S (length l))%nat with (S pos + length l)%nat by lia.
      replace (pos + length p)%nat with (S pos + (length p - 1))%nat
        by (destruct p; [contradiction|simpl; lia]).
      apply IH.
    + apply (spaced_weaken _ _ _ (S pos + 0)); [lia|].
      replace (pos + S (length l))%nat with (S pos + length l)%nat by lia. apply IH.
  - replace (pos + S k)%nat with (S pos + k)%nat by lia.
    replace (pos + S (length l))%nat with (S pos + length l)%nat by lia. apply IH.
Qed.

Lemma spaced_firstn1 plen len n ps : spaced plen len n ps -> spaced plen len n (firstn 1 ps).
Proof. destruct ps as [|q ps]; simpl; [auto|]. intros (H1 & H2 & _). auto. Qed.

Lemma lit_scan_none cs p l pos skip :
  (forall i, lit_prefix cs p (skipn i l) = false) -> lit_scan cs p l pos skip = [].
Proof.
  revert pos skip. induction l as [|a l IH]; intros pos skip H; simpl; [reflexivity|].
  assert (H' : forall i, lit_prefix cs p (skipn i l) = false) by (intro i; apply (H (S i))).
  destruct skip as [|k]; [rewrite (H 0 : lit_prefix cs p (a :: l) = false)|]; apply IH, H'.
Qed.

Lemma get_substitution_plain tpl m pre post :
  contains_char "$" tpl = false -> get_substitution tpl m pre post = tpl.
Proof.
  induction tpl as [|c r IH]; intro H; [reflexivity|].
  unfold contains_char in H. simpl in H. apply orb_false_iff in H. destruct H as [Hc Hr].
  specialize (IH Hr).
  destruct c as [[] [] [] [] [] [] [] []]; try discriminate Hc; simpl; rewrite IH; reflexivity.
Qed.

Lemma replace_matches_length str tpl plen ps next :
  contains_char "$" tpl = false -> (next <= String.length str)%nat ->
  spaced plen (String.length str) next ps ->
  (String.length (replace_matches str tpl plen ps next) + length ps * plen =
   String.length str - next + length ps * String.length tpl)%nat.
Proof.
  intro Ht. revert next. induction ps as [|q ps IH]; intros next Hn Hs; simpl.
  - rewrite substring_length by lia. lia.
  - destruct Hs as (H1 & H2 & H3).
    rewrite !length_append, get_substitution_plain by exact Ht.
    rewrite substring_length by lia.
    specialize (IH (q + plen)%nat H2 H3). lia.
Qed.

Lemma replace_matches_amp str plen ps next :
  (next <= String.length str)%nat ->
  spaced plen (String.length str) next ps ->
  replace_matches str "$&" plen ps next = substring next (String.length str - next) str.
Proof.
  revert next. induction ps as [|q ps IH]; intros next Hn Hs; simpl; [reflexivity|].
  destruct Hs as (H1 & H2 & H3). rewrite append_empty_r, (IH _ H2 H3).
  rewrite (substring_adj q plen (String.length str - (q + plen))) by lia.
  replace q with (next + (q - next))%nat at 2 3 by lia.
  rewrite substring_adj by lia. f_equal. lia.
Qed.

Lemma js_or_str s : js_or (VStr s) (VStr "") = VStr s.
Proof. destruct s; reflexivity. Qed.

Lemma find_replace_literal_ok ed nodeId nd c s f r g cs :
  find_input ed nodeId "input_text" = Some c ->
  source_output ed c = Ok (VStr s) ->
  control_text (dom nd) "find" = Ok f ->
  control_text (dom nd) "replace" = Ok r ->
  control_check (dom nd) "regex" = Ok false ->
  control_check (dom nd) "global" = Ok g ->
  control_check (dom nd) "case_sensitive" = Ok cs ->
  f <> "" ->
  let ms := lit_scan cs (list_ascii_of_string f) (list_ascii_of_string s) 0 0 in
  processFindReplaceNode ed nodeId nd =
    Ok (set_status (set_output (dom nd) "output_text"
          (VStr (replace_matches s r (String.length f) (if g then ms else firstn 1 ms) 0)))
          (matches_status (length ms))).
Proof.
  intros Hc Hs Hf Hr Hx Hg Hcs Hne ms. unfold processFindReplaceNode.
  rewrite Hc, Hs. cbn [obind]. rewrite js_or_str, Hf, Hr. cbn [obind].
  destruct (String.eqb_spec f "") as [E|_]; [contradiction|].
  unfold find_replace_try. rewrite Hx, Hg, Hcs. cbn [obind].
  rewrite length_list_ascii. reflexivity.
Qed.

Lemma lit_scan_spaced0 cs f s :
  f <> "" ->
  spaced (String.length f) (String.length s) 0
    (lit_scan cs (list_ascii_of_string f) (list_ascii_of_string s) 0 0).
Proof.
  intro Hf. rewrite <- (length_list_ascii f), <- (length_list_ascii s).
  apply (lit_scan_spaced cs _ _ 0 0). destruct f; [contradiction|discriminate].
Qed.

(** With the [regex] box unchecked (and ASCII text when the search
    ignores case), the status counts the [n] non-overlapping occurrences
    of the find text; when the replacement contains no [$], each of the
    [m] replaced occurrences (all [n] when [global] is checked, at most
    one otherwise) changes the length of the text by the difference of
    the lengths of the replacement and the find text. *)
Theorem processFindReplaceNode_literal_length ed nodeId nd c s f r g cs :
  find_input ed nodeId "input_text" = Some c ->
  source_output ed c = Ok (VStr s) ->
  control_text (dom nd) "find" = Ok f ->
  control_text (dom nd) "replace" = Ok r ->
  control_check (dom nd) "regex" = Ok false ->
  control_check (dom nd) "global" = Ok g ->
  control_check (dom nd) "case_sensitive" = Ok cs ->
  f <> "" ->
  contains_char "$" r = false ->
  exists n out,
    processFindReplaceNode ed nodeId nd =
      Ok (set_status (set_output (dom nd) "output_text" (VStr out)) (matches_status n)) /\
    (String.length out + (if g then n else Nat.min n 1) * String.length f =
     String.length s + (if g then n else Nat.min n 1) * String.length r)%nat.
Proof.
  intros Hc Hs Hf Hr Hx Hg Hcs Hne Hd.
  pose proof (find_replace_literal_ok ed nodeId nd c s f r g cs Hc Hs Hf Hr Hx Hg Hcs Hne) as H.
  cbv zeta in H. set (ms := lit_scan cs (list_ascii_of_string f) (list_ascii_of_string s) 0 0) in H.
  pose proof (lit_scan_spaced0 cs f s Hne) as Hsp. fold ms in Hsp.
  eexists _, _. split; [exact H|].
  destruct g; cbv beta iota.
  - pose proof (replace_matches_length s r (String.length f) ms 0 Hd ltac:(lia) Hsp). lia.
  - pose proof (replace_matches_length s r (String.length f) (firstn 1 ms) 0 Hd ltac:(lia)
                  (spaced_firstn1 _ _ _ _ Hsp)) as E.
    rewrite length_firstn, Nat.min_comm in E. set (k := Nat.min (length ms) 1) in *. lia.
Qed.

(** With the [regex] box unchecked, the replacement [$&] (the matched
    text itself) gives back the input text unchanged. *)
Theorem processFindReplaceNode_dollar_amp ed nodeId nd c s f g cs :
  find_input ed nodeId "input_text" = Some c ->
  source_output ed c = Ok (VStr s) ->
  control_text (dom nd) "find" = Ok f ->
  control_text (dom nd) "replace" = Ok "$&" ->
  control_check (dom nd) "regex" = Ok false ->
  control_check (dom nd) "global" = Ok g ->
  control_check (dom nd) "case_sensitive" = Ok cs ->
  f <> "" ->
  exists n,
    processFindReplaceNode ed nodeId nd =
      Ok (set_status (set_output (dom nd) "output_text" (VStr s)) (matches_status n)).
Proof.
  intros Hc Hs Hf Hr Hx Hg Hcs Hne.
  pose proof (find_replace_literal_ok ed nodeId nd c s f "$&" g cs Hc Hs Hf Hr Hx Hg Hcs Hne) as H.
  cbv zeta in H. set (ms := lit_scan cs (list_ascii_of_string f) (list_ascii_of_string s) 0 0) in H.
  pose proof (lit_scan_spaced0 cs f s Hne) as Hsp. fold ms in Hsp.
  eexists. rewrite H. do 3 f_equal.
  rewrite replace_matches_amp; [f_equal; apply substring_full|lia|].
  destruct g; [exact Hsp|apply spaced_firstn1, Hsp].
Qed.

Lemma substring_beyond i n s : (String.length s <= i)%nat -> substring i n s = "".
Proof.
  revert i. induction s as [|a s IH]; intros i Hi; [destruct i, n; reflexivity|].
  destruct i as [|i]; simpl in Hi; [lia|]. simpl. apply IH. lia.
Qed.

Lemma occurs_nowhere cs f s :
  f <> "" ->
  forallb (fun i => negb (occurs_at cs f s i)) (seq 0 (String.length s)) = true ->
  forall i, map (canon cs) (list_ascii_of_string (substring i (String.length f) s)) <>
            map (canon cs) (list_ascii_of_string f).
Proof.
  intros Hne Hb i E. destruct (Nat.ltb_spec i (String.length s)) as [Hi|Hi].
  - rewrite forallb_forall in Hb. specialize (Hb i (proj2 (in_seq _ _ _) (conj (Nat.le_0_l _) Hi))).
    unfold occurs_at in Hb. destruct (list_eq_dec _ _ _); [discriminate|contradiction].
  - rewrite substring_beyond in E by exact Hi. destruct f; [contradiction|discriminate].
Qed.

(** With the [regex] box unchecked, a find text that occurs nowhere in
    the input (comparing upper-cased letters when the search ignores case)
    leaves the text unchanged and reports no match. *)
Theorem processFindReplaceNode_no_occurrence ed nodeId nd c s f r g cs :
  find_input ed nodeId "input_text" = Some c ->
  source_output ed c = Ok (VStr s) ->
  control_text (dom nd) "find" = Ok f ->
  control_text (dom nd) "replace" = Ok r ->
  control_check (dom nd) "regex" = Ok false ->
  control_check (dom nd) "global" = Ok g ->
  control_check (dom nd) "case_sensitive" = Ok cs ->
  f <> "" ->
  forallb (fun i => negb (occurs_at cs f s i)) (seq 0 (String.length s)) = true ->
  processFindReplaceNode ed nodeId nd =
    Ok (set_status (set_output (dom nd) "output_text" (VStr s)) "No matches found").
Proof.
  intros Hc Hs Hf Hr Hx Hg Hcs Hne Hno'.
  pose proof (occurs_nowhere cs f s Hne Hno') as Hno.
  pose proof (find_replace_literal_ok ed nodeId nd c s f r g cs Hc Hs Hf Hr Hx Hg Hcs Hne) as H.
  simpl in H. rewrite lit_scan_none in H.
  - rewrite H. destruct g; simpl; rewrite substring_full; reflexivity.
  - intro i. destruct (lit_prefix cs (list_ascii_of_string f) (skipn i (list_ascii_of_string s))) eqn:E;
      [|reflexivity].
    exfalso. apply (Hno i). rewrite list_ascii_substring, <- length_list_ascii.
    apply lit_prefix_canon, E.
Qed.

(** ** Syntax highlighter *)

Lemma drop_tags_app st a b :
  drop_tags st (String.append a b) = String.append (drop_tags st a) (drop_tags (tag_state st a) b).
Proof.
  revert st. induction a as [|c a IH]; intro st; simpl; [reflexivity|].
  destruct st; [apply IH|]. destruct (Ascii.eqb c "<"); [apply IH|]. simpl. rewrite IH. reflexivity.
Qed.

Lemma tag_state_app st a b : tag_state st (String.append a b) = tag_state (tag_state st a) b.
Proof.
  revert st. induction a as [|c a IH]; intro st; simpl; [reflexivity|].
  destruct st; [apply IH|]. destruct (Ascii.eqb c "<"); apply IH.
Qed.

Lemma contains_char_cons a c r : contains_char a (String c r) = (Ascii.eqb a c || contains_char a r)%bool.
Proof. reflexivity. Qed.

Lemma contains_char_app a s t :
  contains_char a (String.append s t) = (contains_char a s || contains_char a t)%bool.
Proof.
  induction s as [|c s IH]; simpl; [reflexivity|].
  rewrite !contains_char_cons, IH. apply orb_assoc.
Qed.

Lemma drop_in_tag t :
  contains_char ">" t = false -> drop_tags true t = "" /\ tag_state true t = true.
Proof.
  induction t as [|c t IH]; intro H; [split; reflexivity|].
  rewrite contains_char_cons in H. apply orb_false_iff in H. destruct H as [Hc Ht].
  rewrite Ascii.eqb_sym in Hc. simpl. rewrite Hc. apply IH, Ht.
Qed.

Lemma drop_text t :
  contains_char "<" t = false -> drop_tags false t = t /\ tag_state false t = false.
Proof.
  induction t as [|c t IH]; intro H; [split; reflexivity|].
  rewrite contains_char_cons in H. apply orb_false_iff in H. destruct H as [Hc Ht].
  rewrite Ascii.eqb_sym in Hc. simpl. rewrite Hc. destruct (IH Ht) as [-> ->]. split; reflexivity.
Qed.

Lemma escape_char_angles c :
  contains_char "<" (escape_char c) = false /\ contains_char ">" (escape_char c) = false.
Proof.
  unfold escape_char.
  destruct (Ascii.eqb c "&"); [split; reflexivity|].
  destruct (Ascii.eqb c "<") eqn:E1; [split; reflexivity|].
  destruct (Ascii.eqb c ">") eqn:E2; [split; reflexivity|].
  destruct (Nat.eqb (nat_of_ascii c) 160); [split; reflexivity|].
  rewrite !contains_char_cons, (Ascii.eqb_sym "<" c), (Ascii.eqb_sym ">" c), E1, E2.
  split; reflexivity.
Qed.

Lemma escapeHtml_angles s :
  contains_char "<" (escapeHtml s) = false /\ contains_char ">" (escapeHtml s) = false.
Proof.
  induction s as [|c s IH]; simpl; [split; reflexivity|].
  rewrite !contains_char_app. destruct (escape_char_angles c) as [-> ->]. exact IH.
Qed.

Lemma append_assoc_str a b c :
  String.append (String.append a b) c = String.append a (String.append b c).
Proof. induction a as [|x a IH]; simpl; [reflexivity|rewrite IH; reflexivity]. Qed.

Lemma escapeHtml_app a b : escapeHtml (String.append a b) = String.append (escapeHtml a) (escapeHtml b).
Proof.
  induction a as [|c a IH]; simpl; [reflexivity|]. rewrite IH. symmetry. apply append_assoc_str.
Qed.

Lemma drop_escaped s : drop_tags false (escapeHtml s) = escapeHtml s /\ tag_state false (escapeHtml s) = false.
Proof. apply drop_text, escapeHtml_angles. Qed.

(** [escapeHtml] never produces an angle bracket, whatever the text, and
    escaping a concatenation escapes each part. *)
Theorem escapeHtml_no_angle_brackets a b :
  contains_char "<" (escapeHtml a) = false /\ contains_char ">" (escapeHtml a) = false /\
  escapeHtml (String.append a b) = String.append (escapeHtml a) (escapeHtml b).
Proof.
  destruct (escapeHtml_angles a) as [H1 H2]. split; [exact H1|]. split; [exact H2|].
  apply escapeHtml_app.
Qed.

Lemma drop_token_span ty s :
  contains_char ">" ty = false ->
  drop_tags false (token_span ty (escapeHtml s)) = escapeHtml s /\
  tag_state false (token_span ty (escapeHtml s)) = false.
Proof.
  intro Hty. destruct (drop_in_tag ty Hty) as [Hd Hs]. destruct (drop_escaped s) as [He Hes].
  unfold token_span. rewrite !drop_tags_app, !tag_state_app. simpl.
  rewrite Hd, Hs, He, Hes. simpl. rewrite append_empty_r. split; reflexivity.
Qed.

Lemma in_insert_match x m l : In x (insert_match m l) -> x = m \/ In x l.
Proof.
  induction l as [|y l IH]; simpl; [intros [<-|[]]; left; reflexivity|].
  destruct (Nat.ltb (m_start m) (m_start y)); simpl.
  - intros [<-|H]; [left; reflexivity|right; exact H].
  - intros [<-|H]; [right; left; reflexivity|]. destruct (IH H); [left|right; right]; assumption.
Qed.

Lemma in_sort_fold x l acc :
  In x (fold_left (fun acc m => insert_match m acc) l acc) -> In x acc \/ In x l.
Proof.
  revert acc. induction l as [|m l IH]; intros acc H; simpl in H; [left; exact H|].
  destruct (IH _ H) as [H'|H']; [|right; right; exact H'].
  destruct (in_insert_match _ _ _ H') as [<-|H'']; [right; left; reflexivity|left; exact H''].
Qed.

Lemma substring_0_0 code : substring 0 0 code = "".
Proof. destruct code; reflexivity. Qed.

Lemma hl_fold code ms result lastIndex :
  (forall m, In m ms ->
     m_end m = (m_start m + String.length (m_content m))%nat /\
     (m_end m <= String.length code)%nat /\
     substring (m_start m) (String.length (m_content m)) code = m_content m /\
     contains_char ">" (m_type m) = false) ->
  (lastIndex <= String.length code)%nat ->
  drop_tags false result = escapeHtml (substring 0 lastIndex code) ->
  tag_state false result = false ->
  let '(result', lastIndex') := fold_left (hl_step code) ms (result, lastIndex) in
  (lastIndex' <= String.length code)%nat /\
  drop_tags false result' = escapeHtml (substring 0 lastIndex' code) /\
  tag_state false result' = false.
Proof.
  revert result lastIndex. induction ms as [|m ms IH]; intros result lastIndex Hms Hl Hd Hs;
    simpl; [auto|].
  destruct (Hms m (or_introl eq_refl)) as (He & Hle & Hsub & Hty).
  assert (Hms' : forall m', In m' ms -> _) by (intros m' Hm'; exact (Hms m' (or_intror Hm'))).
  destruct (Nat.ltb_spec (m_start m) lastIndex) as [Hlt|Hge]; [apply IH; auto|].
  destruct (drop_token_span (m_type m) (m_content m) Hty) as [Dt St].
  set (lc := String.length (m_content m)) in *.
  assert (Hfin : String.append (substring 0 (m_start m) code) (m_content m) = substring 0 (m_end m) code).
  { rewrite He, <- Hsub. apply (substring_adj 0 (m_start m) lc). simpl. lia. }
  apply IH; [exact Hms'|exact Hle| |].
  - destruct (Nat.ltb_spec lastIndex (m_start m)) as [Hlt'|Hge'].
    + rewrite !drop_tags_app, !tag_state_app, Hs, Hd, (proj1 (drop_escaped _)),
        (proj2 (drop_escaped _)), Dt, <- Hfin, (escapeHtml_app (substring 0 (m_start m) code)).
      f_equal. rewrite <- escapeHtml_app. f_equal.
      replace (m_start m) with (lastIndex + (m_start m - lastIndex))%nat at 2 by lia.
      apply (substring_adj 0 lastIndex (m_start m - lastIndex)). simpl. lia.
    + assert (m_start m = lastIndex) as Eq by lia.
      rewrite drop_tags_app, Hs, Hd, Dt, <- Hfin, Eq, escapeHtml_app. reflexivity.
  - destruct (Nat.ltb lastIndex (m_start m));
      rewrite ?tag_state_app, ?Hs, ?(proj2 (drop_escaped _)); exact St.
Qed.

Lemma rules_ok code patterns :
  forallb (rule_ok code) patterns = true ->
  forall rule, In rule patterns ->
    contains_char ">" (fst rule) = false /\
    forall i m, In (i, m) (snd rule code) ->
      (i + String.length m <= String.length code)%nat /\ substring i (String.length m) code = m.
Proof.
  intros Hb rule Hr. rewrite forallb_forall in Hb. specialize (Hb rule Hr).
  unfold rule_ok in Hb. apply andb_true_iff in Hb as [H1 H2]. apply negb_true_iff in H1.
  split; [exact H1|]. intros i m Him. rewrite forallb_forall in H2. specialize (H2 _ Him).
  simpl in H2. apply andb_true_iff in H2 as [H3 H4].
  split; [apply Nat.leb_le, H3|apply String.eqb_eq, H4].
Qed.

(** When every match a rule reports is a real occurrence in the code (at
    its index, inside the code) and no rule's token type contains [>],
    the highlighted markup shows exactly the escaped code: removing its
    [span] tags gives [escapeHtml code], so no character of the code is
    lost or repeated, even where matches of different rules overlap. *)
Theorem tokenizeAndHighlight_text patterns code :
  forallb (rule_ok code) patterns = true ->
  drop_tags false (tokenizeAndHighlight patterns code) = escapeHtml code.
Proof.
  intro Hb. pose proof (rules_ok code patterns Hb) as Hp. unfold tokenizeAndHighlight.
  destruct patterns as [|rule0 rest]; [apply drop_escaped|].
  set (allMatches := flat_map _ (rule0 :: rest)).
  assert (Hall : forall m, In m (sort_matches allMatches) ->
     m_end m = (m_start m + String.length (m_content m))%nat /\
     (m_end m <= String.length code)%nat /\
     substring (m_start m) (String.length (m_content m)) code = m_content m /\
     contains_char ">" (m_type m) = false).
  { intros m Hm. unfold sort_matches in Hm. apply in_sort_fold in Hm.
    destruct Hm as [[]|Hm]. unfold allMatches in Hm. apply in_flat_map in Hm.
    destruct Hm as (rule & Hr & Hm). apply in_map_iff in Hm. destruct Hm as ([i s] & <- & Him).
    destruct (Hp rule Hr) as [Hty Hms]. destruct (Hms i s Him) as [H1 H2]. simpl.
    repeat split; auto. }
  pose proof (hl_fold code (sort_matches allMatches) "" 0 Hall ltac:(lia)
                ltac:(rewrite substring_0_0; reflexivity) eq_refl) as Hf.
  destruct (fold_left (hl_step code) (sort_matches allMatches) ("", 0%nat)) as [result lastIndex].
  destruct Hf as (Hl & Hd & Hs).
  pose proof (substring_full code) as Hfull. rewrite Nat.sub_0_r in Hfull.
  destruct (Nat.ltb_spec lastIndex (String.length code)) as [Hlt|Hge].
  - rewrite drop_tags_app, Hs, Hd, (proj1 (drop_escaped _)), <- escapeHtml_app.
    f_equal. pose proof (substring_adj 0 lastIndex (String.length code - lastIndex) code) as Ha.
    simpl in Ha. rewrite Ha by lia.
    replace (lastIndex + (String.length code - lastIndex))%nat with (String.length code) by lia.
    exact Hfull.
  - rewrite Hd. replace lastIndex with (String.length code) by lia. rewrite Hfull. reflexivity.
Qed.

(** ** Layout *)

Lemma set_position_other nodeId l t ed k :
  k <> nodeId -> assoc k (nodes (set_position nodeId l t ed)) = assoc k (nodes ed).
Proof.
  intro Hk. unfold set_position. destruct (assoc nodeId (nodes ed)); [|reflexivity].
  simpl. apply assoc_set_neq. apply String.eqb_neq. exact Hk.
Qed.

Lemma set_position_pos nodeId l t ed nd :
  assoc nodeId (nodes ed) = Some nd -> node_pos (set_position nodeId l t ed) nodeId = Some (l, t).
Proof.
  intro H. unfold set_position, node_pos. rewrite H. simpl. rewrite assoc_set_eq. reflexivity.
Qed.

Lemma set_height_other nodeId h ed k :
  k <> nodeId -> assoc k (nodes (set_height nodeId h ed)) = assoc k (nodes ed).
Proof.
  intro Hk. unfold set_height. destruct (assoc nodeId (nodes ed)); [|reflexivity].
  simpl. apply assoc_set_neq. apply String.eqb_neq. exact Hk.
Qed.

Lemma layout_children_spec oh cid cnd ids y ed :
  assoc cid (nodes ed) = Some cnd -> NoDup ids -> ~ In cid ids ->
  (forall id, In id ids -> assoc id (nodes ed) <> None) ->
  exists ed',
    layout_children oh cid (map VStr ids) y ed = ROk (stack_end oh ids y) ed' /\
    assoc cid (nodes ed') = Some cnd /\
    (forall id, ~ In id ids -> assoc id (nodes ed') = assoc id (nodes ed)) /\
    (forall i a t, nth_error ids i = Some a -> nth_error (stack_offsets oh ids y) i = Some t ->
       node_pos ed' a = Some (left cnd + 20, top cnd + t)%Z).
Proof.
  revert y ed. induction ids as [|a r IH]; intros y ed Hc Hnd Hcid Hin.
  - exists ed. split; [reflexivity|]. split; [exact Hc|]. split; [reflexivity|].
    intros [|i] a t Ha; discriminate.
  - inversion Hnd as [|? ? Har Hndr]; subst.
    assert (Hac : a <> cid) by (intro E; apply Hcid; left; auto).
    destruct (assoc a (nodes ed)) as [nda|] eqn:Ea; [|exfalso; apply (Hin a); [left; auto|exact Ea]].
    set (ed1 := set_position a (left cnd + 20) (top cnd + y) ed).
    assert (Hc1 : assoc cid (nodes ed1) = Some cnd)
      by (unfold ed1; rewrite set_position_other by auto; exact Hc).
    assert (Hin1 : forall id, In id r -> assoc id (nodes ed1) <> None).
    { intros id Hid. unfold ed1. rewrite set_position_other by (intro E; subst; contradiction).
      apply Hin. right. exact Hid. }
    destruct (IH (y + oh a + 10)%Z ed1 Hc1 Hndr (fun E => Hcid (or_intror E)) Hin1)
      as (ed' & Hrun & Hc' & Hoth & Hpos).
    exists ed'. split.
    { cbn [map layout_children mbind get]. rewrite Ea, Hc. cbn [modify]. exact Hrun. }
    split; [exact Hc'|]. split.
    { intros id Hid. rewrite Hoth by (intro E; apply Hid; right; exact E).
      unfold ed1. apply set_position_other. intro E; apply Hid; left; auto. }
    intros [|i] b t Hb Ht; simpl in Hb, Ht.
    + injection Hb as <-. injection Ht as <-.
      unfold node_pos. rewrite Hoth by exact Har.
      exact (set_position_pos _ _ _ _ _ Ea).
    + exact (Hpos i b t Hb Ht).
Qed.

Lemma stack_end_ge oh ids y :
  (forall id, In id ids -> (0 <= oh id)%Z) -> (y <= stack_end oh ids y)%Z.
Proof.
  revert y. induction ids as [|a r IH]; intros y Hnn; simpl; [lia|].
  specialize (IH (y + oh a + 10)%Z (fun id Hid => Hnn id (or_intror Hid))).
  specialize (Hnn a (or_introl eq_refl)). lia.
Qed.

Lemma stack_offsets_bounds oh ids y i a t :
  (forall id, In id ids -> (0 <= oh id)%Z) ->
  nth_error ids i = Some a -> nth_error (stack_offsets oh ids y) i = Some t ->
  (y <= t /\ t + oh a + 10 <= stack_end oh ids y)%Z.
Proof.
  revert y i. induction ids as [|b r IH]; intros y [|i] Hnn Ha Ht; simpl in Ha, Ht; try discriminate.
  - injection Ha as <-. injection Ht as <-.
    pose proof (stack_end_ge oh r (y + oh b + 10)%Z (fun id Hid => Hnn id (or_intror Hid))).
    specialize (Hnn b (or_introl eq_refl)). simpl. lia.
  - destruct (IH (y + oh b + 10)%Z i (fun id Hid => Hnn id (or_intror Hid)) Ha Ht) as [H1 H2].
    specialize (Hnn b (or_introl eq_refl)). simpl. lia.
Qed.

Lemma stack_offsets_nth oh ids y i a :
  nth_error ids i = Some a -> exists t, nth_error (stack_offsets oh ids y) i = Some t.
Proof.
  revert y i. induction ids as [|b r IH]; intros y [|i] Ha; simpl in Ha; try discriminate.
  - eexists; reflexivity.
  - exact (IH _ i Ha).
Qed.

Lemma stack_offsets_next oh ids y i a t t' :
  nth_error ids i = Some a ->
  nth_error (stack_offsets oh ids y) i = Some t ->
  nth_error (stack_offsets oh ids y) (S i) = Some t' ->
  t' = (t + oh a + 10)%Z.
Proof.
  revert y i. induction ids as [|b r IH]; intros y [|i] Ha Ht Ht'; simpl in Ha, Ht, Ht'; try discriminate.
  - injection Ha as <-. injection Ht as <-. destruct r; simpl in Ht'; [discriminate|].
    injection Ht' as <-; reflexivity.
  - exact (IH _ i Ha Ht Ht').
Qed.

Lemma in_fst_assoc {A} (k : string) (l : list (string * A)) :
  In k (map fst l) -> assoc k l <> None.
Proof.
  induction l as [|[k' v'] l IHl]; simpl; [contradiction|].
  destruct (String.eqb k k') eqn:E; [discriminate|].
  intros [Hk|Hk]; [subst; rewrite String.eqb_refl in E; discriminate|exact (IHl Hk)].
Qed.

Lemma nodup_strings_NoDup l : nodup_strings l = true -> NoDup l.
Proof.
  induction l as [|x r IH]; simpl; intro H; [constructor|].
  apply andb_true_iff in H as [H1 H2]. constructor; [|exact (IH H2)].
  intro Hx. apply negb_true_iff in H1. rewrite (proj2 (existsb_exists _ _)) in H1; [discriminate|].
  exists x. split; [exact Hx|apply String.eqb_refl].
Qed.

(** [updateLayout] on a column container whose children are distinct
    node ids (not the container itself) stacks them: each child is placed
    20 to the right of the container's left edge, the first 20 below its
    top, each next one [offsetHeight + 10] below the previous one; the
    container keeps its position and gets a height of at least 100 that
    reaches 10 past the bottom of every child. *)
Theorem updateLayout_column_stacks oh containerId cnd ids ed ed' :
  assoc containerId (nodes ed) = Some cnd ->
  type_ cnd = "column" ->
  children cnd = VArr (map VStr ids) ->
  nodup_strings ids = true ->
  existsb (String.eqb containerId) ids = false ->
  forallb (is_node ed) ids = true ->
  forallb (fun id => (0 <=? oh id)%Z) ids = true ->
  updateLayout oh containerId ed = ROk tt ed' ->
  exists Hgt,
    node_height ed' containerId = Some (String.append (Z_to_string Hgt) "px") /\
    (100 <= Hgt)%Z /\
    node_pos ed' containerId = Some (left cnd, top cnd) /\
    (forall id, In id ids -> exists t,
        node_pos ed' id = Some (left cnd + 20, t)%Z /\
        (top cnd + 20 <= t)%Z /\ (t + oh id + 10 <= top cnd + Hgt)%Z) /\
    (forall i a b, nth_error ids i = Some a -> nth_error ids (S i) = Some b ->
        exists ta, node_pos ed' a = Some (left cnd + 20, ta)%Z /\
                   node_pos ed' b = Some (left cnd + 20, ta + oh a + 10)%Z).
Proof.
  intros Hc Hty Hch Hnd Hcid Hnodes Hoh Hrun.
  apply nodup_strings_NoDup in Hnd.
  assert (Hcid' : ~ In containerId ids).
  { intro Hi. rewrite (proj2 (existsb_exists _ _)) in Hcid; [discriminate|].
    exists containerId. split; [exact Hi|apply String.eqb_refl]. }
  assert (Hin : forall id, In id ids -> assoc id (nodes ed) <> None).
  { intros id Hid. rewrite forallb_forall in Hnodes. specialize (Hnodes id Hid).
    unfold is_node in Hnodes. apply existsb_exists in Hnodes as (k & Hkv & Ek).
    apply String.eqb_eq in Ek. subst k. exact (in_fst_assoc _ _ Hkv). }
  assert (Hnn : forall id, In id ids -> (0 <= oh id)%Z).
  { intros id Hid. rewrite forallb_forall in Hoh. specialize (Hoh id Hid). lia. }
  destruct (layout_children_spec oh containerId cnd ids 20 ed Hc Hnd Hcid' Hin)
    as (ed1 & Hrun1 & Hc1 & _ & Hpos1).
  unfold updateLayout in Hrun. cbn [mbind get] in Hrun. rewrite Hc in Hrun.
  unfold isContainer in Hrun. rewrite Hty in Hrun. cbn -[layoutColumn] in Hrun.
  unfold layoutColumn in Hrun. rewrite Hch in Hrun. unfold mbind in Hrun. rewrite Hrun1 in Hrun.
  cbn [modify] in Hrun. injection Hrun as <-.
  set (Hgt := Z.max 100 (stack_end oh ids 20)).
  assert (Hpos : forall a, a <> containerId ->
            node_pos (set_height containerId (String.append (Z_to_string Hgt) "px") ed1) a = node_pos ed1 a).
  { intros a Ha. unfold node_pos. rewrite set_height_other by exact Ha. reflexivity. }
  exists Hgt. split.
  { unfold node_height, set_height. rewrite Hc1. simpl. rewrite assoc_set_eq. reflexivity. }
  split; [lia|]. split.
  { unfold node_pos, set_height. rewrite Hc1. simpl. rewrite assoc_set_eq. reflexivity. }
  split.
  - intros id Hid. destruct (In_nth_error _ _ Hid) as [i Hi].
    destruct (stack_offsets_nth oh ids 20 i id Hi) as [t Ht].
    exists (top cnd + t)%Z. rewrite Hpos by (intro E; subst; contradiction).
    split; [exact (Hpos1 i id t Hi Ht)|].
    destruct (stack_offsets_bounds oh ids 20 i id t Hnn Hi Ht). lia.
  - intros i a b Ha Hb.
    destruct (stack_offsets_nth oh ids 20 i a Ha) as [t Ht].
    destruct (stack_offsets_nth oh ids 20 (S i) b Hb) as [t' Ht'].
    pose proof (stack_offsets_next oh ids 20 i a t t' Ha Ht Ht') as Et'.
    exists (top cnd + t)%Z.
    assert (Ha' : a <> containerId) by (intro E; subst; exact (Hcid' (nth_error_In _ _ Ha))).
    assert (Hb' : b <> containerId) by (intro E; subst; exact (Hcid' (nth_error_In _ _ Hb))).
    rewrite !Hpos by assumption.
    rewrite (Hpos1 i a t Ha Ht), (Hpos1 (S i) b t' Hb Ht'). subst t'.
    split; [reflexivity|]. do 2 f_equal. lia.
Qed.

(** ** Node ids and the counter *)

Lemma in_fst_assoc_set {A} (k k' : string) (v : A) l :
  In k' (map fst (assoc_set k v l)) -> k' = k \/ In k' (map fst l).
Proof.
  induction l as [|[k1 v1] l IHl]; simpl.
  - intros [H|[]]; left; auto.
  - destruct (String.eqb k k1) eqn:E; simpl.
    + intros [H|H]; [right; left; exact H|right; right; exact H].
    + intros [H|H]; [right; left; exact H|]. destruct (IHl H); auto.
Qed.

Lemma ids_below_insert s nodeId nd c :
  ids_below_counter s = true -> (nodeCounter s <= c)%Z ->
  (forall n, id_number nodeId = Some n -> (n < c)%Z) ->
  ids_below_counter (with_counter (with_nodes s (assoc_set nodeId nd (nodes s))) c) = true.
Proof.
  unfold ids_below_counter. intros Hs Hc Hn. apply forallb_forall. intros k Hk.
  simpl in Hk |- *. destruct (in_fst_assoc_set _ _ _ _ Hk) as [->|Hk'].
  - destruct (id_number nodeId) eqn:E; [|reflexivity]. apply Z.ltb_lt. exact (Hn _ eq_refl).
  - rewrite forallb_forall in Hs. specialize (Hs k Hk').
    destruct (id_number k); [|reflexivity]. apply Z.ltb_lt. apply Z.ltb_lt in Hs. lia.
Qed.

Lemma ids_below_with_hist e h : ids_below_counter (with_hist e h) = ids_below_counter e.
Proof. reflexivity. Qed.

Lemma counter_update_spec nodeId ctr c :
  c = match nth_error (split_on "_" nodeId) 1 with
      | Some piece =>
          match js_parseInt piece with
          | Some n => if (ctr <=? n)%Z then (n + 1)%Z else ctr
          | None => ctr
          end
      | None => ctr
      end ->
  (ctr <= c)%Z /\ (forall n, id_number nodeId = Some n -> (n < c)%Z).
Proof.
  intros ->. unfold id_number.
  destruct (nth_error (split_on "_" nodeId) 1) as [piece|]; [|split; [lia|discriminate]].
  destruct (js_parseInt piece) as [m|]; [|split; [lia|discriminate]].
  destruct (Z.leb_spec ctr m); split; try lia; intros n E; injection E as <-; lia.
Qed.

Lemma createNode_preserves c0 t x y o :
  preserves (fun s => ids_below_counter s = true /\ (c0 <= nodeCounter s)%Z) (createNode t x y o).
Proof.
  intros s Hs. unfold createNode. cbn [mbind get lift].
  destruct t as [| | | |tn| |]; try exact I.
  cbn [mbind lift].
  assert (Hk : forall nid ctr, (nodeCounter s <= ctr)%Z ->
    forall c nd, c = match nth_error (split_on "_" nid) 1 with
      | Some piece =>
          match js_parseInt piece with
          | Some n => if (ctr <=? n)%Z then (n + 1)%Z else ctr
          | None => ctr
          end
      | None => ctr
      end ->
    ids_below_counter (with_counter (with_nodes s (assoc_set nid nd (nodes s))) c) = true /\
    (c0 <= nodeCounter (with_counter (with_nodes s (assoc_set nid nd (nodes s))) c))%Z).
  { intros nid ctr Hctr c nd Hc. destruct (counter_update_spec _ _ _ Hc). destruct Hs as [Hs Hs0].
    split; [apply ids_below_insert; [exact Hs|lia|assumption]|simpl; lia]. }
  destruct (truthy (field o "id")).
  - destruct (field o "id") as [| | | |nid| |]; cbn [mbind lift ret]; try exact Hs.
    destruct (css_px x) as [l|e| |]; cbn [mbind lift]; try exact Hs; try exact I.
    destruct (css_px y) as [tp|e| |]; cbn [mbind lift]; try exact Hs; try exact I.
    destruct (css_size (field o "width")) as [w|e| |]; cbn [mbind lift]; try exact Hs; try exact I.
    destruct (css_size (field o "height")) as [h|e| |]; cbn [mbind lift]; try exact Hs; try exact I.
    destruct (node_template tn o) as [tpl|e| |]; cbn [mbind lift modify]; try exact Hs; try exact I.
    destruct (truthy (field o "fromSerialization")); cbn [ret];
      [|unfold recordState; destruct (isRestoring _); [|rewrite ids_below_with_hist; change (nodeCounter (with_hist ?e _)) with (nodeCounter e)]];
      (eapply Hk; [|reflexivity]; lia).
  - cbn [mbind lift ret].
    destruct (css_px x) as [l|e| |]; cbn [mbind lift]; try exact Hs; try exact I.
    destruct (css_px y) as [tp|e| |]; cbn [mbind lift]; try exact Hs; try exact I.
    destruct (css_size (field o "width")) as [w|e| |]; cbn [mbind lift]; try exact Hs; try exact I.
    destruct (css_size (field o "height")) as [h|e| |]; cbn [mbind lift]; try exact Hs; try exact I.
    destruct (node_template tn o) as [tpl|e| |]; cbn [mbind lift modify]; try exact Hs; try exact I.
    destruct (truthy (field o "fromSerialization")); cbn [ret];
      [|unfold recordState; destruct (isRestoring _); [|rewrite ids_below_with_hist; change (nodeCounter (with_hist ?e _)) with (nodeCounter e)]];
      (eapply Hk; [|reflexivity]; lia).
Qed.

Lemma digit_val_char d : (0 <= d < 10)%Z -> digit_val (digit_char d) = Some d.
Proof.
  intro Hd. assert (Hc : (d = 0 \/ d = 1 \/ d = 2 \/ d = 3 \/ d = 4 \/ d = 5 \/ d = 6 \/ d = 7 \/ d = 8 \/ d = 9)%Z)
    by lia.
  repeat destruct Hc as [Hc|Hc]; subst; reflexivity.
Qed.

Lemma pos_digits_all f z acc :
  all_digits acc = true -> all_digits (pos_digits f z acc) = true.
Proof.
  revert z acc. induction f as [|f IH]; intros z acc Hacc; simpl; [exact Hacc|].
  assert (Hd : all_digits (String (digit_char (z mod 10)) acc) = true).
  { cbn [all_digits]. unfold is_digit. rewrite digit_val_char by (apply Z.mod_pos_bound; lia). exact Hacc. }
  destruct (z <? 10)%Z; [exact Hd|exact (IH _ _ Hd)].
Qed.

Lemma pos_digits_read f z acc v n :
  (0 <= z < 10 ^ Z.of_nat (S f))%Z ->
  exists k, read_digits digit_val 10 (pos_digits (S f) z acc) v n =
            read_digits digit_val 10 acc (v * 10 ^ Z.of_nat (S k) + z)%Z (S k + n).
Proof.
  revert z acc v n. induction f as [|f IH]; intros z acc v n Hz.
  - exists O. cbn [pos_digits]. assert (Hz10 : (z < 10)%Z) by (simpl in Hz; lia).
    rewrite (proj2 (Z.ltb_lt _ _) Hz10). cbn [read_digits].
    rewrite digit_val_char by (apply Z.mod_pos_bound; lia).
    rewrite Z.mod_small by lia. f_equal; simpl; lia.
  - cbn [pos_digits]. destruct (Z.ltb_spec z 10) as [Hz10|Hz10].
    + exists O. cbn [read_digits].
      rewrite digit_val_char by (apply Z.mod_pos_bound; lia).
      rewrite Z.mod_small by lia. f_equal; simpl; lia.
    + assert (Hq : (0 <= z / 10 < 10 ^ Z.of_nat (S f))%Z).
      { split; [apply Z.div_pos; lia|]. apply Z.div_lt_upper_bound; [lia|].
        rewrite <- Z.pow_succ_r by lia. rewrite <- Nat2Z.inj_succ. lia. }
      destruct (IH (z / 10)%Z (String (digit_char (z mod 10)) acc) v n Hq) as [k Hk].
      cbn [pos_digits] in Hk. rewrite Hk. exists (S k). cbn [read_digits].
      rewrite digit_val_char by (apply Z.mod_pos_bound; lia).
      f_equal; try lia.
      rewrite (Nat2Z.inj_succ (S k)), Z.pow_succ_r by lia.
      pose proof (Z.div_mod z 10 ltac:(lia)) as Ez.
      remember (10 ^ Z.of_nat (S k))%Z as P. nia.
Qed.

Lemma Z_to_string_fuel z :
  (0 <= Z.abs z < 10 ^ Z.of_nat (S (Z.to_nat (Z.log2 (Z.abs z)))))%Z.
Proof.
  split; [lia|]. rewrite Nat2Z.inj_succ, Z2Nat.id by apply Z.log2_nonneg.
  destruct (Z.eq_dec (Z.abs z) 0) as [E|E].
  - rewrite E. simpl. lia.
  - destruct (Z.log2_spec (Z.abs z)) as [_ Hlt]; [lia|].
    eapply Z.lt_le_trans; [exact Hlt|]. apply Z.pow_le_mono_l.
    split; [lia|lia].
Qed.

Lemma is_digit_not_ws c : is_digit c = true -> is_ws c = false.
Proof.
  unfold is_digit, digit_val, is_ws. destruct (Nat.leb 48 (nat_of_ascii c) && Nat.leb (nat_of_ascii c) 57)%bool eqn:E;
    [|discriminate]. intros _.
  apply andb_true_iff in E as [E1 E2]. apply Nat.leb_le in E1, E2.
  assert (Hn : nat_of_ascii c = 48 \/ nat_of_ascii c = 49 \/ nat_of_ascii c = 50 \/ nat_of_ascii c = 51 \/
               nat_of_ascii c = 52 \/ nat_of_ascii c = 53 \/ nat_of_ascii c = 54 \/ nat_of_ascii c = 55 \/
               nat_of_ascii c = 56 \/ nat_of_ascii c = 57) by lia.
  repeat destruct Hn as [Hn|Hn]; rewrite Hn; reflexivity.
Qed.

Lemma parse_digits_body sg s v n :
  all_digits s = true -> read_digits digit_val 10 s 0 0 = (v, S n, EmptyString) ->
  (let '(v, n, _) :=
     match s with
     | String "0" (String x r') =>
         if (Ascii.eqb x "x" || Ascii.eqb x "X")%bool
         then read_digits hex_val 16 r' 0 0
         else read_digits digit_val 10 s 0 0
     | _ => read_digits digit_val 10 s 0 0
     end in
   if (n =? 0)%nat then None else Some (sg * v)%Z) = Some (sg * v)%Z.
Proof.
  intros Hs Hr. destruct s as [|c r]; [discriminate|].
  cbn [all_digits] in Hs. apply andb_true_iff in Hs as [Hc Hr'].
  destruct c as [[] [] [] [] [] [] [] []]; try discriminate Hc; try (rewrite Hr; reflexivity).
  destruct r as [|x r']; [rewrite Hr; reflexivity|].
  cbn [all_digits] in Hr'. apply andb_true_iff in Hr' as [Hx _].
  assert (Hxx : Ascii.eqb x "x" = false)
    by (destruct (Ascii.eqb x "x") eqn:E; [apply Ascii.eqb_eq in E; subst; discriminate|reflexivity]).
  assert (HxX : Ascii.eqb x "X" = false)
    by (destruct (Ascii.eqb x "X") eqn:E; [apply Ascii.eqb_eq in E; subst; discriminate|reflexivity]).
  rewrite Hr, Hxx, HxX. reflexivity.
Qed.

Lemma trim_start_digit c r : is_digit c = true -> trim_start (String c r) = String c r.
Proof. intro Hc. simpl. rewrite (is_digit_not_ws c Hc). reflexivity. Qed.

Lemma read_sign_digit c r : is_digit c = true -> read_sign (String c r) = (1%Z, String c r).
Proof. destruct c as [[] [] [] [] [] [] [] []]; intro Hc; try discriminate Hc; reflexivity. Qed.

Lemma js_parseInt_digits s v n :
  all_digits s = true -> read_digits digit_val 10 s 0 0 = (v, S n, EmptyString) ->
  js_parseInt s = Some v /\ js_parseInt (String "-" s) = Some (- v)%Z.
Proof.
  intros Hs Hr. split.
  - destruct s as [|c r]; [discriminate|].
    pose proof Hs as Hs'. cbn [all_digits] in Hs'. apply andb_true_iff in Hs' as [Hc _].
    unfold js_parseInt. rewrite trim_start_digit, read_sign_digit by exact Hc.
    rewrite <- (Z.mul_1_l v). exact (parse_digits_body 1 (String c r) v n Hs Hr).
  - replace (- v)%Z with (-1 * v)%Z by lia.
    exact (parse_digits_body (-1) s v n Hs Hr).
Qed.

Lemma split_on_digits s : all_digits s = true -> split_on "_" s = [s].
Proof.
  induction s as [|c r IH]; intro Hs; [reflexivity|].
  cbn [all_digits] in Hs. apply andb_true_iff in Hs as [Hc Hr].
  cbn [split_on]. destruct (Ascii.eqb c "_") eqn:E.
  - apply Ascii.eqb_eq in E. subst. discriminate.
  - rewrite (IH Hr). reflexivity.
Qed.

Lemma Z_to_string_parts z :
  exists ds n, all_digits ds = true /\ read_digits digit_val 10 ds 0 0 = (Z.abs z, S n, EmptyString) /\
    Z_to_string z = (if (z <? 0)%Z then String "-" ds else ds).
Proof.
  set (a := Z.abs z). set (f := Z.to_nat (Z.log2 a)).
  exists (pos_digits (S f) a EmptyString).
  destruct (pos_digits_read f a EmptyString 0 0 (Z_to_string_fuel z)) as [k Hk].
  exists (k + 0)%nat. split; [apply pos_digits_all; reflexivity|].
  split; [|reflexivity].
  rewrite Hk. cbn [read_digits]. repeat f_equal. all: lia.
Qed.

Lemma split_on_node t : split_on "_" (String.append "node_" t) = "node" :: split_on "_" t.
Proof. reflexivity. Qed.

Lemma split_on_minus_digits ds : all_digits ds = true -> split_on "_" (String "-" ds) = [String "-" ds].
Proof.
  intro Hd.
  transitivity (match split_on "_" ds with w :: ws => String "-" w :: ws | [] => [String "-" ""] end);
    [reflexivity|].
  rewrite (split_on_digits ds Hd). reflexivity.
Qed.

Lemma id_number_next_auto_id ed : id_number (next_auto_id ed) = Some (nodeCounter ed).
Proof.
  destruct (Z_to_string_parts (nodeCounter ed)) as (ds & n & Hd & Hr & Hs).
  destruct (js_parseInt_digits ds _ n Hd Hr) as [Hp Hm].
  unfold id_number, next_auto_id. rewrite split_on_node, Hs.
  destruct (Z.ltb_spec (nodeCounter ed) 0); cbn beta iota.
  - rewrite (split_on_minus_digits ds Hd). cbn [nth_error]. rewrite Hm. f_equal; lia.
  - rewrite (split_on_digits ds Hd). cbn [nth_error]. rewrite Hp. f_equal; lia.
Qed.

Lemma next_auto_id_unused ed :
  ids_below_counter ed = true -> ~ In (next_auto_id ed) (map fst (nodes ed)).
Proof.
  intros Hb Hin. unfold ids_below_counter in Hb. rewrite forallb_forall in Hb.
  specialize (Hb _ Hin). rewrite id_number_next_auto_id in Hb. apply Z.ltb_lt in Hb. lia.
Qed.

(** Starting from a table whose numbered ids ([node_<n>]) all lie below
    [nodeCounter], a [createNode] that completes keeps this so, never
    lowers the counter, and leaves [node_<nodeCounter>], the id it would
    generate next, unused.  JavaScript numbers are doubles: the property
    is stated for counters between -2^53 and 2^53, before and after the
    call.  Since the counter never decreases, every value that
    [parseInt], [+ 1] and [>=] meet on the way then lies in that range
    (or, for a smaller parsed id, below the counter either way), where
    doubles compute these integers exactly. *)
Theorem createNode_next_id_fresh t x y o ed ed' :
  ids_below_counter ed = true ->
  (- 2 ^ 53 < nodeCounter ed)%Z ->
  createNode t x y o ed = ROk tt ed' ->
  (nodeCounter ed' < 2 ^ 53)%Z ->
  ids_below_counter ed' = true /\ (nodeCounter ed <= nodeCounter ed')%Z /\
  ~ In (next_auto_id ed') (map fst (nodes ed')).
Proof.
  intros Hs _ Hrun _.
  pose proof (createNode_preserves (nodeCounter ed) t x y o ed (conj Hs (Z.le_refl _))) as Hp.
  rewrite Hrun in Hp. destruct Hp as [Hb Hc]. split; [exact Hb|]. split; [exact Hc|].
  exact (next_auto_id_unused ed' Hb).
Qed.

Section Preserves.

Variable Inv : editor -> Prop.

Lemma pres_bind {A B} (m : M A) (k : A -> M B) :
  preserves Inv m -> (forall a, preserves Inv (k a)) -> preserves Inv (mbind m k).
Proof.
  intros Hm Hk s Hs. unfold mbind. specialize (Hm s Hs).
  destruct (m s) as [a s'|e s'| |]; auto. exact (Hk a s' Hm).
Qed.

Lemma pres_ret {A} (a : A) : preserves Inv (ret a).
Proof. intros s Hs. exact Hs. Qed.

Lemma pres_get : preserves Inv get.
Proof. intros s Hs. exact Hs. Qed.

Lemma pres_lift {A} (o : outcome A) : preserves Inv (lift o).
Proof. intros s Hs. destruct o; simpl; auto. Qed.

Lemma pres_modify f : (forall s, Inv s -> Inv (f s)) -> preserves Inv (modify f).
Proof. intros Hf s Hs. exact (Hf s Hs). Qed.

Lemma pres_forEach_M {A} (f : A -> M unit) l :
  (forall a, preserves Inv (f a)) -> preserves Inv (forEach_M f l).
Proof.
  intro Hf. induction l as [|a l IH]; simpl; [apply pres_ret|]. apply pres_bind; auto.
Qed.

Lemma pres_of_keeps {X A} (obs : editor -> X) (m : M A) :
  (forall s s', obs s' = obs s -> Inv s -> Inv s') -> keeps obs m -> preserves Inv m.
Proof.
  intros HI Hk s Hs. specialize (Hk s). destruct (m s); eauto.
Qed.

End Preserves.

Ltac pres_step :=
  match goal with
  | |- preserves _ (mbind _ _) => apply pres_bind; [|intro]
  | |- preserves _ (ret _) => apply pres_ret
  | |- preserves _ get => apply pres_get
  | |- preserves _ (lift _) => apply pres_lift
  | |- preserves _ (modify _) => apply pres_modify; intros ? ?; assumption
  | |- preserves _ (forEach_M _ _) => apply pres_forEach_M; intro
  | |- preserves _ (match ?x with _ => _ end) => destruct x
  end.

Lemma createNode_preserves_ids t x y o :
  preserves (fun s => ids_below_counter s = true) (createNode t x y o).
Proof.
  intros s Hs. pose proof (createNode_preserves (nodeCounter s) t x y o s (conj Hs (Z.le_refl _))) as H.
  destruct (createNode t x y o s); try exact I; apply H.
Qed.

Lemma processNodeData_preserves_ids P fuel nodeId :
  preserves (fun s => ids_below_counter s = true) (processNodeData P fuel nodeId).
Proof.
  apply (pres_of_keeps _ (fun ed => (map fst (nodes ed), nodeCounter ed))).
  - intros s s' E Hs. unfold ids_below_counter in *. injection E as E1 E2. rewrite E1, E2. exact Hs.
  - apply keeps_obs_processNodeData. intros k d s0. unfold set_dom.
    destruct (assoc k (nodes s0)) eqn:E; [|reflexivity]. simpl.
    rewrite (map_fst_assoc_set _ _ _ _ E). reflexivity.
Qed.

Lemma deserialize_body_preserves_ids P parsed :
  preserves (fun s => ids_below_counter s = true) (deserialize_body P parsed).
Proof.
  intros s Hs. unfold deserialize_body. cbn [mbind lift].
  destruct parsed as [v|]; cbn [mbind lift modify]; [|exact Hs].
  destruct (get_prop v "canvasOffset") as [off|e| |]; cbn [mbind lift]; try exact I; [|reflexivity].
  destruct (get_prop v "scale") as [sc|e| |]; cbn [mbind lift]; try exact I; [|reflexivity].
  destruct (get_prop v "nodeCounter") as [cv|e| |]; cbn [mbind lift]; try exact I; [|reflexivity].
  destruct (js_or cv (VNum 0)) as [| | |q| | |]; cbn [mbind lift]; try exact I.
  destruct (Pos.eqb (Qden (Qred q)) 1); cbn [mbind lift modify]; try exact I.
  match goal with |- match ?m ?s1 with _ => _ end =>
    assert (Hrest : preserves (fun s => ids_below_counter s = true) m); [|apply Hrest; reflexivity]
  end.
  repeat first [pres_step | apply createNode_preserves_ids | apply processNodeData_preserves_ids
               | progress unfold load_node].
Qed.

(** A [deserialize] (loading a saved session, undo, redo) started from a
    table whose numbered ids all lie below [nodeCounter] ends, whether the
    session loads or the load fails with an alert, in such a table again,
    in which [node_<nodeCounter>], the id [createNode] would generate
    next, is unused.  As for [createNode], the counters are kept between
    -2^53 and 2^53, where doubles compute exactly: the session's
    [nodeCounter] lies above -2^53 and the final counter below 2^53 (the
    counter only grows while the nodes are loaded). *)
Theorem deserialize_next_id_fresh P parsed ed ed' :
  ids_below_counter ed = true ->
  (forall v q, parsed = Some v -> get_prop v "nodeCounter" = Ok (VNum q) ->
               (- inject_Z (2 ^ 53) < q)%Q) ->
  deserialize P parsed ed = ROk tt ed' ->
  (nodeCounter ed' < 2 ^ 53)%Z ->
  ids_below_counter ed' = true /\ ~ In (next_auto_id ed') (map fst (nodes ed')).
Proof.
  intros Hs _ Hrun _. unfold deserialize in Hrun.
  pose proof (deserialize_body_preserves_ids P parsed (with_restoring ed true) Hs) as Hp.
  destruct (deserialize_body P parsed (with_restoring ed true)) as [a s'|e s'| |];
    try discriminate; injection Hrun as <-;
    (split; [exact Hp|exact (next_auto_id_unused _ Hp)]).
Qed.

(** ** Witnesses: the hypotheses of the properties above hold of concrete graphs *)

Lemma undo_moves_top_witness :
  undoStack (hist undone_editor) = removelast (undoStack (hist edited_editor)) /\
  redoStack (hist undone_editor) = redoStack (hist edited_editor) ++ [last (undoStack (hist edited_editor)) VUndef] /\
  isRestoring (hist undone_editor) = false.
Proof.
  apply (undo_moves_top (registry trivial_engine) edited_editor undone_editor);
    [vm_compute; lia|vm_compute; reflexivity].
Defined.

Lemma redo_moves_top_witness :
  undoStack (hist redone_editor) = undoStack (hist undone_editor) ++ [last (redoStack (hist undone_editor)) VUndef] /\
  redoStack (hist redone_editor) = removelast (redoStack (hist undone_editor)) /\
  isRestoring (hist redone_editor) = false.
Proof.
  apply (redo_moves_top (registry trivial_engine) undone_editor redone_editor);
    [vm_compute; discriminate|vm_compute; reflexivity].
Defined.

Lemma undo_then_redo_stacks_witness : stacks redone_editor = stacks edited_editor.
Proof.
  apply (undo_then_redo_stacks (registry trivial_engine) edited_editor undone_editor redone_editor);
    [vm_compute; lia|vm_compute; reflexivity|vm_compute; reflexivity].
Defined.

Lemma redo_then_undo_stacks_witness : stacks reundone_editor = stacks undone_editor.
Proof.
  apply (redo_then_undo_stacks (registry trivial_engine) undone_editor redone_editor reundone_editor);
    [vm_compute; discriminate|vm_compute; discriminate|vm_compute; reflexivity|vm_compute; reflexivity].
Defined.

Lemma deleteConnection_removes_witness :
  match deleteConnection (registry trivial_engine) 0 scenario_b_editor with
  | ROk _ ed' | RThrow _ ed' =>
      connections ed' = firstn 0 (connections scenario_b_editor) ++ skipn 1 (connections scenario_b_editor) /\
      map fst (nodes ed') = map fst (nodes scenario_b_editor) /\
      ((length (connections scenario_b_editor) <= 0)%nat -> connections ed' = connections scenario_b_editor)
  | _ => True
  end.
Proof. exact (deleteConnection_removes (registry trivial_engine) 0 scenario_b_editor). Defined.

Lemma processFilterNode_sublist_witness :
  exists kept,
    assoc "data_out" (outputs (ok_or (dom (filter_node "row.a > 0"))
                                 (processFilterNode sample_engine (filter_graph "row.a > 0") "node_1"
                                    (filter_node "row.a > 0")))) = Some (VArr kept) /\
    match find_input (filter_graph "row.a > 0") "node_1" "data_in" with
    | Some c =>
        match source_output (filter_graph "row.a > 0") c with
        | Ok (VArr rows) =>
            sublist kept rows /\ (control_text (dom (filter_node "row.a > 0")) "condition" = Ok "" -> kept = rows)
        | _ => kept = []
        end
    | None => kept = []
    end.
Proof.
  apply (processFilterNode_sublist sample_engine (filter_graph "row.a > 0") "node_1" (filter_node "row.a > 0")).
  vm_compute. reflexivity.
Defined.

Lemma processAggregateNode_groups_witness :
  exists groups result,
    assoc "data_out" (outputs (ok_or (dom scenario_b_aggregate)
                                 (processAggregateNode scenario_b_editor "node_1" scenario_b_aggregate)))
      = Some (VArr result) /\
    Permutation (concat (map snd groups)) scenario_b_rows /\
    NoDup (map fst groups) /\
    (forall k g, In (k, g) groups -> g <> [] /\ forall r, In r g -> group_key "cat" r = Some k) /\
    Forall2 (fun kg out => exists v,
               out = VObj (assoc_set (String.append "sum" (String.append "_of_" "v")) v
                                     [("cat", VStr (fst kg))]))
            groups result.
Proof.
  apply (processAggregateNode_groups scenario_b_editor "node_1" scenario_b_aggregate
           (mkConn "node_0" "data_out" "node_1" "data_in") "cat" "sum" "v");
    try (vm_compute; reflexivity); vm_compute; discriminate.
Defined.

Lemma processAggregateNode_proto_group_throws_witness :
  processAggregateNode proto_editor "node_1" scenario_b_aggregate =
    Throw (type_error "acc[key].push is not a function").
Proof.
  apply (processAggregateNode_proto_group_throws proto_editor "node_1" scenario_b_aggregate
           (mkConn "node_0" "data_out" "node_1" "data_in") "cat" "sum" "v"
           [VObj [("cat", VStr "x"); ("v", VStr "1")]] (VObj [("cat", VStr "toString"); ("v", VStr "2")]) []
           "toString");
    try (vm_compute; reflexivity); try (vm_compute; discriminate).
  - constructor; [vm_compute; discriminate|constructor].
  - vm_compute. tauto.
Defined.

Lemma processCsvNode_rows_witness :
  exists rows,
    processCsvNode csv_graph "node_1" (plain_node "csv" [] []) =
      Ok (set_output (dom (plain_node "csv" [] [])) "data_out" (VArr rows)) /\
    length rows = (length (csv_lines csv_text) - 1)%nat /\
    forall j line row i h,
      nth_error (tl (csv_lines csv_text)) j = Some line -> nth_error rows j = Some row ->
      nth_error (map js_trim (split_on "," (hd "" (csv_lines csv_text)))) i = Some h ->
      h <> "__proto__" ->
      (forall i', (i < i')%nat -> nth_error (map js_trim (split_on "," (hd "" (csv_lines csv_text)))) i' <> Some h) ->
      obj_lookup row h =
        Some (match nth_error (map js_trim (split_on "," line)) i with
              | Some v => VStr v
              | None => VUndef
              end).
Proof.
  apply (processCsvNode_rows csv_graph "node_1" (plain_node "csv" [] [])
           (mkConn "node_0" "text_out" "node_1" "csv_in") csv_text); vm_compute; reflexivity.
Defined.

Lemma processFindReplaceNode_literal_length_witness :
  exists n out,
    processFindReplaceNode (fr_graph (fr_node "hello" "bye" true false)) "node_1" (fr_node "hello" "bye" true false) =
      Ok (set_status (set_output (dom (fr_node "hello" "bye" true false)) "output_text" (VStr out))
                     (matches_status n)) /\
    (String.length out + n * String.length "hello" = String.length fr_text + n * String.length "bye")%nat.
Proof.
  apply (processFindReplaceNode_literal_length (fr_graph (fr_node "hello" "bye" true false)) "node_1"
           (fr_node "hello" "bye" true false) (mkConn "node_0" "text_out" "node_1" "input_text")
           fr_text "hello" "bye" true false);
    try (vm_compute; reflexivity); vm_compute; discriminate.
Defined.

Lemma processFindReplaceNode_dollar_amp_witness :
  exists n,
    processFindReplaceNode (fr_graph (fr_node "o" "$&" true true)) "node_1" (fr_node "o" "$&" true true) =
      Ok (set_status (set_output (dom (fr_node "o" "$&" true true)) "output_text" (VStr fr_text))
                     (matches_status n)).
Proof.
  apply (processFindReplaceNode_dollar_amp (fr_graph (fr_node "o" "$&" true true)) "node_1"
           (fr_node "o" "$&" true true) (mkConn "node_0" "text_out" "node_1" "input_text")
           fr_text "o" true true);
    try (vm_compute; reflexivity); vm_compute; discriminate.
Defined.

Lemma processFindReplaceNode_no_occurrence_witness :
  processFindReplaceNode (fr_graph (fr_node "xyz" "q" false true)) "node_1" (fr_node "xyz" "q" false true) =
    Ok (set_status (set_output (dom (fr_node "xyz" "q" false true)) "output_text" (VStr fr_text))
                   "No matches found").
Proof.
  apply (processFindReplaceNode_no_occurrence (fr_graph (fr_node "xyz" "q" false true)) "node_1"
           (fr_node "xyz" "q" false true) (mkConn "node_0" "text_out" "node_1" "input_text")
           fr_text "xyz" "q" false true);
    try (vm_compute; reflexivity); vm_compute; discriminate.
Defined.

Lemma tokenizeAndHighlight_text_witness :
  drop_tags false (tokenizeAndHighlight sample_patterns sample_code) = escapeHtml sample_code.
Proof.
  apply (tokenizeAndHighlight_text sample_patterns sample_code). vm_compute. reflexivity.
Defined.

Lemma updateLayout_column_stacks_witness :
  exists Hgt,
    node_height (res_state (updateLayout (fun _ => 40%Z) "node_0" column_graph)) "node_0" =
      Some (String.append (Z_to_string Hgt) "px") /\
    (100 <= Hgt)%Z /\
    node_pos (res_state (updateLayout (fun _ => 40%Z) "node_0" column_graph)) "node_0" =
      Some (left column_node, top column_node) /\
    (forall id, In id ["node_1"; "node_2"] -> exists t,
        node_pos (res_state (updateLayout (fun _ => 40%Z) "node_0" column_graph)) id =
          Some (left column_node + 20, t)%Z /\
        (top column_node + 20 <= t)%Z /\ (t + 40 + 10 <= top column_node + Hgt)%Z) /\
    (forall i a b, nth_error ["node_1"; "node_2"] i = Some a -> nth_error ["node_1"; "node_2"] (S i) = Some b ->
        exists ta,
          node_pos (res_state (updateLayout (fun _ => 40%Z) "node_0" column_graph)) a =
            Some (left column_node + 20, ta)%Z /\
          node_pos (res_state (updateLayout (fun _ => 40%Z) "node_0" column_graph)) b =
            Some (left column_node + 20, ta + 40 + 10)%Z).
Proof.
  apply (updateLayout_column_stacks (fun _ => 40%Z) "node_0" column_node ["node_1"; "node_2"] column_graph);
    vm_compute; reflexivity.
Defined.

Lemma createNode_next_id_fresh_witness :
  ids_below_counter (res_state (createNode (VStr "text") (VNum 10) (VNum 20) [("id", VStr "node_7")] initial_editor))
    = true /\
  (nodeCounter initial_editor <=
   nodeCounter (res_state (createNode (VStr "text") (VNum 10) (VNum 20) [("id", VStr "node_7")] initial_editor)))%Z /\
  ~ In (next_auto_id (res_state (createNode (VStr "text") (VNum 10) (VNum 20) [("id", VStr "node_7")] initial_editor)))
       (map fst (nodes (res_state (createNode (VStr "text") (VNum 10) (VNum 20) [("id", VStr "node_7")] initial_editor)))).
Proof.
  apply (createNode_next_id_fresh (VStr "text") (VNum 10) (VNum 20) [("id", VStr "node_7")] initial_editor);
    vm_compute; reflexivity.
Defined.

Lemma deserialize_next_id_fresh_witness :
  ids_below_counter (res_state (deserialize (registry trivial_engine) (Some (serialize edited_editor)) initial_editor))
    = true /\
  ~ In (next_auto_id (res_state (deserialize (registry trivial_engine) (Some (serialize edited_editor)) initial_editor)))
       (map fst (nodes (res_state (deserialize (registry trivial_engine) (Some (serialize edited_editor)) initial_editor)))).
Proof.
  apply (deserialize_next_id_fresh (registry trivial_engine) (Some (serialize edited_editor)) initial_editor);
    [vm_compute; reflexivity
    |intros v q Hv Hq; injection Hv as <-; vm_compute in Hq; injection Hq as <-; vm_compute; reflexivity
    |vm_compute; reflexivity|vm_compute; reflexivity].
Defined.
